(** * sailfish: the per-zone kernels of iso2d, euler2d, srhd_1d and cbdisodg_2d

    A shallow embedding of the C kernels in
      - src/iso2d/mod.c              (module [Iso2d])
      - src/euler2d/mod.c            (module [Euler2d])
      - sailfish/solvers/srhd_1d.c   (module [Srhd1d])
      - sailfish/solvers/cbdisodg_2d.c (module [Cbdisodg2d])

    Number model.  A C [double] is idealised as a real number: [+ - * /],
    [sqrt], [fabs] and [exp] are the operations of [R], comparisons are the
    order of [R].  Rounding, infinities, NaN and the sign of zero are outside
    the model.  [x / 0] is the total division of [R]; every statement that
    depends on a quotient says when its denominator is non-zero.

    Arrays.  A C array of doubles is a [list R]; [a.[q]] reads index [q].
    A [for (q = 0; q < N; ++q) out[q] = e(q)] loop is [tabulate N e].

    Integers.  An [int] is a [Z], or a [nat] where the code only counts up
    from zero; index arithmetic is taken not to overflow.  An output array
    is passed in and returned; the arrays of one call do not overlap. *)

From Stdlib Require Import Reals Lra Lia ZArith List Bool Psatz.
Import ListNotations.
Open Scope R_scope.

Notation "a .[ q ]" := (nth q a 0) (at level 1, format "a .[ q ]").

(** [out[q] = e(q)] for [q = 0 .. n-1]. *)
Definition tabulate (n : nat) (e : nat -> R) : list R := map e (seq 0 n).

(** [a[i] = v]; the kernels only write inside their arrays, a write past the
    end of the list is dropped. *)
Fixpoint upd (a : list R) (i : nat) (v : R) : list R :=
  match a, i with
  | [], _ => []
  | _ :: t, O => v :: t
  | h :: t, S i' => h :: upd t i' v
  end.

(** ** The macros shared by the four files *)
Module Math.

(** [#define min2(a, b) ((a) < (b) ? (a) : (b))] *)
Definition min2 (a b : R) : R := if Rlt_dec a b then a else b.

(** [#define max2(a, b) ((a) > (b) ? (a) : (b))] *)
Definition max2 (a b : R) : R := if Rgt_dec a b then a else b.

Definition min3 (a b c : R) : R := min2 a (min2 b c).
Definition max3 (a b c : R) : R := max2 a (max2 b c).

(** [#define sign(x) copysign(1.0, x)]: [-1] on negative numbers, [+1]
    otherwise (the two zeros of IEEE are one number here). *)
Definition sign (x : R) : R := if Rlt_dec x 0 then -1 else 1.

Definition fabs (x : R) : R := Rabs x.

(** [#define minabs(a, b, c) min3(fabs(a), fabs(b), fabs(c))] *)
Definition minabs (a b c : R) : R := min3 (fabs a) (fabs b) (fabs c).

(** [pow(x, k)] for an exponent [k] that is a whole number. *)
Definition powi (x : R) (k : Z) : R := powerRZ x k.

(** [pow(x, y)] for a positive base. *)
Definition powr (x y : R) : R := Rpower x y.

(** The comparisons [a < b], [a <= b] and [a != b] as truth values, for the
    conditions joined by [||]. *)
Definition c_lt (a b : R) : bool := if Rlt_dec a b then true else false.
Definition c_le (a b : R) : bool := if Rle_dec a b then true else false.
Definition c_ne (a b : R) : bool := if Req_dec_T a b then false else true.

(** A C truth value used as a number, as in [pressure * (direction == 0)]. *)
Definition b2r (b : bool) : R := if b then 1 else 0.

End Math.

(** ** src/iso2d/mod.c *)
Module Iso2d.
Import Math.

Definition NCONS : nat := 3.
Definition PLM_THETA : R := 1.5.

Definition plm_gradient_scalar (yl y0 yr : R) : R :=
  let a := (y0 - yl) * PLM_THETA in
  let b := (yr - yl) * 0.5 in
  let c := (yr - y0) * PLM_THETA in
  0.25 * fabs (sign a + sign b) * (sign a + sign c) * minabs a b c.

Definition plm_gradient (yl y0 yr : list R) : list R :=
  tabulate NCONS (fun q => plm_gradient_scalar yl.[q] y0.[q] yr.[q]).

(** Modelled from the spec: [struct PointMass] is declared in [sailfish.h],
    which is not among the sources (section 3, PointMass); the fields are
    those this file reads, [radius] being the softening length. *)
Record PointMass : Type := mkPointMass {
  pm_x : R;
  pm_y : R;
  pm_mass : R;
  pm_rate : R;
  pm_radius : R
}.

Definition gravitational_potential (masses : list PointMass) (x1 y1 : R) : R :=
  fold_left
    (fun phi m =>
       let x0 := pm_x m in
       let y0 := pm_y m in
       let mp := pm_mass m in
       let rs := pm_radius m in
       let dx := x1 - x0 in
       let dy := y1 - y0 in
       let r2 := dx * dx + dy * dy in
       let r2_soft := r2 + rs * rs in
       phi - mp / sqrt r2_soft)
    masses 0.

(** Returns [delta_cons]. *)
Definition point_mass_source_term (mass : PointMass) (x1 y1 dt sigma : R) : list R :=
  let x0 := pm_x mass in
  let y0 := pm_y mass in
  let mp := pm_mass mass in
  let rs := pm_radius mass in
  let dx := x1 - x0 in
  let dy := y1 - y0 in
  let r2 := dx * dx + dy * dy in
  let r2_soft := r2 + rs * rs in
  let dr := sqrt r2 in
  let mag := sigma * mp / r2_soft in
  let fx := - mag * dx / dr in
  let fy := - mag * dy / dr in
  let sink_rate :=
    if Rlt_dec dr (4.0 * rs)
    then pm_rate mass * exp (- powi (dr / rs) 4)
    else 0.0 in
  [ dt * sigma * sink_rate * -1.0; dt * fx; dt * fy ].

Definition point_masses_source_term
    (masses : list PointMass) (x1 y1 dt sigma : R) (cons : list R) : list R :=
  fold_left
    (fun cons m =>
       let delta_cons := point_mass_source_term m x1 y1 dt sigma in
       tabulate NCONS (fun q => cons.[q] + delta_cons.[q]))
    masses cons.

(** Modelled from the spec: [struct EquationOfState] is declared in
    [sailfish.h], which is not among the sources (section 3, the tagged
    variant Isothermal, LocallyIsothermal, GammaLaw): a tag and the payload
    of that tag. *)
Inductive EquationOfState : Type :=
| Isothermal (sound_speed_squared : R)
| LocallyIsothermal (mach_number_squared : R)
| GammaLaw (gamma_law_index : R).

Definition sound_speed_squared
    (eos : EquationOfState) (x y : R) (masses : list PointMass) : R :=
  match eos with
  | Isothermal cs2 => cs2
  | LocallyIsothermal m2 => - gravitational_potential masses x y / m2
  | GammaLaw _ => 1.0
  end.

(** Modelled from the spec: [struct BufferZone] is declared in [sailfish.h],
    which is not among the sources (section 3, KeplerianBuffer and the
    tagged variant None, Keplerian); [buffer->keplerian] with the fields
    this file reads, then the tagged variant. *)
Record KeplerianBuffer : Type := mkKeplerianBuffer {
  surface_density : R;
  central_mass : R;
  driving_rate : R;
  outer_radius : R;
  onset_width : R
}.

Inductive BufferZone : Type :=
| None_
| Keplerian (keplerian : KeplerianBuffer).

(** Returns the updated [cons]. *)
Definition buffer_source_term
    (buffer : BufferZone) (xc yc dt : R) (cons : list R) : list R :=
  match buffer with
  | None_ => cons
  | Keplerian k =>
      let rc := sqrt (xc * xc + yc * yc) in
      let surface_density := surface_density k in
      let central_mass := central_mass k in
      let driving_rate := driving_rate k in
      let outer_radius := outer_radius k in
      let onset_width := onset_width k in
      let onset_radius := outer_radius - onset_width in
      if Rgt_dec rc onset_radius then
        let pf := surface_density * sqrt (central_mass / rc) in
        let px := pf * (- yc / rc) in
        let py := pf * (xc / rc) in
        let u0 := [surface_density; px; py] in
        let omega_outer := sqrt (central_mass / powi onset_radius 3) in
        let buffer_rate := driving_rate * omega_outer * max2 rc 1.0 in
        tabulate NCONS (fun q => cons.[q] - (cons.[q] - u0.[q]) * buffer_rate * dt)
      else cons
  end.

Definition conserved_to_primitive (cons : list R) : list R :=
  let rho := cons.[0] in
  let px := cons.[1] in
  let py := cons.[2] in
  let vx := px / rho in
  let vy := py / rho in
  [rho; vx; vy].

Definition primitive_to_conserved (prim : list R) : list R :=
  let rho := prim.[0] in
  let vx := prim.[1] in
  let vy := prim.[2] in
  let px := vx * rho in
  let py := vy * rho in
  [rho; px; py].

Definition primitive_to_velocity (prim : list R) (direction : Z) : R :=
  match direction with
  | 0%Z => prim.[1]
  | 1%Z => prim.[2]
  | _ => 0.0
  end.

Definition primitive_to_flux (prim cons : list R) (cs2 : R) (direction : Z) : list R :=
  let vn := primitive_to_velocity prim direction in
  let rho := prim.[0] in
  let pressure := rho * cs2 in
  [ vn * cons.[0];
    vn * cons.[1] + pressure * b2r (direction =? 0)%Z;
    vn * cons.[2] + pressure * b2r (direction =? 1)%Z ].

Definition primitive_to_outer_wavespeeds (prim : list R) (cs2 : R) (direction : Z) : list R :=
  let cs := sqrt cs2 in
  let vn := primitive_to_velocity prim direction in
  [vn - cs; vn + cs].

(** The two locals [am], [ap] of [riemann_hlle]. *)
Definition hlle_speeds (pl pr : list R) (cs2 : R) (direction : Z) : R * R :=
  let al := primitive_to_outer_wavespeeds pl cs2 direction in
  let ar := primitive_to_outer_wavespeeds pr cs2 direction in
  (min3 0.0 al.[0] ar.[0], max3 0.0 al.[1] ar.[1]).

Definition riemann_hlle (pl pr : list R) (cs2 : R) (direction : Z) : list R :=
  let ul := primitive_to_conserved pl in
  let ur := primitive_to_conserved pr in
  let fl := primitive_to_flux pl ul cs2 direction in
  let fr := primitive_to_flux pr ur cs2 direction in
  let al := primitive_to_outer_wavespeeds pl cs2 direction in
  let ar := primitive_to_outer_wavespeeds pr cs2 direction in
  let am := min3 0.0 al.[0] ar.[0] in
  let ap := max3 0.0 al.[1] ar.[1] in
  tabulate NCONS
    (fun q => (fl.[q] * ap - fr.[q] * am - (ul.[q] - ur.[q]) * ap * am) / (ap - am)).

Definition shear_strain (gx gy : list R) (dx dy : R) : list R :=
  let sxx := 4.0 / 3.0 * gx.[1] / dx - 2.0 / 3.0 * gy.[2] / dy in
  let syy := - 2.0 / 3.0 * gx.[1] / dx + 4.0 / 3.0 * gy.[2] / dy in
  let sxy := 1.0 / 1.0 * gx.[2] / dx + 1.0 / 1.0 * gy.[1] / dy in
  let syx := sxy in
  [sxx; sxy; syx; syy].

Definition primitive_max_wavespeed (prim : list R) (cs2 : R) : R :=
  let cs := sqrt cs2 in
  let vx := prim.[1] in
  let vy := prim.[2] in
  let ax := max2 (fabs (vx - cs)) (fabs (vx + cs)) in
  let ay := max2 (fabs (vy - cs)) (fabs (vy + cs)) in
  max2 ax ay.

(** Modelled from the spec: [struct Mesh] is declared in [sailfish.h], which
    is not among the sources (section 3, Mesh); the fields are those this
    file reads. *)
Record Mesh : Type := mkMesh {
  ni : nat;
  nj : nat
}.

(** [struct Patch]; an [int x[2]] is a pair, [data] is the array that the
    pointer addresses. *)
Record Patch : Type := mkPatch {
  num_fields : Z;
  start : Z * Z;
  count : Z * Z;
  jumps : Z * Z;
  data : list R
}.

Definition patch (mesh : Mesh) (num_guard : Z) (data : list R) : Patch :=
  let num_fields := Z.of_nat NCONS in
  let start := (- num_guard, - num_guard)%Z in
  let count :=
    (Z.of_nat (ni mesh) + 2 * num_guard, Z.of_nat (nj mesh) + 2 * num_guard)%Z in
  let jumps := (num_fields * snd count, num_fields)%Z in
  mkPatch num_fields start count jumps data.

(** [GET(p, i, j)] is the pointer [p.data + off]; this is [off]. *)
Definition GET (p : Patch) (i j : Z) : Z :=
  (fst (jumps p) * (i - fst (start p)) + snd (jumps p) * (j - snd (start p)))%Z.

Definition ELEMENTS (p : Patch) : Z := (fst (count p) * snd (count p) * num_fields p)%Z.

(** [sizeof(real)] is 8. *)
Definition BYTES (p : Patch) : Z := (ELEMENTS p * 8)%Z.

Definition CONTAINS (p q : Patch) : bool :=
  (((fst (start p) <=? fst (start q))
    && (fst (start q) + fst (count q) <=? fst (start p) + fst (count p)))
   && ((snd (start p) <=? snd (start q))
       && (snd (start q) + snd (count q) <=? snd (start p) + snd (count p))))%Z.

(** The values [a], [a + 1], ... that [for (k = a; k < a + n; ++k)] visits. *)
Definition range (a n : Z) : list Z :=
  map (fun k => (a + Z.of_nat k)%Z) (seq 0 (Z.to_nat n)).

Definition FOR_EACH {S : Type} (p : Patch) (body : Z -> Z -> S -> S) (s : S) : S :=
  fold_left
    (fun s i =>
       fold_left (fun s j => body i j s) (range (snd (start p)) (snd (count p))) s)
    (range (fst (start p)) (fst (count p))) s.

(** [&a[off]] *)
Definition ptr (a : list R) (off : Z) : list R := skipn (Z.to_nat off) a.

(** Modelled from the spec: [enum ExecutionMode] is declared in
    [sailfish.h], which is not among the sources (section 6, execution
    mode). *)
Inductive ExecutionMode : Type := CPU | OMP | GPU.

(** Returns the contents of [conserved_ptr].  The body does not read
    [mode]. *)
Definition iso2d_primitive_to_conserved
    (mesh : Mesh) (primitive_ptr conserved_ptr : list R) (mode : ExecutionMode) : list R :=
  let primitive := patch mesh 2 primitive_ptr in
  let conserved := patch mesh 0 conserved_ptr in
  FOR_EACH conserved
    (fun i j conserved_ptr =>
       let u := GET conserved i j in
       let p := ptr primitive_ptr (GET primitive i j) in
       let cons := primitive_to_conserved p in
       fold_left (fun a q => upd a (Z.to_nat u + q) cons.[q]) (seq 0 NCONS) conserved_ptr)
    conserved_ptr.


End Iso2d.

(** ** src/euler2d/mod.c *)
Module Euler2d.
Import Math.

Definition NCONS : nat := 4.
Definition PLM_THETA : R := 1.5.
Definition GAMMA_LAW_INDEX : R := 5.0 / 3.0.

Definition plm_gradient_scalar (yl y0 yr : R) : R :=
  let a := (y0 - yl) * PLM_THETA in
  let b := (yr - yl) * 0.5 in
  let c := (yr - y0) * PLM_THETA in
  0.25 * fabs (sign a + sign b) * (sign a + sign c) * minabs a b c.

Definition plm_gradient (yl y0 yr : list R) : list R :=
  tabulate NCONS (fun q => plm_gradient_scalar yl.[q] y0.[q] yr.[q]).

(** Modelled from the spec: the sink models and [struct PointMass] are
    declared in [sailfish.h], which is not among the sources (section 6, sink
    model; section 3, PointMass).  [Inactive] stands for every value of
    [mass->model] that falls to [default:]; the record has the fields this
    file reads. *)
Inductive SinkModel : Type := Inactive | AccelerationFree | TorqueFree | ForceFree.

Record PointMass : Type := mkPointMass {
  pm_x : R;
  pm_y : R;
  pm_vx : R;
  pm_vy : R;
  pm_mass : R;
  pm_rate : R;
  pm_model : SinkModel
}.

Definition disk_height (masses : list PointMass) (x1 y1 : R) (prim : list R) : R :=
  let omegatilde2 :=
    fold_left
      (fun omegatilde2 m =>
         let x0 := pm_x m in
         let y0 := pm_y m in
         let mp := pm_mass m in
         let dx := x1 - x0 in
         let dy := y1 - y0 in
         let r2 := dx * dx + dy * dy + 1e-12 in
         let r := sqrt r2 in
         omegatilde2 + mp / r2 / r)
      masses 0.0 in
  let sigma := prim.[0] in
  let pres := prim.[3] in
  sqrt (pres / sigma) / sqrt omegatilde2.

(** Returns [delta_cons]. *)
Definition point_mass_source_term
    (mass : PointMass) (x1 y1 dt : R) (prim : list R) (h : R) : list R :=
  let x0 := pm_x mass in
  let y0 := pm_y mass in
  let mp := pm_mass mass in
  let sigma := prim.[0] in
  let pres := prim.[3] in
  let gamma := GAMMA_LAW_INDEX in
  let eps := pres / (gamma - 1.0) / sigma in
  let dx := x1 - x0 in
  let dy := y1 - y0 in
  let r2 := dx * dx + dy * dy in
  let rs := 0.5 * h in
  let r2_soft := r2 + rs * rs in
  let dr := sqrt r2 in
  let mag := sigma * mp / r2_soft in
  let fx := - mag * dx / dr in
  let fy := - mag * dy / dr in
  let sink_rate :=
    if Rlt_dec dr (4.0 * rs)
    then pm_rate mass * exp (- powi (dr / rs) 4)
    else 0.0 in
  let mdot := sigma * sink_rate * -1.0 in
  match pm_model mass with
  | AccelerationFree =>
      [ dt * mdot;
        dt * mdot * prim.[1] + dt * fx;
        dt * mdot * prim.[2] + dt * fy;
        dt * (mdot * eps + 0.5 * mdot * (prim.[1] * prim.[1] + prim.[2] * prim.[2]))
          + dt * (fx * prim.[1] + fy * prim.[2]) ]
  | TorqueFree =>
      let vx := prim.[1] in
      let vy := prim.[2] in
      let vx0 := pm_vx mass in
      let vy0 := pm_vy mass in
      let rhatx := dx / dr in
      let rhaty := dy / dr in
      let dvdotrhat := (vx - vx0) * rhatx + (vy - vy0) * rhaty in
      let vxstar := dvdotrhat * rhatx + vx0 in
      let vystar := dvdotrhat * rhaty + vy0 in
      [ dt * mdot;
        dt * mdot * vxstar + dt * fx;
        dt * mdot * vystar + dt * fy;
        dt * (mdot * eps + 0.5 * mdot * (vxstar * vxstar + vystar * vystar))
          + dt * (fx * prim.[1] + fy * prim.[2]) ]
  | ForceFree =>
      [ dt * mdot;
        dt * fx;
        dt * fy;
        dt * (fx * prim.[1] + fy * prim.[2]) ]
  | Inactive => [0.0; 0.0; 0.0; 0.0]
  end.

Definition point_masses_source_term
    (masses : list PointMass) (x1 y1 dt : R) (prim : list R) (h : R)
    (cons : list R) : list R :=
  fold_left
    (fun cons m =>
       let delta_cons := point_mass_source_term m x1 y1 dt prim h in
       tabulate NCONS (fun q => cons.[q] + delta_cons.[q]))
    masses cons.

(** Modelled from the spec: [struct EquationOfState] is declared in
    [sailfish.h], which is not among the sources (section 3).  [OtherEos]
    stands for every tag [eos->type] that falls to [default:]. *)
Inductive EquationOfState : Type := GammaLaw | OtherEos.

Definition sound_speed_squared (eos : EquationOfState) (prim : list R) : R :=
  match eos with
  | GammaLaw => prim.[3] / prim.[0] * GAMMA_LAW_INDEX
  | OtherEos => 1.0
  end.

(** Modelled from the spec: [struct BufferZone] is declared in [sailfish.h],
    which is not among the sources (section 3, KeplerianBuffer and the
    tagged variant None, Keplerian). *)
Record KeplerianBuffer : Type := mkKeplerianBuffer {
  surface_density : R;
  surface_pressure : R;
  central_mass : R;
  driving_rate : R;
  outer_radius : R;
  onset_width : R
}.

Inductive BufferZone : Type :=
| None_
| Keplerian (keplerian : KeplerianBuffer).

(** Returns the updated [cons]. *)
Definition buffer_source_term
    (buffer : BufferZone) (xc yc dt : R) (cons : list R) : list R :=
  match buffer with
  | None_ => cons
  | Keplerian k =>
      let rc := sqrt (xc * xc + yc * yc) in
      let surface_density := surface_density k in
      let surface_pressure := surface_pressure k in
      let central_mass := central_mass k in
      let driving_rate := driving_rate k in
      let outer_radius := outer_radius k in
      let onset_width := onset_width k in
      let onset_radius := outer_radius - onset_width in
      if Rgt_dec rc onset_radius then
        let pf := surface_density * sqrt (central_mass / rc) in
        let px := pf * (- yc / rc) in
        let py := pf * (xc / rc) in
        let kinetic_energy := 0.5 * (px * px + py * py) / surface_density in
        let energy := surface_pressure / (GAMMA_LAW_INDEX - 1.0) + kinetic_energy in
        let u0 := [surface_density; px; py; energy] in
        let omega_outer := sqrt (central_mass / powi onset_radius 3) in
        let buffer_rate := driving_rate * omega_outer * max2 rc 1.0 in
        tabulate NCONS (fun q => cons.[q] - (cons.[q] - u0.[q]) * buffer_rate * dt)
      else cons
  end.

Definition shear_strain (gx gy : list R) (dx dy : R) : list R :=
  let sxx := 4.0 / 3.0 * gx.[1] / dx - 2.0 / 3.0 * gy.[2] / dy in
  let syy := - 2.0 / 3.0 * gx.[1] / dx + 4.0 / 3.0 * gy.[2] / dy in
  let sxy := 1.0 / 1.0 * gx.[2] / dx + 1.0 / 1.0 * gy.[1] / dy in
  let syx := sxy in
  [sxx; sxy; syx; syy].

(** Returns the updated [cons]. *)
Definition cooling_term (cooling_coefficient dt : R) (prim cons : list R) : list R :=
  let gamma := GAMMA_LAW_INDEX in
  let sigma := prim.[0] in
  let eps := prim.[3] / (gamma - 1.0) in
  let eps_cooled :=
    eps * powr (1.0 + 3.0 * cooling_coefficient / powi sigma 2 * powi eps 3 * dt)
               (- 1.0 / 3.0) in
  upd cons 3 (cons.[3] + sigma * (eps_cooled - eps)).

Definition conserved_to_primitive
    (cons : list R) (velocity_ceiling density_floor pressure_floor : R) : list R :=
  let gamma := GAMMA_LAW_INDEX in
  let rho := max2 cons.[0] density_floor in
  let px := cons.[1] in
  let py := cons.[2] in
  let vx := sign px * min2 (fabs (px / rho)) velocity_ceiling in
  let vy := sign py * min2 (fabs (py / rho)) velocity_ceiling in
  let pres :=
    max2 ((cons.[3] - 0.5 * rho * (vx * vx + vy * vy)) * (gamma - 1.0)) pressure_floor in
  [rho; vx; vy; pres].

Definition primitive_to_conserved (prim : list R) : list R :=
  let gamma := GAMMA_LAW_INDEX in
  let rho := prim.[0] in
  let vx := prim.[1] in
  let vy := prim.[2] in
  let pres := prim.[3] in
  let px := vx * rho in
  let py := vy * rho in
  let en := pres / (gamma - 1.0) + 0.5 * rho * (vx * vx + vy * vy) in
  [rho; px; py; en].

Definition primitive_to_velocity (prim : list R) (direction : Z) : R :=
  match direction with
  | 0%Z => prim.[1]
  | 1%Z => prim.[2]
  | _ => 0.0
  end.

Definition primitive_to_flux (prim cons : list R) (direction : Z) : list R :=
  let vn := primitive_to_velocity prim direction in
  let pressure := prim.[3] in
  [ vn * cons.[0];
    vn * cons.[1] + pressure * b2r (direction =? 0)%Z;
    vn * cons.[2] + pressure * b2r (direction =? 1)%Z;
    vn * (cons.[3] + pressure) ].

Definition primitive_to_outer_wavespeeds (prim : list R) (cs2 : R) (direction : Z) : list R :=
  let cs := sqrt cs2 in
  let vn := primitive_to_velocity prim direction in
  [vn - cs; vn + cs].

Definition primitive_max_wavespeed (prim : list R) (cs2 : R) : R :=
  let cs := sqrt cs2 in
  let vx := prim.[1] in
  let vy := prim.[2] in
  let ax := max2 (fabs (vx - cs)) (fabs (vx + cs)) in
  let ay := max2 (fabs (vy - cs)) (fabs (vy + cs)) in
  max2 ax ay.

(** The two locals [am], [ap] of [riemann_hlle]. *)
Definition hlle_speeds (pl pr : list R) (cs2 : R) (direction : Z) : R * R :=
  let al := primitive_to_outer_wavespeeds pl cs2 direction in
  let ar := primitive_to_outer_wavespeeds pr cs2 direction in
  (min3 0.0 al.[0] ar.[0], max3 0.0 al.[1] ar.[1]).

Definition riemann_hlle (pl pr : list R) (cs2 : R) (direction : Z) : list R :=
  let ul := primitive_to_conserved pl in
  let ur := primitive_to_conserved pr in
  let fl := primitive_to_flux pl ul direction in
  let fr := primitive_to_flux pr ur direction in
  let al := primitive_to_outer_wavespeeds pl cs2 direction in
  let ar := primitive_to_outer_wavespeeds pr cs2 direction in
  let am := min3 0.0 al.[0] ar.[0] in
  let ap := max3 0.0 al.[1] ar.[1] in
  tabulate NCONS
    (fun q => (fl.[q] * ap - fr.[q] * am - (ul.[q] - ur.[q]) * ap * am) / (ap - am)).

(** Modelled from the spec: [struct Mesh] is declared in [sailfish.h], which
    is not among the sources (section 3, Mesh: origin, cell counts and cell
    sizes); the fields are those this file reads. *)
Record Mesh : Type := mkMesh {
  ni : nat;
  nj : nat;
  x0 : R;
  y0 : R;
  dx : R;
  dy : R
}.

(** A [struct Patch] seen through [GET]: the block of [num_fields] doubles
    of zone [(i, j)].  The strides and the guard offset of the flat array
    are not modelled. *)
Definition Patch : Type := Z -> Z -> list R.

Definition GET (p : Patch) (i j : Z) : list R := p i j.

(** The block of zone [(i, j)] overwritten with [v]. *)
Definition SET (p : Patch) (i j : Z) (v : list R) : Patch :=
  fun i' j' => if ((i' =? i) && (j' =? j))%Z then v else p i' j'.

(** [FOR_EACH(p)] on a patch without guard zones: [i] from [0] to [ni - 1],
    and for each [i], [j] from [0] to [nj - 1]. *)
Definition FOR_EACH (ni nj : nat) (body : Z -> Z -> Patch -> Patch) (wr : Patch) : Patch :=
  fold_left
    (fun wr i =>
       fold_left (fun wr j => body (Z.of_nat i) (Z.of_nat j) wr) (seq 0 nj) wr)
    (seq 0 ni) wr.

(** [a[i] -= v] *)
Definition sub_at (a : list R) (i : nat) (v : R) : list R := upd a i (a.[i] - v).

(** Returns the block stored through [pout]. *)
Definition advance_rk_zone
    (mesh : Mesh) (conserved_rk primitive_rd : Patch)
    (eos : EquationOfState) (buffer : BufferZone) (masses : list PointMass)
    (alpha a dt velocity_ceiling cooling_coefficient density_floor pressure_floor : R)
    (i j : Z) : list R :=
  let dx := dx mesh in
  let dy := dy mesh in
  let xc := x0 mesh + (IZR i + 0.5) * dx in
  let yc := y0 mesh + (IZR j + 0.5) * dy in
  let un := GET conserved_rk i j in
  let pcc := GET primitive_rd i j in
  let pli := GET primitive_rd (i - 1) j in
  let pri := GET primitive_rd (i + 1) j in
  let plj := GET primitive_rd i (j - 1) in
  let prj := GET primitive_rd i (j + 1) in
  let pki := GET primitive_rd (i - 2) j in
  let pti := GET primitive_rd (i + 2) j in
  let pkj := GET primitive_rd i (j - 2) in
  let ptj := GET primitive_rd i (j + 2) in
  let pll := GET primitive_rd (i - 1) (j - 1) in
  let plr := GET primitive_rd (i - 1) (j + 1) in
  let prl := GET primitive_rd (i + 1) (j - 1) in
  let prr := GET primitive_rd (i + 1) (j + 1) in
  let gxli := plm_gradient pki pli pcc in
  let gxcc := plm_gradient pli pcc pri in
  let gxri := plm_gradient pcc pri pti in
  let gylj := plm_gradient pkj plj pcc in
  let gycc := plm_gradient plj pcc prj in
  let gyrj := plm_gradient pcc prj ptj in
  let gyli := plm_gradient pll pli plr in
  let gyri := plm_gradient prl pri prr in
  let gxlj := plm_gradient pll plj prl in
  let gxrj := plm_gradient plr prj prr in
  let plim := tabulate NCONS (fun q => pli.[q] + 0.5 * gxli.[q]) in
  let plip := tabulate NCONS (fun q => pcc.[q] - 0.5 * gxcc.[q]) in
  let prim := tabulate NCONS (fun q => pcc.[q] + 0.5 * gxcc.[q]) in
  let prip := tabulate NCONS (fun q => pri.[q] - 0.5 * gxri.[q]) in
  let pljm := tabulate NCONS (fun q => plj.[q] + 0.5 * gylj.[q]) in
  let pljp := tabulate NCONS (fun q => pcc.[q] - 0.5 * gycc.[q]) in
  let prjm := tabulate NCONS (fun q => pcc.[q] + 0.5 * gycc.[q]) in
  let prjp := tabulate NCONS (fun q => prj.[q] - 0.5 * gyrj.[q]) in
  let cs2li := sound_speed_squared eos pli in
  let cs2ri := sound_speed_squared eos pri in
  let cs2lj := sound_speed_squared eos plj in
  let cs2rj := sound_speed_squared eos prj in
  let fli := riemann_hlle plim plip cs2li 0 in
  let fri := riemann_hlle prim prip cs2ri 0 in
  let flj := riemann_hlle pljm pljp cs2lj 1 in
  let frj := riemann_hlle prjm prjp cs2rj 1 in
  let sli := shear_strain gxli gyli dx dy in
  let sri := shear_strain gxri gyri dx dy in
  let slj := shear_strain gxlj gylj dx dy in
  let srj := shear_strain gxrj gyrj dx dy in
  let scc := shear_strain gxcc gycc dx dy in
  let h := disk_height masses xc yc pcc in
  let cs2cc := sound_speed_squared eos pcc in
  let nu := alpha * h * sqrt cs2cc in
  let fli := sub_at fli 1 (0.5 * nu * (pli.[0] * sli.[0] + pcc.[0] * scc.[0])) in
  let fli := sub_at fli 2 (0.5 * nu * (pli.[0] * sli.[1] + pcc.[0] * scc.[1])) in
  let fri := sub_at fri 1 (0.5 * nu * (pcc.[0] * scc.[0] + pri.[0] * sri.[0])) in
  let fri := sub_at fri 2 (0.5 * nu * (pcc.[0] * scc.[1] + pri.[0] * sri.[1])) in
  let flj := sub_at flj 1 (0.5 * nu * (plj.[0] * slj.[2] + pcc.[0] * scc.[2])) in
  let flj := sub_at flj 2 (0.5 * nu * (plj.[0] * slj.[3] + pcc.[0] * scc.[3])) in
  let frj := sub_at frj 1 (0.5 * nu * (pcc.[0] * scc.[2] + prj.[0] * srj.[2])) in
  let frj := sub_at frj 2 (0.5 * nu * (pcc.[0] * scc.[3] + prj.[0] * srj.[3])) in
  let fli := sub_at fli 3 (0.5 * nu * (pli.[0] * sli.[0] * pli.[1] + pcc.[0] * scc.[0] * pcc.[1])) in
  let fri := sub_at fri 3 (0.5 * nu * (pcc.[0] * scc.[0] * pcc.[1] + pri.[0] * sri.[0] * pri.[1])) in
  let fli := sub_at fli 3 (0.5 * nu * (pli.[0] * sli.[1] * pli.[2] + pcc.[0] * scc.[1] * pcc.[2])) in
  let fri := sub_at fri 3 (0.5 * nu * (pcc.[0] * scc.[1] * pcc.[2] + pri.[0] * sri.[1] * pri.[2])) in
  let flj := sub_at flj 3 (0.5 * nu * (plj.[0] * slj.[2] * plj.[1] + pcc.[0] * scc.[2] * pcc.[1])) in
  let frj := sub_at frj 3 (0.5 * nu * (pcc.[0] * scc.[2] * pcc.[1] + prj.[0] * srj.[2] * prj.[1])) in
  let flj := sub_at flj 3 (0.5 * nu * (plj.[0] * slj.[3] * plj.[2] + pcc.[0] * scc.[3] * pcc.[2])) in
  let frj := sub_at frj 3 (0.5 * nu * (pcc.[0] * scc.[3] * pcc.[2] + prj.[0] * srj.[3] * prj.[2])) in
  let ucc := primitive_to_conserved pcc in
  let ucc := buffer_source_term buffer xc yc dt ucc in
  let ucc := point_masses_source_term masses xc yc dt pcc h ucc in
  let ucc := cooling_term cooling_coefficient dt pcc ucc in
  let ucc :=
    tabulate NCONS
      (fun q =>
         let u := ucc.[q] - ((fri.[q] - fli.[q]) / dx + (frj.[q] - flj.[q]) / dy) * dt in
         (1.0 - a) * u + a * un.[q]) in
  conserved_to_primitive ucc velocity_ceiling density_floor pressure_floor.

(** Returns the block stored through [pout]. *)
Definition advance_rk_zone_inviscid
    (mesh : Mesh) (conserved_rk primitive_rd : Patch)
    (eos : EquationOfState) (buffer : BufferZone) (masses : list PointMass)
    (a dt velocity_ceiling cooling_coefficient density_floor pressure_floor : R)
    (i j : Z) : list R :=
  let dx := dx mesh in
  let dy := dy mesh in
  let xc := x0 mesh + (IZR i + 0.5) * dx in
  let yc := y0 mesh + (IZR j + 0.5) * dy in
  let un := GET conserved_rk i j in
  let pcc := GET primitive_rd i j in
  let pli := GET primitive_rd (i - 1) j in
  let pri := GET primitive_rd (i + 1) j in
  let plj := GET primitive_rd i (j - 1) in
  let prj := GET primitive_rd i (j + 1) in
  let pki := GET primitive_rd (i - 2) j in
  let pti := GET primitive_rd (i + 2) j in
  let pkj := GET primitive_rd i (j - 2) in
  let ptj := GET primitive_rd i (j + 2) in
  let gxli := plm_gradient pki pli pcc in
  let gxcc := plm_gradient pli pcc pri in
  let gxri := plm_gradient pcc pri pti in
  let gylj := plm_gradient pkj plj pcc in
  let gycc := plm_gradient plj pcc prj in
  let gyrj := plm_gradient pcc prj ptj in
  let plim := tabulate NCONS (fun q => pli.[q] + 0.5 * gxli.[q]) in
  let plip := tabulate NCONS (fun q => pcc.[q] - 0.5 * gxcc.[q]) in
  let prim := tabulate NCONS (fun q => pcc.[q] + 0.5 * gxcc.[q]) in
  let prip := tabulate NCONS (fun q => pri.[q] - 0.5 * gxri.[q]) in
  let pljm := tabulate NCONS (fun q => plj.[q] + 0.5 * gylj.[q]) in
  let pljp := tabulate NCONS (fun q => pcc.[q] - 0.5 * gycc.[q]) in
  let prjm := tabulate NCONS (fun q => pcc.[q] + 0.5 * gycc.[q]) in
  let prjp := tabulate NCONS (fun q => prj.[q] - 0.5 * gyrj.[q]) in
  let cs2li := sound_speed_squared eos pli in
  let cs2ri := sound_speed_squared eos pri in
  let cs2lj := sound_speed_squared eos plj in
  let cs2rj := sound_speed_squared eos prj in
  let fli := riemann_hlle plim plip cs2li 0 in
  let fri := riemann_hlle prim prip cs2ri 0 in
  let flj := riemann_hlle pljm pljp cs2lj 1 in
  let frj := riemann_hlle prjm prjp cs2rj 1 in
  let h := disk_height masses xc yc pcc in
  let ucc := primitive_to_conserved pcc in
  let ucc := buffer_source_term buffer xc yc dt ucc in
  let ucc := point_masses_source_term masses xc yc dt pcc h ucc in
  let ucc := cooling_term cooling_coefficient dt pcc ucc in
  let ucc :=
    tabulate NCONS
      (fun q =>
         let u := ucc.[q] - ((fri.[q] - fli.[q]) / dx + (frj.[q] - flj.[q]) / dy) * dt in
         (1.0 - a) * u + a * un.[q]) in
  conserved_to_primitive ucc velocity_ceiling density_floor pressure_floor.

(** Modelled from the spec: [enum ExecutionMode] is declared in
    [sailfish.h], which is not among the sources (section 6, execution
    mode). *)
Inductive ExecutionMode : Type := CPU | OMP | GPU.

(** [euler2d_advance_rk], compiled as host C (neither [__NVCC__] nor
    [__ROCM__]); [have_openmp] tells whether [_OPENMP] is defined.  The
    zones of the OpenMP loop write disjoint blocks, so the loop is run in
    the order of the serial one.  Returns the contents of [primitive_wr]. *)
Definition euler2d_advance_rk
    (have_openmp : bool)
    (mesh : Mesh) (conserved_rk primitive_rd primitive_wr : Patch)
    (eos : EquationOfState) (buffer : BufferZone) (masses : list PointMass)
    (nu a dt velocity_ceiling cooling_coefficient density_floor pressure_floor : R)
    (mode : ExecutionMode) : Patch :=
  let sweep :=
    if Req_dec_T nu 0.0 then
      FOR_EACH (ni mesh) (nj mesh)
        (fun i j wr =>
           SET wr i j
             (advance_rk_zone_inviscid mesh conserved_rk primitive_rd eos buffer masses
                a dt velocity_ceiling cooling_coefficient density_floor pressure_floor i j))
        primitive_wr
    else
      FOR_EACH (ni mesh) (nj mesh)
        (fun i j wr =>
           SET wr i j
             (advance_rk_zone mesh conserved_rk primitive_rd eos buffer masses
                nu a dt velocity_ceiling cooling_coefficient density_floor pressure_floor i j))
        primitive_wr in
  match mode with
  | CPU => sweep
  | OMP => if have_openmp then sweep else primitive_wr
  | GPU => primitive_wr
  end.

(** *** The strides of a patch *)
Module Layout.

(** [struct Patch]; an [int x[2]] is a pair, [data] is the array that the
    pointer addresses. *)
Record Patch : Type := mkPatch {
  start : Z * Z;
  count : Z * Z;
  jumps : Z * Z;
  num_fields : Z;
  data : list R
}.

Definition patch (mesh : Mesh) (num_fields num_guard : Z) (data : list R) : Patch :=
  let start := (- num_guard, - num_guard)%Z in
  let count :=
    (Z.of_nat (ni mesh) + 2 * num_guard, Z.of_nat (nj mesh) + 2 * num_guard)%Z in
  let jumps := (num_fields * snd count, num_fields)%Z in
  mkPatch start count jumps num_fields data.

(** [GET(p, i, j)] is the pointer [p.data + off]; this is [off]. *)
Definition GET (p : Patch) (i j : Z) : Z :=
  (fst (jumps p) * (i - fst (start p)) + snd (jumps p) * (j - snd (start p)))%Z.

Definition ELEMENTS (p : Patch) : Z := (fst (count p) * snd (count p) * num_fields p)%Z.

(** [sizeof(real)] is 8. *)
Definition BYTES (p : Patch) : Z := (ELEMENTS p * 8)%Z.

Definition CONTAINS (p q : Patch) : bool :=
  (((fst (start p) <=? fst (start q))
    && (fst (start q) + fst (count q) <=? fst (start p) + fst (count p)))
   && ((snd (start p) <=? snd (start q))
       && (snd (start q) + snd (count q) <=? snd (start p) + snd (count p))))%Z.

End Layout.

(** *** The other two entry points *)

(** Returns the contents of [conserved]. *)
Definition primitive_to_conserved_zone (primitive conserved : Patch) (i j : Z) : Patch :=
  let p := GET primitive i j in
  SET conserved i j (primitive_to_conserved p).

(** Returns the contents of [wavespeed], a patch with one field: the block
    of a zone is the one double [GET(wavespeed, i, j)[0]]. *)
Definition wavespeed_zone
    (eos : EquationOfState) (primitive wavespeed : Patch) (i j : Z) : Patch :=
  let pc := GET primitive i j in
  let cs2 := sound_speed_squared eos pc in
  let a := primitive_max_wavespeed pc cs2 in
  SET wavespeed i j [a].

(** [euler2d_primitive_to_conserved], compiled as host C; [have_openmp]
    tells whether [_OPENMP] is defined.  Returns the contents of
    [conserved]. *)
Definition euler2d_primitive_to_conserved
    (have_openmp : bool) (mesh : Mesh) (primitive conserved : Patch)
    (mode : ExecutionMode) : Patch :=
  let sweep :=
    FOR_EACH (ni mesh) (nj mesh)
      (fun i j conserved => primitive_to_conserved_zone primitive conserved i j)
      conserved in
  match mode with
  | CPU => sweep
  | OMP => if have_openmp then sweep else conserved
  | GPU => conserved
  end.

(** [euler2d_wavespeed], compiled as host C.  Returns the contents of
    [wavespeed]; [masses] is passed on to the GPU kernel only. *)
Definition euler2d_wavespeed
    (have_openmp : bool) (mesh : Mesh) (primitive wavespeed : Patch)
    (eos : EquationOfState) (masses : list PointMass) (mode : ExecutionMode) : Patch :=
  let sweep :=
    FOR_EACH (ni mesh) (nj mesh)
      (fun i j wavespeed => wavespeed_zone eos primitive wavespeed i j)
      wavespeed in
  match mode with
  | CPU => sweep
  | OMP => if have_openmp then sweep else wavespeed
  | GPU => wavespeed
  end.


End Euler2d.

(** ** sailfish/solvers/srhd_1d.c *)
Module Srhd1d.
Import Math.

Definition COORDS_CARTESIAN : Z := 0.
Definition COORDS_SPHERICAL : Z := 1.
Definition NCONS : nat := 4.
Definition PLM_THETA : R := 2.0.
Definition ADIABATIC_GAMMA : R := 4.0 / 3.0.
Definition NOMINAL_FOUR_PI : R := 1.0.

(** Modelled from the spec: the build macro [EXEC_MODE] and its values are
    defined outside the sources (section 6, execution mode). *)
Inductive ExecMode : Type := EXEC_CPU | EXEC_OMP | EXEC_GPU.

Definition plm_gradient_scalar (yl y0 yr : R) : R :=
  let a := (y0 - yl) * PLM_THETA in
  let b := (yr - yl) * 0.5 in
  let c := (yr - y0) * PLM_THETA in
  0.25 * fabs (sign a + sign b) * (sign a + sign c) * minabs a b c.

Definition plm_gradient (yl y0 yr : list R) : list R :=
  tabulate NCONS (fun q => plm_gradient_scalar yl.[q] y0.[q] yr.[q]).

Definition primitive_to_gamma_beta_squared (prim : list R) : R :=
  let u1 := prim.[1] in
  u1 * u1.

Definition primitive_to_lorentz_factor (prim : list R) : R :=
  sqrt (1.0 + primitive_to_gamma_beta_squared prim).

Definition primitive_to_beta_component (prim : list R) : R :=
  let w := primitive_to_lorentz_factor prim in
  prim.[1] / w.

Definition primitive_to_enthalpy_density (prim : list R) : R :=
  let rho := prim.[0] in
  let pre := prim.[2] in
  rho + pre * (1.0 + 1.0 / (ADIABATIC_GAMMA - 1.0)).

Definition primitive_to_conserved (prim : list R) (dv : R) : list R :=
  let rho := prim.[0] in
  let u1 := prim.[1] in
  let pre := prim.[2] in
  let w := primitive_to_lorentz_factor prim in
  let h := primitive_to_enthalpy_density prim / rho in
  let m := rho * w in
  [ dv * m;
    dv * m * h * u1;
    dv * m * (h * w - 1.0) - dv * pre;
    dv * m * prim.[3] ].

Definition newton_iter_max : nat := 500.

(** The state with which the [while (1)] loop of [conserved_to_primitive]
    is left: the counter [iteration], the pressure [p] after the last
    update, the last residual [f] and [w0]. *)
Record NewtonExit : Type := mkNewtonExit {
  exit_iteration : nat;
  exit_p : R;
  exit_f : R;
  exit_w0 : R
}.

(** The residual [f], the updated pressure and the Lorentz factor [w] of
    one pass of the loop body entered with pressure [p]. *)
Definition newton_pass (gm m tau ss p : R) : R * R * R :=
  let et := tau + p + m in
  let b2 := min2 (ss / et / et) (1.0 - 1e-10) in
  let w2 := 1.0 / (1.0 - b2) in
  let w := sqrt w2 in
  let e := (tau + m * (1.0 - w) + p * (1.0 - w2)) / (m * w) in
  let d := m / w in
  let h := 1.0 + e + p / d in
  let a2 := gm * p / (d * h) in
  let g := b2 * a2 - 1.0 in
  let f := d * e * (gm - 1.0) - p in
  let p := p - f / g in
  (f, p, w).

(** The [while (1)] loop, entered with the counter at [iteration] and the
    pressure at [p].  [fuel] bounds the number of further passes; started
    from [iteration = 0] with [fuel = newton_iter_max] the last branch is
    never taken (lemma [newton_loop_exit]). *)
Fixpoint newton_loop
    (error_tolerance gm m tau ss : R) (fuel iteration : nat) (p : R) : NewtonExit :=
  let '(f, p, w) := newton_pass gm m tau ss p in
  if c_lt (fabs f) error_tolerance || (iteration =? newton_iter_max)%nat
  then mkNewtonExit iteration p f w
  else
    match fuel with
    | S fuel' => newton_loop error_tolerance gm m tau ss fuel' (iteration + 1) p
    | O => mkNewtonExit iteration p f w
    end.

(** What the three [printf]s before [exit(1)] report. *)
Inductive Fatal : Type :=
| ReachedMaxIteration (coordinate cons0 cons1 cons2 error : R)
| NonPositiveEnergy (tau coordinate : R)
| NonPositivePressure (p coordinate : R).

Definition ExecMode_eq_dec (a b : ExecMode) : {a = b} + {a <> b}.
Proof. decide equality. Defined.

(** The position that a message prints. *)
Definition fatal_coordinate (d : Fatal) : R :=
  match d with
  | ReachedMaxIteration coordinate _ _ _ _ => coordinate
  | NonPositiveEnergy _ coordinate => coordinate
  | NonPositivePressure _ coordinate => coordinate
  end.

(** [conserved_to_primitive]: [inr prim] when the function returns with
    [prim] stored, [inl d] when it prints [d] and calls [exit(1)].  The
    checks are compiled in unless [EXEC_MODE] is [EXEC_GPU]. *)
Definition conserved_to_primitive
    (exec_mode : ExecMode) (cons prim : list R) (dv coordinate : R)
    : Fatal + list R :=
  let error_tolerance := 1e-12 * (cons.[0] + cons.[2]) / dv in
  let gm := ADIABATIC_GAMMA in
  let m := cons.[0] / dv in
  let tau := cons.[2] / dv in
  let ss := cons.[1] / dv * cons.[1] / dv in
  let x := newton_loop error_tolerance gm m tau ss newton_iter_max 0 prim.[2] in
  let iteration := exit_iteration x in
  let p := exit_p x in
  let f := exit_f x in
  let w0 := exit_w0 x in
  let prim := [ m / w0; w0 * cons.[1] / dv / (tau + m + p); p; cons.[3] / cons.[0] ] in
  let mach_ceiling := 1e6 in
  let u := prim.[1] in
  let e := prim.[2] / prim.[0] * 3.0 in
  let emin := u * u / (1.0 + u * u) / powi mach_ceiling 2 in
  let prim :=
    if Rlt_dec e emin
    then upd prim 2 (prim.[0] * emin * (ADIABATIC_GAMMA - 1.0))
    else prim in
  match exec_mode with
  | EXEC_GPU => inr prim
  | _ =>
      if (iteration =? newton_iter_max)%nat then
        inl (ReachedMaxIteration coordinate cons.[0] cons.[1] cons.[2] f)
      else if Rle_dec cons.[2] 0.0 then
        inl (NonPositiveEnergy cons.[2] coordinate)
      else if c_le prim.[2] 0.0 || c_ne prim.[2] prim.[2] then
        inl (NonPositivePressure prim.[2] coordinate)
      else inr prim
  end.

Definition primitive_to_flux (prim cons : list R) : list R :=
  let vn := primitive_to_beta_component prim in
  let pre := prim.[2] in
  let s := prim.[3] in
  [ vn * cons.[0];
    vn * cons.[1] + pre;
    vn * cons.[2] + pre * vn;
    vn * cons.[0] * s ].

Definition primitive_to_sound_speed_squared (prim : list R) : R :=
  let pre := prim.[2] in
  let rho_h := primitive_to_enthalpy_density prim in
  ADIABATIC_GAMMA * pre / rho_h.

Definition primitive_to_outer_wavespeeds (prim : list R) : list R :=
  let a2 := primitive_to_sound_speed_squared prim in
  let uu := primitive_to_gamma_beta_squared prim in
  let vn := primitive_to_beta_component prim in
  let vv := uu / (1.0 + uu) in
  let v2 := vn * vn in
  let k0 := sqrt (a2 * (1.0 - vv) * (1.0 - vv * a2 - v2 * (1.0 - a2))) in
  [ (vn * (1.0 - a2) - k0) / (1.0 - vv * a2);
    (vn * (1.0 - a2) + k0) / (1.0 - vv * a2) ].

Definition primitive_with_radial_boost (prim : list R) (beta : R) : list R :=
  let gw := 1.0 / sqrt (1.0 - beta * beta) in
  let u0 := primitive_to_lorentz_factor prim in
  let u1 := prim.[1] in
  [ prim.[0]; u1 * gw - u0 * gw * beta; prim.[2]; prim.[3] ].

Definition riemann_hlle (pl pr : list R) (v_face : R) : list R :=
  let ul := primitive_to_conserved pl 1.0 in
  let ur := primitive_to_conserved pr 1.0 in
  let fl := primitive_to_flux pl ul in
  let fr := primitive_to_flux pr ur in
  let al := primitive_to_outer_wavespeeds pl in
  let ar := primitive_to_outer_wavespeeds pr in
  let am := min2 al.[0] ar.[0] in
  let ap := max2 al.[1] ar.[1] in
  if Rlt_dec v_face am then
    tabulate NCONS (fun q => fl.[q] - v_face * ul.[q])
  else if Rgt_dec v_face ap then
    tabulate NCONS (fun q => fr.[q] - v_face * ur.[q])
  else
    tabulate NCONS
      (fun q =>
         let u_hll := (ur.[q] * ap - ul.[q] * am + (fl.[q] - fr.[q])) / (ap - am) in
         let f_hll := (fl.[q] * ap - fr.[q] * am - (ul.[q] - ur.[q]) * ap * am) / (ap - am) in
         f_hll - v_face * u_hll).

Definition riemann_hllc (pl pr : list R) (v_face : R) : list R :=
  let ul := primitive_to_conserved pl 1.0 in
  let ur := primitive_to_conserved pr 1.0 in
  let fl := primitive_to_flux pl ul in
  let fr := primitive_to_flux pr ur in
  let al := primitive_to_outer_wavespeeds pl in
  let ar := primitive_to_outer_wavespeeds pr in
  let am := min2 al.[0] ar.[0] in
  let ap := max2 al.[1] ar.[1] in
  if Rlt_dec v_face am then
    tabulate NCONS (fun q => fl.[q] - v_face * ul.[q])
  else if Rgt_dec v_face ap then
    tabulate NCONS (fun q => fr.[q] - v_face * ur.[q])
  else
    let u_hll :=
      tabulate NCONS
        (fun q => (ur.[q] * ap - ul.[q] * am + (fl.[q] - fr.[q])) / (ap - am)) in
    let f_hll :=
      tabulate NCONS
        (fun q => (fl.[q] * ap - fr.[q] * am - (ul.[q] - ur.[q]) * ap * am) / (ap - am)) in
    let a := f_hll.[2] + f_hll.[0] in
    let b := - (u_hll.[2] + u_hll.[0] + f_hll.[1]) in
    let c := u_hll.[1] in
    let v_star :=
      if Rlt_dec (fabs a) 1e-10
      then - c / b
      else (- b - sqrt (b * b - 4.0 * a * c)) / (2.0 * a) in
    let p_star := - a * v_star + f_hll.[1] in
    if Rlt_dec v_face v_star then
      let vl := primitive_to_beta_component pl in
      let D_star := ul.[0] * (am - vl) / (am - v_star) in
      let E_star := (am * (ul.[2] + ul.[0]) - ul.[1] + p_star * v_star) / (am - v_star) in
      let Sr_star := (E_star + p_star) * v_star in
      let tau_star := E_star - D_star in
      let s_star := ul.[3] * (am - vl) / (am - v_star) in
      [ D_star * v_star - v_face * D_star;
        Sr_star * v_star + p_star - v_face * Sr_star;
        Sr_star - D_star * v_star - v_face * tau_star;
        s_star * v_star - v_face * s_star ]
    else
      let vr := primitive_to_beta_component pr in
      let D_star := ur.[0] * (ap - vr) / (ap - v_star) in
      let E_star := (ap * (ur.[2] + ur.[0]) - ur.[1] + p_star * v_star) / (ap - v_star) in
      let Sr_star := (E_star + p_star) * v_star in
      let tau_star := E_star - D_star in
      let s_star := ur.[3] * (ap - vr) / (ap - v_star) in
      [ D_star * v_star - v_face * D_star;
        Sr_star * v_star + p_star - v_face * Sr_star;
        Sr_star - D_star * v_star - v_face * tau_star;
        s_star * v_star - v_face * s_star ].

Definition face_area (coords : Z) (x : R) : R :=
  match coords with
  | 0%Z => 1.0
  | 1%Z => x * x * NOMINAL_FOUR_PI
  | _ => 0.0
  end.

Definition cell_volume (coords : Z) (x0 x1 : R) : R :=
  match coords with
  | 0%Z => x1 - x0
  | 1%Z => (powi x1 3 - powi x0 3) * NOMINAL_FOUR_PI / 3.0
  | _ => 0.0
  end.

(** [&a[off]] read as an array of [NCONS] doubles. *)
Definition block (a : list R) (off : nat) : list R := firstn NCONS (skipn off a).

(** [p[0..NCONS-1] = v] through [p = &a[off]]. *)
Definition store_block (a : list R) (off : nat) (v : list R) : list R :=
  fold_left (fun a q => upd a (off + q) v.[q]) (seq 0 NCONS) a.

(** Modelled from the spec: the macro [FOR_EACH_1D] is defined outside the
    sources (section 5, a single iteration over the interior index space):
    [i] from [0] to [num_zones - 1]. *)
Definition FOR_EACH_1D {S : Type} (num_zones : nat) (body : nat -> S -> S) (s : S) : S :=
  fold_left (fun s i => body i s) (seq 0 num_zones) s.

(** Returns the contents of [conserved]. *)
Definition srhd_1d_primitive_to_conserved
    (num_zones : nat) (face_positions primitive conserved : list R)
    (scale_factor : R) (coords : Z) : list R :=
  FOR_EACH_1D num_zones
    (fun i conserved =>
       let p := block primitive (NCONS * i) in
       let yl := face_positions.[i] in
       let yr := face_positions.[i + 1] in
       let xl := yl * scale_factor in
       let xr := yr * scale_factor in
       let dv := cell_volume coords xl xr in
       store_block conserved (NCONS * i) (primitive_to_conserved p dv))
    conserved.

(** Returns the contents of [primitive], or the diagnostic of the first
    zone whose inversion calls [exit(1)]. *)
Definition srhd_1d_conserved_to_primitive
    (exec_mode : ExecMode)
    (num_zones : nat) (face_positions conserved primitive : list R)
    (scale_factor : R) (coords : Z) : Fatal + list R :=
  let ng := 2%nat in
  FOR_EACH_1D num_zones
    (fun i st =>
       match st with
       | inl d => inl d
       | inr primitive =>
           let p := block primitive (NCONS * (i + ng)) in
           let u := block conserved (NCONS * (i + ng)) in
           let yl := face_positions.[i] in
           let yr := face_positions.[i + 1] in
           let xl := yl * scale_factor in
           let xr := yr * scale_factor in
           let dv := cell_volume coords xl xr in
           match conserved_to_primitive exec_mode u p dv xl with
           | inl d => inl d
           | inr p' => inr (store_block primitive (NCONS * (i + ng)) p')
           end
       end)
    (inr primitive).

(** The value stored through [a] for zone [i]. *)
Definition max_wavespeeds_zone
    (face_positions primitive : list R) (adot : R) (i : nat) : R :=
  let ng := 2%nat in
  let p := block primitive ((i + ng) * NCONS) in
  let x0 := face_positions.[i] in
  let x1 := face_positions.[i + 1] in
  let p_boosted := primitive_with_radial_boost p (0.5 * (x0 + x1) * adot) in
  let ai := primitive_to_outer_wavespeeds p_boosted in
  let ai := primitive_to_outer_wavespeeds p in
  max2 (fabs ai.[0]) (fabs ai.[1]).

(** Returns the contents of [wavespeed]. *)
Definition srhd_1d_max_wavespeeds
    (num_zones : nat) (face_positions primitive wavespeed : list R) (adot : R) : list R :=
  FOR_EACH_1D num_zones
    (fun i wavespeed => upd wavespeed i (max_wavespeeds_zone face_positions primitive adot i))
    wavespeed.

(** Returns [source]. *)
Definition geometric_source_terms (coords : Z) (x0 x1 : R) (prim : list R) : list R :=
  match coords with
  | 1%Z =>
      let p := prim.[2] in
      [ 0.0; p * (x1 * x1 - x0 * x0) * NOMINAL_FOUR_PI; 0.0; 0.0 ]
  | _ => [ 0.0; 0.0; 0.0; 0.0 ]
  end.

(** *** [srhd_1d_advance_rk] *)

(** The locals [fli] and [fri] of the loop body for zone [i]: the fluxes
    through its left and right faces. *)
Definition face_fluxes
    (face_positions primitive_rd : list R) (adot : R) (i : nat) : list R * list R :=
  let ng := 2%nat in
  let yl := face_positions.[i] in
  let yr := face_positions.[i + 1] in
  let prd := block primitive_rd (NCONS * (i + ng)) in
  let pli := block primitive_rd (NCONS * (i + ng - 1)) in
  let pri := block primitive_rd (NCONS * (i + ng + 1)) in
  let pki := block primitive_rd (NCONS * (i + ng - 2)) in
  let pti := block primitive_rd (NCONS * (i + ng + 2)) in
  let gxli := plm_gradient pki pli prd in
  let gxcc := plm_gradient pli prd pri in
  let gxri := plm_gradient prd pri pti in
  let plim := tabulate NCONS (fun q => pli.[q] + 0.5 * gxli.[q]) in
  let plip := tabulate NCONS (fun q => prd.[q] - 0.5 * gxcc.[q]) in
  let prim := tabulate NCONS (fun q => prd.[q] + 0.5 * gxcc.[q]) in
  let prip := tabulate NCONS (fun q => pri.[q] - 0.5 * gxri.[q]) in
  let fli := riemann_hllc plim plip (yl * adot) in
  let fri := riemann_hllc prim prip (yr * adot) in
  (fli, fri).

(** The block stored through [uwr] by the loop body for a zone [i] that is
    not fixed. *)
Definition advance_rk_zone
    (face_positions conserved_rk primitive_rd conserved_rd : list R)
    (a0 adot time rk_param dt : R) (coords : Z) (i : nat) : list R :=
  let ng := 2%nat in
  let yl := face_positions.[i] in
  let yr := face_positions.[i + 1] in
  let xl := yl * (a0 + adot * time) in
  let xr := yr * (a0 + adot * time) in
  let urk := block conserved_rk (NCONS * (i + ng)) in
  let urd := block conserved_rd (NCONS * (i + ng)) in
  let prd := block primitive_rd (NCONS * (i + ng)) in
  let fli := fst (face_fluxes face_positions primitive_rd adot i) in
  let fri := snd (face_fluxes face_positions primitive_rd adot i) in
  let dal := face_area coords xl in
  let dar := face_area coords xr in
  let sources := geometric_source_terms coords xl xr prd in
  tabulate NCONS
    (fun q =>
       let uwr := urd.[q] + (fli.[q] * dal - fri.[q] * dar + sources.[q]) * dt in
       (1.0 - rk_param) * uwr + rk_param * urk.[q]).

(** [int fixed_zone = (fix_i0 && i == 0) || (fix_i1 && i == num_zones - 1)] *)
Definition fixed_zone (num_zones : nat) (fix_i0 fix_i1 : Z) (i : nat) : bool :=
  (negb (fix_i0 =? 0)%Z && (Z.of_nat i =? 0)%Z)
  || (negb (fix_i1 =? 0)%Z && (Z.of_nat i =? Z.of_nat num_zones - 1)%Z).

(** Returns the contents of [conserved_wr]. *)
Definition srhd_1d_advance_rk
    (num_zones : nat)
    (face_positions conserved_rk primitive_rd conserved_rd conserved_wr : list R)
    (a0 adot time rk_param dt : R) (fix_i0 fix_i1 : Z) (coords : Z) : list R :=
  let ng := 2%nat in
  FOR_EACH_1D num_zones
    (fun i conserved_wr =>
       if fixed_zone num_zones fix_i0 fix_i1 i then conserved_wr
       else
         store_block conserved_wr (NCONS * (i + ng))
           (advance_rk_zone face_positions conserved_rk primitive_rd conserved_rd
              a0 adot time rk_param dt coords i))
    conserved_wr.


End Srhd1d.

(** ** sailfish/solvers/cbdisodg_2d.c *)
Module Cbdisodg2d.
Import Math.

Definition ORDER : nat := 3.
Definition NCONS : nat := 3.
Definition NPOLY : nat := 6.

Record PointMass : Type := mkPointMass {
  pm_x : R;
  pm_y : R;
  pm_vx : R;
  pm_vy : R;
  pm_mass : R;
  softening_length : R;
  sink_rate : R;
  sink_radius : R;
  sink_model : Z
}.

(** [struct PointMassList]: [masses[0]] and [masses[1]]. *)
Definition PointMassList : Type := (PointMass * PointMass)%type.

Definition masses (mass_list : PointMassList) : list PointMass :=
  [fst mass_list; snd mass_list].

Record KeplerianBuffer : Type := mkKeplerianBuffer {
  surface_density : R;
  surface_pressure : R;
  central_mass : R;
  driving_rate : R;
  outer_radius : R;
  onset_width : R;
  is_enabled : Z
}.

Definition gravitational_potential (mass_list : PointMassList) (x1 y1 : R) : R :=
  fold_left
    (fun phi m =>
       if Rgt_dec (pm_mass m) 0.0 then
         let x0 := pm_x m in
         let y0 := pm_y m in
         let mp := pm_mass m in
         let rs := softening_length m in
         let dx := x1 - x0 in
         let dy := y1 - y0 in
         let r2 := dx * dx + dy * dy in
         let r2_softened := r2 + rs * rs in
         phi - mp / sqrt r2_softened
       else phi)
    (masses mass_list) 0.0.

(** Returns [delta_cons]. *)
Definition point_mass_source_term
    (mass : PointMass) (x1 y1 dt : R) (prim : list R) : list R :=
  let x0 := pm_x mass in
  let y0 := pm_y mass in
  let sigma := prim.[0] in
  let dx := x1 - x0 in
  let dy := y1 - y0 in
  let r2 := dx * dx + dy * dy in
  let dr := sqrt r2 in
  let r_sink := sink_radius mass in
  let r_soft := softening_length mass in
  let fgrav_numerator := sigma * pm_mass mass * powr (r2 + r_soft * r_soft) (-1.5) in
  let fx := - fgrav_numerator * dx in
  let fy := - fgrav_numerator * dy in
  let sink_rate :=
    if Rlt_dec dr (4.0 * r_sink)
    then sink_rate mass * exp (- powi (dr / r_sink) 4)
    else 0.0 in
  let mdot := sigma * sink_rate * -1.0 in
  match sink_model mass with
  | 1%Z =>
      [ dt * mdot;
        dt * mdot * prim.[1] + dt * fx;
        dt * mdot * prim.[2] + dt * fy ]
  | 2%Z =>
      let vx := prim.[1] in
      let vy := prim.[2] in
      let vx0 := pm_vx mass in
      let vy0 := pm_vy mass in
      let rhatx := dx / (dr + 1e-12) in
      let rhaty := dy / (dr + 1e-12) in
      let dvdotrhat := (vx - vx0) * rhatx + (vy - vy0) * rhaty in
      let vxstar := dvdotrhat * rhatx + vx0 in
      let vystar := dvdotrhat * rhaty + vy0 in
      [ dt * mdot;
        dt * mdot * vxstar + dt * fx;
        dt * mdot * vystar + dt * fy ]
  | 3%Z =>
      [ dt * mdot;
        dt * fx;
        dt * fy ]
  | _ => [0.0; 0.0; 0.0]
  end.

Definition point_masses_source_term
    (mass_list : PointMassList) (x1 y1 dt : R) (prim cons : list R) : list R :=
  fold_left
    (fun cons m =>
       let delta_cons := point_mass_source_term m x1 y1 dt prim in
       tabulate NCONS (fun q => cons.[q] + delta_cons.[q]))
    (masses mass_list) cons.

Definition sound_speed_squared
    (cs2 mach_squared : R) (eos_type : Z) (x y : R) (mass_list : PointMassList) : R :=
  match eos_type with
  | 1%Z => cs2
  | 2%Z => - gravitational_potential mass_list x y / mach_squared
  | _ => 1.0
  end.

(** Returns the updated [cons_dot]; [cons] is only read. *)
Definition buffer_source_term
    (buffer : KeplerianBuffer) (xc yc : R) (cons cons_dot : list R) : list R :=
  if (is_enabled buffer =? 0)%Z then cons_dot
  else
    let rc := sqrt (xc * xc + yc * yc) in
    let surface_density := surface_density buffer in
    let central_mass := central_mass buffer in
    let driving_rate := driving_rate buffer in
    let outer_radius := outer_radius buffer in
    let onset_width := onset_width buffer in
    let onset_radius := outer_radius - onset_width in
    if Rgt_dec rc onset_radius then
      let pf := surface_density * sqrt (central_mass / rc) in
      let px := pf * (- yc / rc) in
      let py := pf * (xc / rc) in
      let u0 := [surface_density; px; py] in
      let omega_outer := sqrt (central_mass * powi onset_radius (-3)) in
      let buffer_rate :=
        driving_rate * omega_outer * (rc - onset_radius) / (outer_radius - onset_radius) in
      tabulate NCONS (fun q => cons_dot.[q] - (cons.[q] - u0.[q]) * buffer_rate)
    else cons_dot.

Definition conserved_to_primitive (cons : list R) (velocity_ceiling : R) : list R :=
  let rho := cons.[0] in
  let px := cons.[1] in
  let py := cons.[2] in
  let vx := sign px * min2 (fabs (px / rho)) velocity_ceiling in
  let vy := sign py * min2 (fabs (py / rho)) velocity_ceiling in
  [rho; vx; vy].

Definition primitive_to_velocity (prim : list R) (direction : Z) : R :=
  match direction with
  | 0%Z => prim.[1]
  | 1%Z => prim.[2]
  | _ => 0.0
  end.

Definition primitive_to_flux (prim cons : list R) (cs2 : R) (direction : Z) : list R :=
  let vn := primitive_to_velocity prim direction in
  let rho := prim.[0] in
  let pressure := rho * cs2 in
  [ vn * cons.[0];
    vn * cons.[1] + pressure * b2r (direction =? 0)%Z;
    vn * cons.[2] + pressure * b2r (direction =? 1)%Z ].

Definition primitive_to_outer_wavespeeds (prim : list R) (cs2 : R) (direction : Z) : list R :=
  let cs := sqrt cs2 in
  let vn := primitive_to_velocity prim direction in
  [vn - cs; vn + cs].

Definition riemann_hlle
    (ul ur : list R) (cs2 velocity_ceiling : R) (direction : Z) : list R :=
  let pl := conserved_to_primitive ul velocity_ceiling in
  let pr := conserved_to_primitive ur velocity_ceiling in
  let fl := primitive_to_flux pl ul cs2 direction in
  let fr := primitive_to_flux pr ur cs2 direction in
  let al := primitive_to_outer_wavespeeds pl cs2 direction in
  let ar := primitive_to_outer_wavespeeds pr cs2 direction in
  let am := min3 0.0 al.[0] ar.[0] in
  let ap := max3 0.0 al.[1] ar.[1] in
  tabulate NCONS
    (fun q => (fl.[q] * ap - fr.[q] * am - (ul.[q] - ur.[q]) * ap * am) / (ap - am)).

(** *** [cbdisodg_2d_advance_rk] *)

(** Gaussian quadrature points in scaled domain xsi=[-1,1] *)
Definition g : list R := [-0.774596669241483; 0.000000000000000; 0.774596669241483].
(** Gaussian weights at quadrature points *)
Definition w : list R := [0.555555555555556; 0.888888888888889; 0.555555555555556].
(** Scaled Legendre polynomials at 1D quadrature points *)
Definition p : list (list R) :=
  [ [ 1.000000000000000; 1.000000000000000; 1.000000000000000];
    [-1.341640786499873; 0.000000000000000; 1.341640786499873];
    [ 0.894427190999914; -1.11803398874990; 0.894427190999914] ].
(** Derivative of scaled Legendre polynomials at 1D quadrature points *)
Definition pp : list (list R) :=
  [ [ 0.000000000000000; 0.000000000000000; 0.000000000000000];
    [ 1.732050807568877; 1.732050807568877; 1.732050807568877];
    [-5.196152422706629; 0.000000000000000; 5.196152422706629] ].
(** Scaled Legendre polynomials at left face *)
Definition pfl : list R := [1.000000000000000; -1.732050807568877; 2.23606797749979].
(** Scaled Legendre polynomials at right face *)
Definition pfr : list R := [1.000000000000000; 1.732050807568877; 2.23606797749979].
(** Unit normal vector at left and right faces *)
Definition nhat : list R := [-1.0; 1.0].

(** [t[m][i]] *)
Definition at2 (t : list (list R)) (m i : nat) : R := (nth m t []).[i].

(** The pairs [(m, n)] in the order in which
    [for m < 3, for n < 3, if ((n + m) < 3)] visits them; [il] is the
    position in this list. *)
Definition poly_pairs : list (nat * nat) :=
  flat_map
    (fun m => flat_map (fun n => if (n + m <? 3)%nat then [(m, n)] else []) (seq 0 3))
    (seq 0 3).

(** [out[NPOLY * q + l] = e q l] for [q < NCONS], [l < NPOLY]. *)
Definition tabulate2 (e : nat -> nat -> R) : list R :=
  flat_map (fun q => map (fun l => e q l) (seq 0 NPOLY)) (seq 0 NCONS).

(** [s = 0.0; for (l < NPOLY) s += u[NPOLY * q + l] * phi[l]] *)
Definition modal_sum (u : list R) (q : nat) (phi : list R) : R :=
  fold_left (fun s l => s + u.[NPOLY * q + l] * phi.[l]) (seq 0 NPOLY) 0.0.

(** [&a[off]] *)
Definition ptr (a : list R) (off : Z) : list R := skipn (Z.to_nat off) a.

(** The parameters of a call that the zone loop only reads. *)
Record Params : Type := mkParams {
  par_mass_list : PointMassList;
  par_cs2 : R;
  par_mach_squared : R;
  par_eos_type : Z;
  par_rk_param : R;
  par_dt : R;
  par_velocity_ceiling : R
}.

(** The array [volume_term] of a zone after the loop over the 3 x 3
    quadrature points. *)
Definition volume_term (P : Params) (xc yc dx dy : R) (ucc : list R) : list R :=
  fold_left
    (fun volume_term ic =>
       fold_left
         (fun volume_term jc =>
            let xp := xc + 0.5 * g.[ic] * dx in
            let yp := yc + 0.5 * g.[jc] * dy in
            let cs2p :=
              sound_speed_squared (par_cs2 P) (par_mach_squared P) (par_eos_type P)
                xp yp (par_mass_list P) in
            let phi := map (fun mn => at2 p (fst mn) ic * at2 p (snd mn) jc) poly_pairs in
            let dphidx := map (fun mn => at2 pp (fst mn) ic * at2 p (snd mn) jc) poly_pairs in
            let dphidy := map (fun mn => at2 p (fst mn) ic * at2 pp (snd mn) jc) poly_pairs in
            let uij := tabulate NCONS (fun q => modal_sum ucc q phi) in
            let pij := conserved_to_primitive uij (par_velocity_ceiling P) in
            let flux_x := primitive_to_flux pij uij cs2p 0 in
            let flux_y := primitive_to_flux pij uij cs2p 1 in
            tabulate2
              (fun q l =>
                 volume_term.[NPOLY * q + l]
                 + w.[ic] * w.[jc]
                   * (flux_x.[q] * dphidx.[l] * dx + flux_y.[q] * dphidy.[l] * dy)))
         (seq 0 3) volume_term)
    (seq 0 3) (tabulate2 (fun _ _ => 0.0)).

(** One of the four face loops: [minus] and [plus] are the weights on the
    two sides of the face, [own_right] tells whether this zone is the minus
    side (right and top faces), [(xf, yf)] gives the node of index [k],
    [side] is the index into [nhat], [len] the factor [dx] or [dy]. *)
Definition face_loop
    (P : Params) (node : nat -> R * R) (minus plus : list R) (own_right : bool)
    (side : nat) (direction : Z) (len : R) (surface_term : list R) : list R :=
  fold_left
    (fun surface_term k =>
       let cs2p :=
         sound_speed_squared (par_cs2 P) (par_mach_squared P) (par_eos_type P)
           (fst (node k)) (snd (node k)) (par_mass_list P) in
       let phil := map (fun mn => pfl.[fst mn] * at2 p (snd mn) k) poly_pairs in
       let phir := map (fun mn => pfr.[fst mn] * at2 p (snd mn) k) poly_pairs in
       let um := tabulate NCONS (fun q => modal_sum minus q phir) in
       let up := tabulate NCONS (fun q => modal_sum plus q phil) in
       let flux := riemann_hlle um up cs2p (par_velocity_ceiling P) direction in
       let phi_own := if own_right then phir else phil in
       tabulate2
         (fun q l =>
            surface_term.[NPOLY * q + l]
            - flux.[q] * nhat.[side] * phi_own.[l] * w.[k] * len))
    (seq 0 3) surface_term.

(** The array [surface_term] of a zone after the left, right, bottom and
    top face loops, in this order. *)
Definition surface_term
    (P : Params) (xl xc xr yl yc yr dx dy : R) (ucc uli uri ulj urj : list R) : list R :=
  let s := tabulate2 (fun _ _ => 0.0) in
  let s := face_loop P (fun jp => (xl, yc + 0.5 * g.[jp] * dy)) uli ucc false 0 0 dx s in
  let s := face_loop P (fun jp => (xr, yc + 0.5 * g.[jp] * dy)) ucc uri true 1 0 dx s in
  let s := face_loop P (fun ip => (xc + 0.5 * g.[ip] * dx, yl)) ulj ucc false 0 1 dy s in
  let s := face_loop P (fun ip => (xc + 0.5 * g.[ip] * dx, yr)) ucc urj true 1 1 dy s in
  s.

(** [dx] and [dy] of [cbdisodg_2d_advance_rk]. *)
Definition cell_dx (ni : nat) (patch_xl patch_xr : R) : R := (patch_xr - patch_xl) / INR ni.
Definition cell_dy (nj : nat) (patch_yl patch_yr : R) : R := (patch_yr - patch_yl) / INR nj.

(** The offset [(i + ng) * si + (j + ng) * sj] of the block of zone [(i, j)]
    in an array of shape [(ni + 2, nj + 2, NCONS, NPOLY)]: [ncc] at [(i, j)],
    [nli] at [(i - 1, j)], [nri] at [(i + 1, j)], [nlj] at [(i, j - 1)] and
    [nrj] at [(i, j + 1)]. *)
Definition zone_offset (nj : nat) (i j : Z) : Z :=
  let ng := 1%Z in
  let si := (Z.of_nat NCONS * Z.of_nat NPOLY * (Z.of_nat nj + 2 * ng))%Z in
  let sj := (Z.of_nat NCONS * Z.of_nat NPOLY)%Z in
  ((i + ng) * si + (j + ng) * sj)%Z.

(** The local array [volume_term] of zone [(i, j)] when the update loop is
    reached. *)
Definition zone_volume_term
    (P : Params) (ni nj : nat) (patch_xl patch_xr patch_yl patch_yr : R)
    (weights1 : list R) (i j : nat) : list R :=
  let dx := cell_dx ni patch_xl patch_xr in
  let dy := cell_dy nj patch_yl patch_yr in
  let xc := patch_xl + (INR i + 0.5) * dx in
  let yc := patch_yl + (INR j + 0.5) * dy in
  let ncc := zone_offset nj (Z.of_nat i) (Z.of_nat j) in
  let ucc := ptr weights1 ncc in
  volume_term P xc yc dx dy ucc.

(** The local array [surface_term] of zone [(i, j)] when the update loop is
    reached. *)
Definition zone_surface_term
    (P : Params) (ni nj : nat) (patch_xl patch_xr patch_yl patch_yr : R)
    (weights1 : list R) (i j : nat) : list R :=
  let dx := cell_dx ni patch_xl patch_xr in
  let dy := cell_dy nj patch_yl patch_yr in
  let xl := patch_xl + (INR i + 0.0) * dx in
  let xc := patch_xl + (INR i + 0.5) * dx in
  let xr := patch_xl + (INR i + 1.0) * dx in
  let yl := patch_yl + (INR j + 0.0) * dy in
  let yc := patch_yl + (INR j + 0.5) * dy in
  let yr := patch_yl + (INR j + 1.0) * dy in
  let ncc := zone_offset nj (Z.of_nat i) (Z.of_nat j) in
  let nli := zone_offset nj (Z.of_nat i - 1) (Z.of_nat j) in
  let nri := zone_offset nj (Z.of_nat i + 1) (Z.of_nat j) in
  let nlj := zone_offset nj (Z.of_nat i) (Z.of_nat j - 1) in
  let nrj := zone_offset nj (Z.of_nat i) (Z.of_nat j + 1) in
  let ucc := ptr weights1 ncc in
  let uli := ptr weights1 nli in
  let uri := ptr weights1 nri in
  let ulj := ptr weights1 nlj in
  let urj := ptr weights1 nrj in
  surface_term P xl xc xr yl yc yr dx dy ucc uli uri ulj urj.

(** The body of [FOR_EACH_2D] for zone [(i, j)]: the two arrays above, then
    the update loop [for (q < NCONS) for (l < 1)].  Returns the contents of
    [weights2]. *)
Definition advance_rk_zone
    (P : Params) (ni nj : nat) (patch_xl patch_xr patch_yl patch_yr : R)
    (weights0 weights1 weights2 : list R) (i j : nat) : list R :=
  let dx := cell_dx ni patch_xl patch_xr in
  let dy := cell_dy nj patch_yl patch_yr in
  let ncc := zone_offset nj (Z.of_nat i) (Z.of_nat j) in
  let surface_term :=
    zone_surface_term P ni nj patch_xl patch_xr patch_yl patch_yr weights1 i j in
  let volume_term :=
    zone_volume_term P ni nj patch_xl patch_xr patch_yl patch_yr weights1 i j in
  let w0 := ptr weights0 ncc in
  let w1 := ptr weights1 ncc in
  fold_left
    (fun weights2 q =>
       fold_left
         (fun weights2 l =>
            let n := (NPOLY * q + l)%nat in
            let w2n :=
              w1.[n] + 0.5 * (surface_term.[n] + volume_term.[n])
                       * par_dt P / (dx * dy) in
            let w2n := (1.0 - par_rk_param P) * w2n + par_rk_param P * w0.[n] in
            upd weights2 (Z.to_nat ncc + n) w2n)
         (seq 0 1) weights2)
    (seq 0 NCONS) weights2.

(** Modelled from the spec: the macro [FOR_EACH_2D] is defined outside the
    sources (section 5, a single iteration over the interior index space).
    [FOR_EACH_2D(ni, nj)]: [i] from [0] to [ni - 1], and for each [i], [j]
    from [0] to [nj - 1]. *)
Definition FOR_EACH_2D {S : Type} (ni nj : nat) (body : nat -> nat -> S -> S) (s : S) : S :=
  fold_left (fun s i => fold_left (fun s j => body i j s) (seq 0 nj) s) (seq 0 ni) s.

(** Returns the contents of [weights2].  The buffer arguments, the
    viscosity [nu] and the velocities of the masses are accepted and not
    used by the body: its calls of [buffer_source_term] and
    [point_masses_source_term] are commented out. *)
Definition cbdisodg_2d_advance_rk
    (ni nj : nat) (patch_xl patch_xr patch_yl patch_yr : R)
    (weights0 weights1 weights2 : list R)
    (buffer_surface_density buffer_central_mass buffer_driving_rate
     buffer_outer_radius buffer_onset_width : R) (buffer_is_enabled : Z)
    (m1 m2 : PointMass)
    (cs2 mach_squared : R) (eos_type : Z)
    (nu rk_param dt velocity_ceiling : R) : list R :=
  let mass_list := (m1, m2) in
  let P := mkParams mass_list cs2 mach_squared eos_type rk_param dt velocity_ceiling in
  FOR_EACH_2D ni nj
    (fun i j weights2 =>
       advance_rk_zone P ni nj patch_xl patch_xr patch_yl patch_yr
         weights0 weights1 weights2 i j)
    weights2.

(** The index [ncc + NPOLY * q + l] of the weight [l] of component [q] of
    zone [(i, j)]. *)
Definition weight_index (nj i j q l : nat) : nat :=
  (Z.to_nat (zone_offset nj (Z.of_nat i) (Z.of_nat j)) + (NPOLY * q + l))%nat.

(** The value that the update loop stores in the cell-average weight of
    component [q] of zone [(i, j)]. *)
Definition stored_weight
    (P : Params) (ni nj : nat) (patch_xl patch_xr patch_yl patch_yr : R)
    (weights0 weights1 : list R) (i j q : nat) : R :=
  let n := weight_index nj i j q 0 in
  let s := (zone_surface_term P ni nj patch_xl patch_xr patch_yl patch_yr weights1 i j)
             .[NPOLY * q] in
  let v := (zone_volume_term P ni nj patch_xl patch_xr patch_yl patch_yr weights1 i j)
             .[NPOLY * q] in
  (1 - par_rk_param P)
  * (weights1.[n]
     + 0.5 * (s + v) * par_dt P
       / (cell_dx ni patch_xl patch_xr * cell_dy nj patch_yl patch_yr))
  + par_rk_param P * weights0.[n].

(** *** The other entry points *)

Definition primitive_max_wavespeed (prim : list R) (cs2 : R) : R :=
  let cs := sqrt cs2 in
  let vx := prim.[1] in
  let vy := prim.[2] in
  let ax := max2 (fabs (vx - cs)) (fabs (vx + cs)) in
  let ay := max2 (fabs (vy - cs)) (fabs (vy + cs)) in
  max2 ax ay.

(** The index [na] of zone [(i, j)] in an array of shape [(ni + 2, nj + 2)]. *)
Definition wavespeed_index (nj : nat) (i j : Z) : Z :=
  let ng := 1%Z in
  let ti := (Z.of_nat nj + 2 * ng)%Z in
  let tj := 1%Z in
  ((i + ng) * ti + (j + ng) * tj)%Z.

(** The value [a] of the loop body for zone [(i, j)]. *)
Definition wavespeed_zone
    (ni nj : nat) (patch_xl patch_xr patch_yl patch_yr soundspeed2 mach_squared : R)
    (eos_type : Z) (mass_list : PointMassList) (velocity_ceiling : R)
    (weights : list R) (i j : nat) : R :=
  let dx := (patch_xr - patch_xl) / INR ni in
  let dy := (patch_yr - patch_yl) / INR nj in
  let np := zone_offset nj (Z.of_nat i) (Z.of_nat j) in
  let x := patch_xl + (INR i + 0.5) * dx in
  let y := patch_yl + (INR j + 0.5) * dy in
  let ucc := ptr weights np in
  let uij := tabulate NCONS (fun q => ucc.[NPOLY * q + 0]) in
  let pij := conserved_to_primitive uij velocity_ceiling in
  let cs2 := sound_speed_squared soundspeed2 mach_squared eos_type x y mass_list in
  primitive_max_wavespeed pij cs2.

(** Returns the contents of [wavespeed]. *)
Definition cbdisodg_2d_wavespeed
    (ni nj : nat) (patch_xl patch_xr patch_yl patch_yr soundspeed2 mach_squared : R)
    (eos_type : Z) (m1 m2 : PointMass) (velocity_ceiling : R)
    (weights wavespeed : list R) : list R :=
  let mass_list := (m1, m2) in
  FOR_EACH_2D ni nj
    (fun i j wavespeed =>
       let na := wavespeed_index nj (Z.of_nat i) (Z.of_nat j) in
       let a :=
         wavespeed_zone ni nj patch_xl patch_xr patch_yl patch_yr soundspeed2 mach_squared
           eos_type mass_list velocity_ceiling weights i j in
       upd wavespeed (Z.to_nat na) a)
    wavespeed.

(** [mass_list.masses[which_mass - 1]]; the array has two elements. *)
Definition selected_mass (mass_list : PointMassList) (which_mass : Z) : option PointMass :=
  match which_mass with
  | 1%Z => Some (fst mass_list)
  | 2%Z => Some (snd mass_list)
  | _ => None
  end.

(** The array [u_dot_sum] of a zone after the loop over the 3 x 3 quadrature
    points. *)
Definition u_dot_sum
    (mass : PointMass) (xc yc dx dy velocity_ceiling : R) (ucc : list R) : list R :=
  fold_left
    (fun u_dot_sum ic =>
       fold_left
         (fun u_dot_sum jc =>
            let xp := xc + 0.5 * g.[ic] * dx in
            let yp := yc + 0.5 * g.[jc] * dy in
            let phi := map (fun mn => at2 p (fst mn) ic * at2 p (snd mn) jc) poly_pairs in
            let uij := tabulate NCONS (fun q => modal_sum ucc q phi) in
            let pij := conserved_to_primitive uij velocity_ceiling in
            let u_dot := point_mass_source_term mass xp yp 1.0 pij in
            tabulate NCONS (fun q => u_dot_sum.[q] + w.[ic] * w.[jc] * u_dot.[q]))
         (seq 0 3) u_dot_sum)
    (seq 0 3) (tabulate NCONS (fun _ => 0.0)).

(** The index [ncc + q] at which the loop body stores component [q] of the
    rate of zone [(i, j)]: [udot] is [&cons_rate[ncc]], with the offset
    [ncc] of the zone in the array of weights. *)
Definition rate_index (nj i j q : nat) : nat :=
  (Z.to_nat (zone_offset nj (Z.of_nat i) (Z.of_nat j)) + q)%nat.

(** Returns the contents of [cons_rate], or [None] when [which_mass] is
    neither 1 nor 2 and the body reads past [mass_list.masses]. *)
Definition cbdisodg_2d_point_mass_source_term
    (ni nj : nat) (patch_xl patch_xr patch_yl patch_yr : R)
    (m1 m2 : PointMass) (velocity_ceiling : R) (which_mass : Z)
    (weights cons_rate : list R) : option (list R) :=
  let mass_list := (m1, m2) in
  let dx := (patch_xr - patch_xl) / INR ni in
  let dy := (patch_yr - patch_yl) / INR nj in
  match selected_mass mass_list which_mass with
  | None => None
  | Some mass =>
      Some
        (FOR_EACH_2D ni nj
           (fun i j cons_rate =>
              let ncc := zone_offset nj (Z.of_nat i) (Z.of_nat j) in
              let ucc := ptr weights ncc in
              let xc := patch_xl + (INR i + 0.5) * dx in
              let yc := patch_yl + (INR j + 0.5) * dy in
              let u_dot_sum := u_dot_sum mass xc yc dx dy velocity_ceiling ucc in
              fold_left
                (fun cons_rate q => upd cons_rate (rate_index nj i j q) u_dot_sum.[q])
                (seq 0 NCONS) cons_rate)
           cons_rate)
  end.


End Cbdisodg2d.

(** ** Inputs of the examples *)
Module Scenario.

(** The weights of a zone in a constant state: [sigma] in the cell-average
    weight of the density, zero momentum, no higher mode. *)
Definition cell (sigma : R) : list R :=
  [sigma; 0; 0; 0; 0; 0; 0; 0; 0; 0; 0; 0; 0; 0; 0; 0; 0; 0].

(** The weights of a 1 x 1 patch with its guard zones, in the order of the
    array ((i, j) = (-1, -1), (-1, 0), (-1, 1), (0, -1), ...): unit density
    everywhere except density 3 in the guard zone to the left of the zone. *)
Definition jump : list R :=
  cell 1 ++ cell 3 ++ cell 1 ++ cell 1 ++ cell 1 ++ cell 1 ++ cell 1 ++ cell 1 ++ cell 1.

(** A point mass that is switched off. *)
Definition no_mass : Cbdisodg2d.PointMass := Cbdisodg2d.mkPointMass 0 0 0 0 0 0 0 0 0.

(** Isothermal with unit sound speed, unit velocity ceiling, a forward
    Euler stage ([rk_param = 0]) of unit time step. *)
Definition params : Cbdisodg2d.Params :=
  Cbdisodg2d.mkParams (no_mass, no_mass) 1 1 1 0 1 1.

End Scenario.

(** ** The formulas of the specification, written from its words *)
Module Spec.

(** Section 4.1: [a = theta (y0 - yl)], [b = (yr - yl) / 2],
    [c = theta (yr - y0)], and the returned
    [0.25 |sign a + sign b| (sign a + sign c) min(|a|, |b|, |c|)]. *)
Definition plm_formula (theta yl y0 yr : R) : R :=
  let a := theta * (y0 - yl) in
  let b := (yr - yl) / 2 in
  let c := theta * (yr - y0) in
  0.25 * Rabs (Math.sign a + Math.sign b) * (Math.sign a + Math.sign c)
  * Rmin (Rabs a) (Rmin (Rabs b) (Rabs c)).

(** The minmod of three candidates: the one of least magnitude when all
    three have one strict sign, and [0] otherwise. *)
Definition minmod3 (a b c : R) : R :=
  if Rlt_dec 0 a then
    if Rlt_dec 0 b then if Rlt_dec 0 c then Rmin a (Rmin b c) else 0 else 0
  else if Rlt_dec a 0 then
    if Rlt_dec b 0 then if Rlt_dec c 0 then Rmax a (Rmax b c) else 0 else 0
  else 0.

(** Section 4.4: the acceleration magnitude
    [g = Sigma M (r^2 + r_s^2)^(-3/2)] and the force [-g (dx, dy)]. *)
Definition gravity_force (sigma M r_s dx dy : R) : R * R :=
  let g := sigma * M * Rpower (dx * dx + dy * dy + r_s * r_s) (-1.5) in
  (- g * dx, - g * dy).

(** Section 4.4, torque-free sink: the fluid velocity relative to the mass,
    projected on the direction [(rhatx, rhaty)], in the frame of the grid. *)
Definition radial_velocity (vx vy vx0 vy0 rhatx rhaty : R) : R * R :=
  let dvdotrhat := (vx - vx0) * rhatx + (vy - vy0) * rhaty in
  (dvdotrhat * rhatx + vx0, dvdotrhat * rhaty + vy0).

(** Section 4.5: [omega_outer = sqrt (M_c / r_onset^3)]. *)
Definition omega_outer (M_c r_onset : R) : R := sqrt (M_c / (r_onset * r_onset * r_onset)).

(** Section 4.5: the ramp, linear in [(r - r_onset) / (r_outer - r_onset)]. *)
Definition linear_ramp (r r_onset r_outer : R) : R := (r - r_onset) / (r_outer - r_onset).

(** Section 4.5: the momentum part of the circular-Keplerian reference,
    [p_f (-y / r, x / r)] with [p_f = Sigma_b sqrt (M_c / r)]. *)
Definition keplerian_momentum (sigma_b M_c xc yc : R) : R * R :=
  let r := sqrt (xc * xc + yc * yc) in
  let p_f := sigma_b * sqrt (M_c / r) in
  (p_f * (- yc / r), p_f * (xc / r)).

(** Section 4.5: one component of [U <- U - (U - U0) rate dt]. *)
Definition relax (u u0 rate dt : R) : R := u - (u - u0) * rate * dt.

(** Section 4.3, HLLC: the contact speed, the minus-root of
    [a v^2 + b v + c = 0], or [- c / b] when [|a| < 1e-10]. *)
Definition hllc_contact_speed (a b c : R) : R :=
  if Rlt_dec (Rabs a) 1e-10
  then - c / b
  else (- b - sqrt (b * b - 4 * a * c)) / (2 * a).

(** Section 4.3, HLLC: the star state behind the outer wave of speed [lam],
    from the state [u = (D, S, tau, D s)] of velocity [v] on that side by the
    jump conditions, and its flux through a face moving at [v_face]. *)
Definition hllc_star_flux (u : list R) (v lam v_star p_star v_face : R) : list R :=
  let D_star := u.[0] * (lam - v) / (lam - v_star) in
  let E_star := (lam * (u.[2] + u.[0]) - u.[1] + p_star * v_star) / (lam - v_star) in
  let Sr_star := (E_star + p_star) * v_star in
  let tau_star := E_star - D_star in
  let s_star := u.[3] * (lam - v) / (lam - v_star) in
  [ D_star * v_star - v_face * D_star;
    Sr_star * v_star + p_star - v_face * Sr_star;
    Sr_star - D_star * v_star - v_face * tau_star;
    s_star * v_star - v_face * s_star ].

(** Section 4.2, SRHD inverse: one Newton step on the pressure [p] for the
    volume-specific [D], [tau] and [S^2]; returns the residual [f], the
    updated pressure [p - f / g] and [W]. *)
Definition newton_step (gamma D tau S2 p : R) : R * R * R :=
  let beta2 := Rmin (S2 / ((tau + p + D) * (tau + p + D))) (1 - 1e-10) in
  let W2 := 1 / (1 - beta2) in
  let W := sqrt W2 in
  let rho := D / W in
  let eps := (tau + D * (1 - W) + p * (1 - W2)) / (D * W) in
  let h := 1 + eps + p / rho in
  let a2 := gamma * p / (rho * h) in
  let f := rho * eps * (gamma - 1) - p in
  let g := beta2 * a2 - 1 in
  (f, p - f / g, W).

(** The pressure with which step [k] of the iteration is entered, from the
    initial guess [p0]. *)
Fixpoint newton_pressure (gamma D tau S2 p0 : R) (k : nat) : R :=
  match k with
  | O => p0
  | S k' => snd (fst (newton_step gamma D tau S2 (newton_pressure gamma D tau S2 p0 k')))
  end.

(** The residual [f] of step [k]. *)
Definition newton_residual (gamma D tau S2 p0 : R) (k : nat) : R :=
  fst (fst (newton_step gamma D tau S2 (newton_pressure gamma D tau S2 p0 k))).

(** Section 4.11, update: [w_new = w_old + (surface + volume) dt / (dx dy)],
    then the combination [(1 - rk_param) w_new + rk_param w_rk] of section
    4.9 with the checkpointed weight. *)
Definition dg_update (w_old surface volume dt dx dy rk_param w_rk : R) : R :=
  (1 - rk_param) * (w_old + (surface + volume) * dt / (dx * dy)) + rk_param * w_rk.


End Spec.

(** Decimal literals as quotients of integers, for [field]. *)
Ltac dec :=
  cbv [Q2R QArith_base.Qnum QArith_base.Qden] in *;
  repeat match goal with
    | |- context [Z.pow_pos ?a ?b] =>
        let v := eval vm_compute in (Z.pow_pos a b) in change (Z.pow_pos a b) with v
    | H : context [Z.pow_pos ?a ?b] |- _ =>
        let v := eval vm_compute in (Z.pow_pos a b) in change (Z.pow_pos a b) with v in H
    end.

(** * Properties *)

(** ** The macros *)

Lemma min2_Rmin (a b : R) : Math.min2 a b = Rmin a b.
Proof.
  unfold Math.min2, Rmin.
  destruct (Rlt_dec a b), (Rle_dec a b); lra.
Qed.

Lemma max2_Rmax (a b : R) : Math.max2 a b = Rmax a b.
Proof.
  unfold Math.max2, Rmax.
  destruct (Rgt_dec a b), (Rle_dec a b); lra.
Qed.

Lemma min2_le_l (a b : R) : Math.min2 a b <= a.
Proof. rewrite min2_Rmin. apply Rmin_l. Qed.

Lemma min2_le_r (a b : R) : Math.min2 a b <= b.
Proof. rewrite min2_Rmin. apply Rmin_r. Qed.

Lemma max2_ge_l (a b : R) : a <= Math.max2 a b.
Proof. rewrite max2_Rmax. apply Rmax_l. Qed.

Lemma max2_ge_r (a b : R) : b <= Math.max2 a b.
Proof. rewrite max2_Rmax. apply Rmax_r. Qed.

Create HintDb macros.
#[local] Hint Resolve min2_le_l min2_le_r max2_ge_l max2_ge_r : macros.

Lemma sign_nonneg (x : R) : 0 <= x -> Math.sign x = 1.
Proof. intros H. unfold Math.sign. destruct (Rlt_dec x 0); lra. Qed.

Lemma sign_neg (x : R) : x < 0 -> Math.sign x = -1.
Proof. intros H. unfold Math.sign. destruct (Rlt_dec x 0); lra. Qed.

Lemma sign_cases (x : R) : Math.sign x = 1 \/ Math.sign x = -1.
Proof. unfold Math.sign. destruct (Rlt_dec x 0); auto. Qed.

Lemma minabs_nonneg (a b c : R) : 0 <= Math.minabs a b c.
Proof.
  unfold Math.minabs, Math.min3, Math.fabs.
  rewrite !min2_Rmin.
  repeat apply Rmin_glb; apply Rabs_pos.
Qed.

(** ** The slope limiter *)

(** The limiter body with the steepness as a parameter, and its value in
    terms of the formula of the specification. *)
Lemma plm_body_formula (theta yl y0 yr : R) :
  (let a := (y0 - yl) * theta in
   let b := (yr - yl) * 0.5 in
   let c := (yr - y0) * theta in
   0.25 * Math.fabs (Math.sign a + Math.sign b) * (Math.sign a + Math.sign c)
   * Math.minabs a b c)
  = Spec.plm_formula theta yl y0 yr.
Proof.
  unfold Spec.plm_formula, Math.minabs, Math.min3, Math.fabs. cbv zeta.
  rewrite !min2_Rmin.
  replace ((y0 - yl) * theta) with (theta * (y0 - yl)) by ring.
  replace ((yr - y0) * theta) with (theta * (yr - y0)) by ring.
  replace ((yr - yl) * 0.5) with ((yr - yl) / 2) by lra.
  reflexivity.
Qed.

Lemma plm_formula_flat (theta y : R) : Spec.plm_formula theta y y y = 0.
Proof.
  unfold Spec.plm_formula. cbv zeta.
  replace (theta * (y - y)) with 0 by ring.
  replace ((y - y) / 2) with 0 by lra.
  rewrite Rabs_R0. unfold Rmin. destruct (Rle_dec 0 0); destruct (Rle_dec 0 _); lra.
Qed.

(** Signs that disagree give zero. *)
Lemma plm_formula_sign_mismatch (theta yl y0 yr : R) :
  ~ (Math.sign (theta * (y0 - yl)) = Math.sign ((yr - yl) / 2)
     /\ Math.sign (theta * (y0 - yl)) = Math.sign (theta * (yr - y0))) ->
  Spec.plm_formula theta yl y0 yr = 0.
Proof.
  intros H. unfold Spec.plm_formula. cbv zeta.
  destruct (sign_cases (theta * (y0 - yl))) as [Ha | Ha],
           (sign_cases ((yr - yl) / 2)) as [Hb | Hb],
           (sign_cases (theta * (yr - y0))) as [Hc | Hc];
    rewrite Ha, Hb, Hc in *;
    try (exfalso; apply H; split; reflexivity).
  all: try (replace (1 + -1) with 0 by ring);
       try (replace (-1 + 1) with 0 by ring);
       try rewrite Rabs_R0; ring.
Qed.

(** A local extremum ([y0] not between its neighbours, or equal to one of
    them) gives zero, for a positive steepness. *)
Lemma plm_formula_extremum (theta yl y0 yr : R) :
  0 < theta -> (y0 - yl) * (yr - y0) <= 0 ->
  Spec.plm_formula theta yl y0 yr = 0.
Proof.
  intros Ht H.
  destruct (Rlt_dec (y0 - yl) 0) as [Ha | Ha].
  - (* a < 0, so c >= 0: the outer signs differ *)
    apply plm_formula_sign_mismatch. intros [_ Hac].
    rewrite sign_neg in Hac by nra.
    rewrite sign_nonneg in Hac by nra. lra.
  - destruct (Rlt_dec 0 (y0 - yl)) as [Ha' | Ha'].
    + (* a > 0, so c <= 0 *)
      destruct (Rlt_dec (yr - y0) 0) as [Hc | Hc].
      * apply plm_formula_sign_mismatch. intros [_ Hac].
        rewrite sign_nonneg in Hac by nra.
        rewrite sign_neg in Hac by nra. lra.
      * assert (yr - y0 = 0) by nra.
        unfold Spec.plm_formula. cbv zeta.
        replace (theta * (yr - y0)) with 0 by nra.
        rewrite Rabs_R0.
        assert (Hm : Rmin (Rabs (theta * (y0 - yl))) (Rmin (Rabs ((yr - yl) / 2)) 0) = 0).
        { pose proof (Rabs_pos (theta * (y0 - yl))). pose proof (Rabs_pos ((yr - yl) / 2)).
          unfold Rmin. repeat destruct (Rle_dec _ _); lra. }
        rewrite Hm. ring.
    + assert (y0 - yl = 0) by lra.
      unfold Spec.plm_formula. cbv zeta.
      replace (theta * (y0 - yl)) with 0 by nra.
      rewrite Rabs_R0.
      assert (Hm : Rmin 0 (Rmin (Rabs ((yr - yl) / 2)) (Rabs (theta * (yr - y0)))) = 0).
      { pose proof (Rabs_pos (theta * (yr - y0))). pose proof (Rabs_pos ((yr - yl) / 2)).
        unfold Rmin. repeat destruct (Rle_dec _ _); lra. }
      rewrite Hm. ring.
Qed.

(** On strictly monotone data the limiter is the minmod of the three
    candidates. *)
Lemma plm_formula_monotone (theta yl y0 yr : R) :
  0 < theta -> 0 < (y0 - yl) * (yr - y0) ->
  Spec.plm_formula theta yl y0 yr
  = Spec.minmod3 (theta * (y0 - yl)) ((yr - yl) / 2) (theta * (yr - y0)).
Proof.
  intros Ht H.
  unfold Spec.plm_formula, Spec.minmod3. cbv zeta.
  destruct (Rlt_dec 0 (y0 - yl)) as [Ha | Ha].
  - assert (0 < yr - y0) by nra.
    assert (0 < theta * (y0 - yl)) by nra.
    assert (0 < theta * (yr - y0)) by nra.
    assert (0 < (yr - yl) / 2) by lra.
    rewrite !sign_nonneg by lra.
    rewrite !Rabs_pos_eq by lra.
    destruct (Rlt_dec 0 (theta * (y0 - yl))); [| lra].
    destruct (Rlt_dec 0 ((yr - yl) / 2)); [| lra].
    destruct (Rlt_dec 0 (theta * (yr - y0))); [| lra].
    lra.
  - assert (y0 - yl <> 0) by (intros E; rewrite E in H; lra).
    assert (y0 - yl < 0) by lra.
    assert (yr - y0 < 0) by nra.
    assert (theta * (y0 - yl) < 0) by nra.
    assert (theta * (yr - y0) < 0) by nra.
    assert ((yr - yl) / 2 < 0) by lra.
    rewrite !sign_neg by lra.
    rewrite !Rabs_left by lra.
    destruct (Rlt_dec 0 (theta * (y0 - yl))); [lra |].
    destruct (Rlt_dec (theta * (y0 - yl)) 0); [| lra].
    destruct (Rlt_dec ((yr - yl) / 2) 0); [| lra].
    destruct (Rlt_dec (theta * (yr - y0)) 0); [| lra].
    unfold Rmin, Rmax. repeat destruct (Rle_dec _ _); lra.
Qed.

Lemma sign_scale (k x : R) : 0 < k -> Math.sign (k * x) = Math.sign x.
Proof.
  intros Hk. unfold Math.sign.
  destruct (Rlt_dec (k * x) 0), (Rlt_dec x 0); try reflexivity; exfalso; nra.
Qed.

Lemma sign_half (x : R) : Math.sign (x / 2) = Math.sign x.
Proof.
  unfold Math.sign.
  destruct (Rlt_dec (x / 2) 0), (Rlt_dec x 0); try reflexivity; exfalso; lra.
Qed.

Lemma iso2d_plm_formula (yl y0 yr : R) :
  Iso2d.plm_gradient_scalar yl y0 yr = Spec.plm_formula 1.5 yl y0 yr.
Proof. unfold Iso2d.plm_gradient_scalar, Iso2d.PLM_THETA. apply plm_body_formula. Qed.

Lemma euler2d_plm_formula (yl y0 yr : R) :
  Euler2d.plm_gradient_scalar yl y0 yr = Spec.plm_formula 1.5 yl y0 yr.
Proof. unfold Euler2d.plm_gradient_scalar, Euler2d.PLM_THETA. apply plm_body_formula. Qed.

Lemma srhd1d_plm_formula (yl y0 yr : R) :
  Srhd1d.plm_gradient_scalar yl y0 yr = Spec.plm_formula 2.0 yl y0 yr.
Proof. unfold Srhd1d.plm_gradient_scalar, Srhd1d.PLM_THETA. apply plm_body_formula. Qed.

Lemma nth_tabulate (n : nat) (e : nat -> R) (q : nat) :
  (q < n)%nat -> (tabulate n e).[q] = e q.
Proof.
  intros H. unfold tabulate.
  rewrite (nth_indep _ 0 (e 0%nat)) by (rewrite length_map, length_seq; exact H).
  rewrite map_nth, seq_nth by exact H. reflexivity.
Qed.

Lemma nth_tabulate_zero (n : nat) (e : nat -> R) (q : nat) :
  (forall k, (k < n)%nat -> e k = 0) -> (tabulate n e).[q] = 0.
Proof.
  intros H. destruct (Nat.lt_ge_cases q n) as [Hq | Hq].
  - rewrite nth_tabulate by exact Hq. auto.
  - apply nth_overflow. unfold tabulate. rewrite length_map, length_seq. exact Hq.
Qed.

(** C9.  In iso2d, euler2d and srhd_1d, [plm_gradient_scalar] returns
    [0.25 |sign a + sign b| (sign a + sign c) min(|a|, |b|, |c|)] with
    [a = theta (y0 - yl)], [b = (yr - yl) / 2], [c = theta (yr - y0)] and
    [theta] = 1.5, 1.5, 2.0.  Equal inputs give 0, also through the vector
    [plm_gradient]; inputs whose three differences do not all have one sign
    give 0, in particular every local extremum; and on strictly monotone
    inputs the value is the minmod of [a], [b], [c]. *)
Theorem plm_gradient_scalar_spec :
  (forall yl y0 yr,
      Iso2d.plm_gradient_scalar yl y0 yr = Spec.plm_formula 1.5 yl y0 yr
      /\ Euler2d.plm_gradient_scalar yl y0 yr = Spec.plm_formula 1.5 yl y0 yr
      /\ Srhd1d.plm_gradient_scalar yl y0 yr = Spec.plm_formula 2.0 yl y0 yr)
  /\ (forall y,
         Iso2d.plm_gradient_scalar y y y = 0
         /\ Euler2d.plm_gradient_scalar y y y = 0
         /\ Srhd1d.plm_gradient_scalar y y y = 0)
  /\ (forall y q,
         (Iso2d.plm_gradient y y y).[q] = 0
         /\ (Euler2d.plm_gradient y y y).[q] = 0
         /\ (Srhd1d.plm_gradient y y y).[q] = 0)
  /\ (forall yl y0 yr,
         ~ (Math.sign (y0 - yl) = Math.sign (yr - yl)
            /\ Math.sign (y0 - yl) = Math.sign (yr - y0)) ->
         Iso2d.plm_gradient_scalar yl y0 yr = 0
         /\ Euler2d.plm_gradient_scalar yl y0 yr = 0
         /\ Srhd1d.plm_gradient_scalar yl y0 yr = 0)
  /\ (forall yl y0 yr,
         (y0 - yl) * (yr - y0) <= 0 ->
         Iso2d.plm_gradient_scalar yl y0 yr = 0
         /\ Euler2d.plm_gradient_scalar yl y0 yr = 0
         /\ Srhd1d.plm_gradient_scalar yl y0 yr = 0)
  /\ (forall yl y0 yr,
         0 < (y0 - yl) * (yr - y0) ->
         Iso2d.plm_gradient_scalar yl y0 yr
         = Spec.minmod3 (1.5 * (y0 - yl)) ((yr - yl) / 2) (1.5 * (yr - y0))
         /\ Euler2d.plm_gradient_scalar yl y0 yr
            = Spec.minmod3 (1.5 * (y0 - yl)) ((yr - yl) / 2) (1.5 * (yr - y0))
         /\ Srhd1d.plm_gradient_scalar yl y0 yr
            = Spec.minmod3 (2.0 * (y0 - yl)) ((yr - yl) / 2) (2.0 * (yr - y0))).
Proof.
  split; [| split; [| split; [| split; [| split]]]].
  - intros. auto using iso2d_plm_formula, euler2d_plm_formula, srhd1d_plm_formula.
  - intros y.
    rewrite iso2d_plm_formula, euler2d_plm_formula, srhd1d_plm_formula.
    rewrite !plm_formula_flat. auto.
  - intros y q. unfold Iso2d.plm_gradient, Euler2d.plm_gradient, Srhd1d.plm_gradient.
    repeat split; apply nth_tabulate_zero; intros k _.
    + rewrite iso2d_plm_formula. apply plm_formula_flat.
    + rewrite euler2d_plm_formula. apply plm_formula_flat.
    + rewrite srhd1d_plm_formula. apply plm_formula_flat.
  - intros yl y0 yr H.
    rewrite iso2d_plm_formula, euler2d_plm_formula, srhd1d_plm_formula.
    repeat split; apply plm_formula_sign_mismatch;
      rewrite !sign_scale by lra; rewrite sign_half; exact H.
  - intros yl y0 yr H.
    rewrite iso2d_plm_formula, euler2d_plm_formula, srhd1d_plm_formula.
    repeat split; apply plm_formula_extremum; lra.
  - intros yl y0 yr H.
    rewrite iso2d_plm_formula, euler2d_plm_formula, srhd1d_plm_formula.
    repeat split; apply plm_formula_monotone; lra.
Qed.

(** The limiter at a local maximum and on a rising ramp. *)
Lemma plm_gradient_scalar_spec_witness :
  (Iso2d.plm_gradient_scalar 0 1 0 = 0
   /\ Euler2d.plm_gradient_scalar 0 1 0 = 0
   /\ Srhd1d.plm_gradient_scalar 0 1 0 = 0)
  /\ (Iso2d.plm_gradient_scalar 0 1 2
      = Spec.minmod3 (1.5 * (1 - 0)) ((2 - 0) / 2) (1.5 * (2 - 1))
      /\ Euler2d.plm_gradient_scalar 0 1 2
         = Spec.minmod3 (1.5 * (1 - 0)) ((2 - 0) / 2) (1.5 * (2 - 1))
      /\ Srhd1d.plm_gradient_scalar 0 1 2
         = Spec.minmod3 (2.0 * (1 - 0)) ((2 - 0) / 2) (2.0 * (2 - 1))).
Proof.
  split.
  - apply (proj1 (proj2 (proj2 (proj2 (proj2 plm_gradient_scalar_spec))))). lra.
  - apply (proj2 (proj2 (proj2 (proj2 (proj2 plm_gradient_scalar_spec))))). lra.
Defined.

(** ** The HLLE signal speeds *)

Lemma min3_zero_le (x y : R) : Math.min3 0.0 x y <= 0.
Proof. unfold Math.min3. pose proof (min2_le_l 0.0 (Math.min2 x y)). lra. Qed.

Lemma max3_zero_ge (x y : R) : 0 <= Math.max3 0.0 x y.
Proof. unfold Math.max3. pose proof (max2_ge_l 0.0 (Math.max2 x y)). lra. Qed.

Lemma min3_le_mid (z x y : R) : Math.min3 z x y <= x.
Proof.
  unfold Math.min3.
  pose proof (min2_le_r z (Math.min2 x y)). pose proof (min2_le_l x y). lra.
Qed.

Lemma max3_ge_mid (z x y : R) : x <= Math.max3 z x y.
Proof.
  unfold Math.max3.
  pose proof (max2_ge_r z (Math.max2 x y)). pose proof (max2_ge_l x y). lra.
Qed.

(** The outer speeds of one state are [cs] below and above a common
    velocity, so the two chosen speeds are at least [2 cs] apart. *)
Lemma hlle_gap (vl vr cs : R) :
  0 < cs ->
  0 < Math.max3 0.0 (vl + cs) (vr + cs) - Math.min3 0.0 (vl - cs) (vr - cs).
Proof.
  intros H.
  pose proof (max3_ge_mid 0.0 (vl + cs) (vr + cs)).
  pose proof (min3_le_mid 0.0 (vl - cs) (vr - cs)).
  lra.
Qed.

(** C10.  In [riemann_hlle] of iso2d and of euler2d the flux is the
    quotient by [ap - am] of the HLLE numerator, where the chosen speeds
    satisfy [am <= 0 <= ap] for every pair of states, and [ap - am > 0]
    whenever the sound speed squared is strictly positive: the quotient is
    then not a division by zero. *)
Theorem hlle_speeds_bracket_zero :
  forall (pl pr : list R) (cs2 : R) (direction : Z),
    (let am := fst (Iso2d.hlle_speeds pl pr cs2 direction) in
     let ap := snd (Iso2d.hlle_speeds pl pr cs2 direction) in
     let ul := Iso2d.primitive_to_conserved pl in
     let ur := Iso2d.primitive_to_conserved pr in
     let fl := Iso2d.primitive_to_flux pl ul cs2 direction in
     let fr := Iso2d.primitive_to_flux pr ur cs2 direction in
     Iso2d.riemann_hlle pl pr cs2 direction
     = tabulate Iso2d.NCONS
         (fun q => (fl.[q] * ap - fr.[q] * am - (ul.[q] - ur.[q]) * ap * am) / (ap - am))
     /\ am <= 0 <= ap
     /\ (0 < cs2 -> 0 < ap - am))
    /\
    (let am := fst (Euler2d.hlle_speeds pl pr cs2 direction) in
     let ap := snd (Euler2d.hlle_speeds pl pr cs2 direction) in
     let ul := Euler2d.primitive_to_conserved pl in
     let ur := Euler2d.primitive_to_conserved pr in
     let fl := Euler2d.primitive_to_flux pl ul direction in
     let fr := Euler2d.primitive_to_flux pr ur direction in
     Euler2d.riemann_hlle pl pr cs2 direction
     = tabulate Euler2d.NCONS
         (fun q => (fl.[q] * ap - fr.[q] * am - (ul.[q] - ur.[q]) * ap * am) / (ap - am))
     /\ am <= 0 <= ap
     /\ (0 < cs2 -> 0 < ap - am)).
Proof.
  intros pl pr cs2 direction. split; cbv zeta.
  - split; [reflexivity |].
    unfold Iso2d.hlle_speeds, Iso2d.primitive_to_outer_wavespeeds. cbn [fst snd nth].
    split.
    + split; [apply min3_zero_le | apply max3_zero_ge].
    + intros Hcs. apply hlle_gap. apply sqrt_lt_R0. exact Hcs.
  - split; [reflexivity |].
    unfold Euler2d.hlle_speeds, Euler2d.primitive_to_outer_wavespeeds. cbn [fst snd nth].
    split.
    + split; [apply min3_zero_le | apply max3_zero_ge].
    + intros Hcs. apply hlle_gap. apply sqrt_lt_R0. exact Hcs.
Qed.

(** Two states at rest with unit sound speed: [am = -1], [ap = 1]. *)
Lemma hlle_speeds_bracket_zero_witness :
  0 < snd (Iso2d.hlle_speeds [1; 0; 0] [1; 0; 0] 1 0)
      - fst (Iso2d.hlle_speeds [1; 0; 0] [1; 0; 0] 1 0)
  /\ 0 < snd (Euler2d.hlle_speeds [1; 0; 0; 1] [1; 0; 0; 1] 1 0)
         - fst (Euler2d.hlle_speeds [1; 0; 0; 1] [1; 0; 0; 1] 1 0).
Proof.
  split.
  - apply (proj2 (proj2 (proj1 (hlle_speeds_bracket_zero [1; 0; 0] [1; 0; 0] 1 0)))). lra.
  - apply (proj2 (proj2 (proj2
             (hlle_speeds_bracket_zero [1; 0; 0; 1] [1; 0; 0; 1] 1 0)))). lra.
Defined.

(** ** The floors of euler2d *)

Lemma min2_abs_le (x c : R) : 0 <= c -> Rabs (Math.min2 (Math.fabs x) c) <= c.
Proof.
  intros Hc. unfold Math.min2, Math.fabs.
  pose proof (Rabs_pos x).
  destruct (Rlt_dec (Rabs x) c); rewrite Rabs_pos_eq; lra.
Qed.

Lemma sign_mult_abs (s x : R) : Rabs (Math.sign s * x) = Rabs x.
Proof.
  destruct (sign_cases s) as [E | E]; rewrite E.
  - f_equal. ring.
  - replace (-1 * x) with (- x) by ring. apply Rabs_Ropp.
Qed.

(** What [conserved_to_primitive] of euler2d guarantees for every input. *)
Lemma euler2d_c2p_floors (cons : list R) (vc dfloor pfloor : R) :
  0 <= vc ->
  let prim := Euler2d.conserved_to_primitive cons vc dfloor pfloor in
  dfloor <= prim.[0] /\ pfloor <= prim.[3]
  /\ Rabs prim.[1] <= vc /\ Rabs prim.[2] <= vc
  /\ sqrt (prim.[1] * prim.[1] + prim.[2] * prim.[2]) <= sqrt 2 * vc.
Proof.
  intros Hvc. unfold Euler2d.conserved_to_primitive. cbv zeta. cbn [nth].
  set (rho := Math.max2 _ dfloor).
  set (vx := Math.sign _ * Math.min2 _ vc).
  set (vy := Math.sign _ * Math.min2 _ vc).
  assert (Hx : Rabs vx <= vc) by (unfold vx; rewrite sign_mult_abs; apply min2_abs_le, Hvc).
  assert (Hy : Rabs vy <= vc) by (unfold vy; rewrite sign_mult_abs; apply min2_abs_le, Hvc).
  repeat split; try (unfold rho; solve [auto with macros]).
  replace (sqrt 2 * vc) with (sqrt (2 * (vc * vc))).
  - apply sqrt_le_1_alt.
    assert (vx * vx <= vc * vc).
    { rewrite <- (Rabs_pos_eq vc Hvc) in Hx.
      apply Rsqr_le_abs_1 in Hx. unfold Rsqr in Hx. exact Hx. }
    assert (vy * vy <= vc * vc).
    { rewrite <- (Rabs_pos_eq vc Hvc) in Hy.
      apply Rsqr_le_abs_1 in Hy. unfold Rsqr in Hy. exact Hy. }
    lra.
  - rewrite sqrt_mult by nra. rewrite sqrt_square by exact Hvc. reflexivity.
Qed.

(** The zone loop: a zone of the index range holds the block computed for
    it, every other block of the write patch is as it was. *)
Lemma euler2d_row_loop (f : Z -> Z -> list R) (I : Z) (js : list nat) :
  forall (wr : Euler2d.Patch) (i j : Z),
    fold_left (fun wr k => Euler2d.SET wr I (Z.of_nat k) (f I (Z.of_nat k))) js wr i j
    = if ((i =? I)%Z && existsb (fun k => (Z.of_nat k =? j)%Z) js)%bool
      then f I j else wr i j.
Proof.
  induction js as [| k js IH]; intros wr i j; cbn [fold_left existsb].
  - rewrite andb_false_r. reflexivity.
  - rewrite IH. unfold Euler2d.SET.
    destruct (i =? I)%Z eqn:Ei; cbn [andb].
    + destruct (existsb _ js); [rewrite orb_true_r; reflexivity |].
      rewrite orb_false_r. rewrite (Z.eqb_sym (Z.of_nat k) j).
      destruct (j =? Z.of_nat k)%Z eqn:Ej; [| reflexivity].
      apply Z.eqb_eq in Ej. subst j. reflexivity.
    + reflexivity.
Qed.

Lemma existsb_seq_range (n : nat) (j : Z) :
  existsb (fun k => (Z.of_nat k =? j)%Z) (seq 0 n) = ((0 <=? j)%Z && (j <? Z.of_nat n)%Z)%bool.
Proof.
  apply eq_true_iff_eq. rewrite existsb_exists, andb_true_iff, Z.leb_le, Z.ltb_lt.
  split.
  - intros [k [Hin Hk]]. apply in_seq in Hin. apply Z.eqb_eq in Hk. lia.
  - intros [H0 Hn]. exists (Z.to_nat j). split.
    + apply in_seq. lia.
    + apply Z.eqb_eq. lia.
Qed.

Lemma euler2d_zone_loop (f : Z -> Z -> list R) (nj : nat) (ks : list nat) :
  forall (wr : Euler2d.Patch) (i j : Z),
    fold_left
      (fun wr k =>
         fold_left
           (fun wr l => Euler2d.SET wr (Z.of_nat k) (Z.of_nat l) (f (Z.of_nat k) (Z.of_nat l)))
           (seq 0 nj) wr)
      ks wr i j
    = if (existsb (fun k => (Z.of_nat k =? i)%Z) ks
          && ((0 <=? j)%Z && (j <? Z.of_nat nj)%Z))%bool
      then f i j else wr i j.
Proof.
  induction ks as [| k ks IH]; intros wr i j; cbn [fold_left existsb].
  - reflexivity.
  - rewrite IH.
    rewrite (euler2d_row_loop f (Z.of_nat k) (seq 0 nj)).
    rewrite existsb_seq_range.
    rewrite (Z.eqb_sym (Z.of_nat k) i).
    destruct (existsb _ ks); cbn [andb orb].
    + rewrite orb_true_r. cbn [andb].
      destruct ((0 <=? j)%Z && (j <? Z.of_nat nj)%Z)%bool; [reflexivity |].
      rewrite andb_false_r. reflexivity.
    + rewrite orb_false_r.
      destruct (i =? Z.of_nat k)%Z eqn:Ei; [| reflexivity].
      apply Z.eqb_eq in Ei. subst i. reflexivity.
Qed.

Lemma euler2d_FOR_EACH_SET (ni nj : nat) (f : Z -> Z -> list R) (wr : Euler2d.Patch) (i j : Z) :
  Euler2d.GET (Euler2d.FOR_EACH ni nj (fun i j wr => Euler2d.SET wr i j (f i j)) wr) i j
  = if (((0 <=? i)%Z && (i <? Z.of_nat ni)%Z) && ((0 <=? j)%Z && (j <? Z.of_nat nj)%Z))%bool
    then f i j else wr i j.
Proof.
  unfold Euler2d.GET, Euler2d.FOR_EACH.
  rewrite (euler2d_zone_loop f nj (seq 0 ni)).
  rewrite existsb_seq_range. reflexivity.
Qed.

(** C4, the claim as stated fails: with ceiling 1 the momenta (10, 10) on
    density 1 give the velocity (1, 1), whose magnitude [sqrt 2] is above
    the ceiling. *)
Lemma euler2d_velocity_magnitude_above_ceiling :
  let velocity_ceiling := 1 in
  let prim := Euler2d.conserved_to_primitive [1; 10; 10; 0] velocity_ceiling 0.1 0.1 in
  prim.[1] = 1 /\ prim.[2] = 1
  /\ velocity_ceiling < sqrt (prim.[1] * prim.[1] + prim.[2] * prim.[2]).
Proof.
  cbv zeta. unfold Euler2d.conserved_to_primitive. cbv zeta. cbn [nth].
  assert (Hrho : Math.max2 1 0.1 = 1).
  { unfold Math.max2. destruct (Rgt_dec 1 0.1); lra. }
  rewrite Hrho.
  assert (Hv : Math.sign 10 * Math.min2 (Math.fabs (10 / 1)) 1 = 1).
  { rewrite sign_nonneg by lra. unfold Math.min2, Math.fabs.
    rewrite Rabs_pos_eq by lra. destruct (Rlt_dec (10 / 1) 1); lra. }
  rewrite Hv.
  repeat split.
  replace (1 * 1 + 1 * 1) with 2 by ring.
  rewrite <- sqrt_1 at 1. apply sqrt_lt_1; lra.
Qed.

(** C4, amended.  With a ceiling [>= 0], [conserved_to_primitive] of
    euler2d returns, for every conserved input, a density [>= density_floor],
    a pressure [>= pressure_floor] and velocity components with
    [|vx| <= velocity_ceiling] and [|vy| <= velocity_ceiling], so a velocity
    magnitude [<= sqrt 2 * velocity_ceiling].  [euler2d_advance_rk] (serial,
    or OpenMP when compiled in) stores such a state in every zone of the
    index range and leaves every other block of the write patch as it was. *)
Theorem euler2d_floors_per_component :
  forall (velocity_ceiling density_floor pressure_floor : R),
    0 <= velocity_ceiling ->
    (forall cons : list R,
        let prim :=
          Euler2d.conserved_to_primitive cons velocity_ceiling density_floor pressure_floor in
        density_floor <= prim.[0] /\ pressure_floor <= prim.[3]
        /\ Rabs prim.[1] <= velocity_ceiling /\ Rabs prim.[2] <= velocity_ceiling
        /\ sqrt (prim.[1] * prim.[1] + prim.[2] * prim.[2]) <= sqrt 2 * velocity_ceiling)
    /\
    (forall have_openmp mesh conserved_rk primitive_rd primitive_wr eos buffer masses
            nu a dt cooling_coefficient mode (i j : Z),
        mode = Euler2d.CPU \/ (mode = Euler2d.OMP /\ have_openmp = true) ->
        let wr :=
          Euler2d.euler2d_advance_rk have_openmp mesh conserved_rk primitive_rd primitive_wr
            eos buffer masses nu a dt velocity_ceiling cooling_coefficient
            density_floor pressure_floor mode in
        ((0 <= i < Z.of_nat (Euler2d.ni mesh))%Z /\ (0 <= j < Z.of_nat (Euler2d.nj mesh))%Z ->
         let prim := Euler2d.GET wr i j in
         density_floor <= prim.[0] /\ pressure_floor <= prim.[3]
         /\ Rabs prim.[1] <= velocity_ceiling /\ Rabs prim.[2] <= velocity_ceiling
         /\ sqrt (prim.[1] * prim.[1] + prim.[2] * prim.[2]) <= sqrt 2 * velocity_ceiling)
        /\
        (~ ((0 <= i < Z.of_nat (Euler2d.ni mesh))%Z /\ (0 <= j < Z.of_nat (Euler2d.nj mesh))%Z) ->
         Euler2d.GET wr i j = Euler2d.GET primitive_wr i j)).
Proof.
  intros vc dfloor pfloor Hvc. split.
  - intros cons. apply euler2d_c2p_floors, Hvc.
  - intros have_openmp mesh crk prd pwr eos buffer masses nu a dt cc mode i j Hmode.
    cbv zeta.
    assert (Hsweep :
      exists f : Z -> Z -> list R,
        (forall i j, exists cons, f i j = Euler2d.conserved_to_primitive cons vc dfloor pfloor)
        /\ Euler2d.euler2d_advance_rk have_openmp mesh crk prd pwr eos buffer masses
             nu a dt vc cc dfloor pfloor mode
           = Euler2d.FOR_EACH (Euler2d.ni mesh) (Euler2d.nj mesh)
               (fun i j wr => Euler2d.SET wr i j (f i j)) pwr).
    { unfold Euler2d.euler2d_advance_rk.
      destruct (Req_dec_T nu 0.0).
      - eexists. split.
        2: { destruct Hmode as [-> | [-> ->]]; reflexivity. }
        intros i0 j0. unfold Euler2d.advance_rk_zone_inviscid. cbv zeta.
        eexists. reflexivity.
      - eexists. split.
        2: { destruct Hmode as [-> | [-> ->]]; reflexivity. }
        intros i0 j0. unfold Euler2d.advance_rk_zone. cbv zeta.
        eexists. reflexivity. }
    destruct Hsweep as [f [Hf ->]].
    rewrite euler2d_FOR_EACH_SET.
    split.
    + intros [Hi Hj].
      replace (((0 <=? i)%Z && (i <? Z.of_nat (Euler2d.ni mesh))%Z)
               && ((0 <=? j)%Z && (j <? Z.of_nat (Euler2d.nj mesh))%Z))%bool with true.
      * destruct (Hf i j) as [cons ->]. apply euler2d_c2p_floors, Hvc.
      * symmetry. rewrite !andb_true_iff, !Z.leb_le, !Z.ltb_lt. lia.
    + intros Hout.
      destruct (((0 <=? i)%Z && (i <? Z.of_nat (Euler2d.ni mesh))%Z)
                && ((0 <=? j)%Z && (j <? Z.of_nat (Euler2d.nj mesh))%Z))%bool eqn:E;
        [| reflexivity].
      exfalso. apply Hout.
      rewrite !andb_true_iff, !Z.leb_le, !Z.ltb_lt in E. lia.
Qed.

(** The state of the counterexample meets the floors and the bound on each
    component. *)
Lemma euler2d_floors_per_component_witness :
  let prim := Euler2d.conserved_to_primitive [1; 10; 10; 0] 1 0.1 0.1 in
  0.1 <= prim.[0] /\ 0.1 <= prim.[3]
  /\ Rabs prim.[1] <= 1 /\ Rabs prim.[2] <= 1
  /\ sqrt (prim.[1] * prim.[1] + prim.[2] * prim.[2]) <= sqrt 2 * 1.
Proof.
  apply (proj1 (euler2d_floors_per_component 1 0.1 0.1 Rle_0_1) [1; 10; 10; 0]).
Defined.

(** ** Primitive to conserved and back *)


(** [sign(v rho) * min2(|v rho / rho|, ceiling)] is [v] again when the
    density is positive and [|v|] is within the ceiling. *)
Lemma clamp_velocity_id (v rho vc : R) :
  0 < rho -> Rabs v <= vc ->
  Math.sign (v * rho) * Math.min2 (Math.fabs (v * rho / rho)) vc = v.
Proof.
  intros Hrho Hv.
  replace (v * rho / rho) with v by (field; lra).
  assert (Hm : Math.min2 (Math.fabs v) vc = Rabs v).
  { unfold Math.min2, Math.fabs. destruct (Rlt_dec (Rabs v) vc); lra. }
  rewrite Hm.
  destruct (Rlt_dec v 0) as [Hn | Hn].
  - rewrite sign_neg by nra. rewrite Rabs_left by exact Hn. ring.
  - rewrite sign_nonneg by nra. rewrite Rabs_pos_eq by lra. ring.
Qed.

Lemma max2_id_l (x y : R) : y <= x -> Math.max2 x y = x.
Proof. intros H. unfold Math.max2. destruct (Rgt_dec x y); lra. Qed.

Lemma euler2d_round_trip (rho vx vy pres vc dfloor pfloor : R) :
  0 < dfloor -> dfloor <= rho -> pfloor <= pres ->
  Rabs vx <= vc -> Rabs vy <= vc ->
  Euler2d.conserved_to_primitive
    (Euler2d.primitive_to_conserved [rho; vx; vy; pres]) vc dfloor pfloor
  = [rho; vx; vy; pres].
Proof.
  intros Hd Hrho Hp Hx Hy.
  unfold Euler2d.conserved_to_primitive, Euler2d.primitive_to_conserved.
  cbv zeta. cbn [nth].
  rewrite (max2_id_l rho dfloor Hrho).
  rewrite !clamp_velocity_id by lra.
  f_equal. f_equal. f_equal. f_equal.
  unfold Euler2d.GAMMA_LAW_INDEX.
  replace ((pres / (5.0 / 3.0 - 1.0) + 0.5 * rho * (vx * vx + vy * vy)
            - 0.5 * rho * (vx * vx + vy * vy)) * (5.0 / 3.0 - 1.0)) with pres by (field; lra).
  apply max2_id_l, Hp.
Qed.



Lemma powi_2 (x : R) : Math.powi x 2 = x * x.
Proof. unfold Math.powi. simpl. ring. Qed.

Lemma powi_3 (x : R) : Math.powi x 3 = x * x * x.
Proof. unfold Math.powi. simpl. ring. Qed.

Lemma powi_4 (x : R) : Math.powi x 4 = x * x * x * x.
Proof. unfold Math.powi. simpl. ring. Qed.

Lemma newton_loop_eq (tol gm m tau ss : R) (fuel iteration : nat) (p : R) :
  Srhd1d.newton_loop tol gm m tau ss fuel iteration p
  = let '(f, p', w) := Srhd1d.newton_pass gm m tau ss p in
    if (Math.c_lt (Math.fabs f) tol || (iteration =? Srhd1d.newton_iter_max)%nat)%bool
    then Srhd1d.mkNewtonExit iteration p' f w
    else
      match fuel with
      | S fuel' => Srhd1d.newton_loop tol gm m tau ss fuel' (iteration + 1) p'
      | O => Srhd1d.mkNewtonExit iteration p' f w
      end.
Proof. destruct fuel; reflexivity. Qed.


Lemma c_lt_false (a b : R) : ~ a < b -> Math.c_lt a b = false.
Proof. intros H. unfold Math.c_lt. destruct (Rlt_dec a b); [contradiction | reflexivity]. Qed.





(** ** The point-mass force *)

Lemma Rpower_m32 (x : R) : 0 < x -> Rpower x (-1.5) = / (x * sqrt x).
Proof.
  intros Hx.
  replace (-1.5) with (- (1 + / 2)) by lra.
  rewrite Rpower_Ropp, Rpower_plus, Rpower_1, Rpower_sqrt by exact Hx.
  reflexivity.
Qed.

Lemma sqrt_25 : sqrt ((3 - 0) * (3 - 0) + (4 - 0) * (4 - 0)) = 5.
Proof.
  replace ((3 - 0) * (3 - 0) + (4 - 0) * (4 - 0)) with (5 * 5) by ring.
  apply sqrt_square. lra.
Qed.

(** The force of section 4.4 without [Rpower], where the softened distance
    is positive. *)
Lemma gravity_force_eq (sigma M r_s dx dy : R) :
  0 < dx * dx + dy * dy + r_s * r_s ->
  let r2s := dx * dx + dy * dy + r_s * r_s in
  Spec.gravity_force sigma M r_s dx dy
  = (- (sigma * M / (r2s * sqrt r2s)) * dx, - (sigma * M / (r2s * sqrt r2s)) * dy).
Proof.
  intros H. cbv zeta. unfold Spec.gravity_force. cbv zeta.
  rewrite Rpower_m32 by exact H. reflexivity.
Qed.

(** C1, the claim as stated fails in iso2d: for a unit mass at the origin
    with softening 12, the zone at (3, 4) (so [r = 5], [r^2 + r_s^2 = 169])
    with unit density and unit time step receives the x-momentum
    [-(1/169) (3/5) = -3/845], not [-3 * 169^(-3/2) = -3/2197]. *)
Lemma iso2d_force_is_not_plummer :
  let mass := Iso2d.mkPointMass 0 0 1 0 12 in
  let delta_cons := Iso2d.point_mass_source_term mass 3 4 1 1 in
  delta_cons.[1] = - 3 / 845
  /\ 1 * fst (Spec.gravity_force 1 1 12 (3 - 0) (4 - 0)) = - 3 / 2197
  /\ delta_cons.[1] <> 1 * fst (Spec.gravity_force 1 1 12 (3 - 0) (4 - 0)).
Proof.
  cbv zeta.
  assert (A : (Iso2d.point_mass_source_term (Iso2d.mkPointMass 0 0 1 0 12) 3 4 1 1).[1]
              = - 3 / 845).
  { unfold Iso2d.point_mass_source_term. cbv zeta. cbn [nth Iso2d.pm_x Iso2d.pm_y
      Iso2d.pm_mass Iso2d.pm_radius Iso2d.pm_rate].
    rewrite sqrt_25. field. }
  assert (B : 1 * fst (Spec.gravity_force 1 1 12 (3 - 0) (4 - 0)) = - 3 / 2197).
  { rewrite gravity_force_eq by lra. cbv zeta. cbn [fst].
    replace ((3 - 0) * (3 - 0) + (4 - 0) * (4 - 0) + 12 * 12) with (13 * 13) by ring.
    rewrite sqrt_square by lra. field. }
  split; [exact A |]. split; [exact B |].
  rewrite A, B. lra.
Qed.

Lemma cbdisodg2d_force (mass : Cbdisodg2d.PointMass) (x1 y1 dt : R) (prim : list R) :
  let dx := x1 - Cbdisodg2d.pm_x mass in
  let dy := y1 - Cbdisodg2d.pm_y mass in
  let f := Spec.gravity_force prim.[0] (Cbdisodg2d.pm_mass mass)
             (Cbdisodg2d.softening_length mass) dx dy in
  let v_star :=
    Spec.radial_velocity prim.[1] prim.[2] (Cbdisodg2d.pm_vx mass) (Cbdisodg2d.pm_vy mass)
      (dx / (sqrt (dx * dx + dy * dy) + 1e-12)) (dy / (sqrt (dx * dx + dy * dy) + 1e-12)) in
  let delta_cons := Cbdisodg2d.point_mass_source_term mass x1 y1 dt prim in
  (Cbdisodg2d.sink_model mass = 1%Z ->
   delta_cons.[1] = delta_cons.[0] * prim.[1] + dt * fst f
   /\ delta_cons.[2] = delta_cons.[0] * prim.[2] + dt * snd f)
  /\ (Cbdisodg2d.sink_model mass = 2%Z ->
      delta_cons.[1] = delta_cons.[0] * fst v_star + dt * fst f
      /\ delta_cons.[2] = delta_cons.[0] * snd v_star + dt * snd f)
  /\ (Cbdisodg2d.sink_model mass = 3%Z ->
      delta_cons.[1] = dt * fst f /\ delta_cons.[2] = dt * snd f)
  /\ (Cbdisodg2d.sink_model mass <> 1%Z -> Cbdisodg2d.sink_model mass <> 2%Z ->
      Cbdisodg2d.sink_model mass <> 3%Z -> delta_cons = [0.0; 0.0; 0.0]).
Proof.
  cbv zeta. unfold Cbdisodg2d.point_mass_source_term, Spec.gravity_force,
    Spec.radial_velocity, Math.powr. cbv zeta.
  repeat split; intros; try (rewrite H; cbn [nth fst snd]; ring).
  destruct (Cbdisodg2d.sink_model mass) as [| k | k]; try reflexivity.
  destruct k as [k | k |]; [destruct k | destruct k |]; try reflexivity; congruence.
Qed.

Lemma iso2d_force (mass : Iso2d.PointMass) (x1 y1 dt sigma : R) :
  let dx := x1 - Iso2d.pm_x mass in
  let dy := y1 - Iso2d.pm_y mass in
  let r2 := dx * dx + dy * dy in
  let r_s := Iso2d.pm_radius mass in
  0 < r2 ->
  let delta_cons := Iso2d.point_mass_source_term mass x1 y1 dt sigma in
  0 < (r2 + r_s * r_s) * sqrt r2
  /\ delta_cons.[1] = dt * (- (sigma * Iso2d.pm_mass mass * dx / ((r2 + r_s * r_s) * sqrt r2)))
  /\ delta_cons.[2] = dt * (- (sigma * Iso2d.pm_mass mass * dy / ((r2 + r_s * r_s) * sqrt r2))).
Proof.
  cbv zeta. intros Hr.
  set (dx := x1 - Iso2d.pm_x mass) in *. set (dy := y1 - Iso2d.pm_y mass) in *.
  assert (Hs : 0 < sqrt (dx * dx + dy * dy)) by (apply sqrt_lt_R0; exact Hr).
  assert (Hq : 0 < dx * dx + dy * dy + Iso2d.pm_radius mass * Iso2d.pm_radius mass) by nra.
  split; [apply Rmult_lt_0_compat; assumption |].
  unfold Iso2d.point_mass_source_term. cbv zeta. cbn [nth]. fold dx dy.
  split; field; split; lra.
Qed.

Lemma euler2d_force (mass : Euler2d.PointMass) (x1 y1 dt : R) (prim : list R) (h : R) :
  let dx := x1 - Euler2d.pm_x mass in
  let dy := y1 - Euler2d.pm_y mass in
  let r2 := dx * dx + dy * dy in
  let r_s := 0.5 * h in
  0 < r2 ->
  let fx := - (prim.[0] * Euler2d.pm_mass mass * dx / ((r2 + r_s * r_s) * sqrt r2)) in
  let fy := - (prim.[0] * Euler2d.pm_mass mass * dy / ((r2 + r_s * r_s) * sqrt r2)) in
  let v_star :=
    Spec.radial_velocity prim.[1] prim.[2] (Euler2d.pm_vx mass) (Euler2d.pm_vy mass)
      (dx / sqrt r2) (dy / sqrt r2) in
  let delta_cons := Euler2d.point_mass_source_term mass x1 y1 dt prim h in
  0 < (r2 + r_s * r_s) * sqrt r2
  /\ (Euler2d.pm_model mass = Euler2d.AccelerationFree ->
      delta_cons.[1] = delta_cons.[0] * prim.[1] + dt * fx
      /\ delta_cons.[2] = delta_cons.[0] * prim.[2] + dt * fy)
  /\ (Euler2d.pm_model mass = Euler2d.TorqueFree ->
      delta_cons.[1] = delta_cons.[0] * fst v_star + dt * fx
      /\ delta_cons.[2] = delta_cons.[0] * snd v_star + dt * fy)
  /\ (Euler2d.pm_model mass = Euler2d.ForceFree ->
      delta_cons.[1] = dt * fx /\ delta_cons.[2] = dt * fy)
  /\ (Euler2d.pm_model mass = Euler2d.Inactive -> delta_cons = [0.0; 0.0; 0.0; 0.0]).
Proof.
  cbv zeta. intros Hr.
  set (dx := x1 - Euler2d.pm_x mass) in *. set (dy := y1 - Euler2d.pm_y mass) in *.
  assert (Hs : 0 < sqrt (dx * dx + dy * dy)) by (apply sqrt_lt_R0; exact Hr).
  assert (Hq : 0 < dx * dx + dy * dy + 0.5 * h * (0.5 * h)) by nra.
  split; [apply Rmult_lt_0_compat; assumption |].
  unfold Euler2d.point_mass_source_term, Spec.radial_velocity. cbv zeta. fold dx dy.
  repeat split; intros; rewrite H; cbn [nth fst snd]; try reflexivity;
    field; split; lra.
Qed.

(** C1, amended.  In cbdisodg_2d the force that [point_mass_source_term]
    deposits under the sink models 1, 2 and 3 (besides the momentum
    [delta_cons[0] * v] of the removed mass) is [dt * (fx, fy)] with
    [(fx, fy) = -g (dx, dy)] and [g = sigma M (r^2 + r_s^2)^(-3/2)]; with a
    non-zero softening length no denominator of it vanishes at any position,
    [r = 0] included; under any other sink model nothing is deposited.
    In iso2d, and in euler2d with [r_s = h / 2], the force is instead
    [-(sigma M / (r^2 + r_s^2)) (dx, dy) / r], stated here for [r > 0]. *)
Theorem point_mass_force_law :
  (forall (mass : Cbdisodg2d.PointMass) (x1 y1 dt : R) (prim : list R),
      Cbdisodg2d.softening_length mass <> 0 ->
      let dx := x1 - Cbdisodg2d.pm_x mass in
      let dy := y1 - Cbdisodg2d.pm_y mass in
      let r_s := Cbdisodg2d.softening_length mass in
      let r2s := dx * dx + dy * dy + r_s * r_s in
      let f := Spec.gravity_force prim.[0] (Cbdisodg2d.pm_mass mass) r_s dx dy in
      let v_star :=
        Spec.radial_velocity prim.[1] prim.[2]
          (Cbdisodg2d.pm_vx mass) (Cbdisodg2d.pm_vy mass)
          (dx / (sqrt (dx * dx + dy * dy) + 1e-12))
          (dy / (sqrt (dx * dx + dy * dy) + 1e-12)) in
      let delta_cons := Cbdisodg2d.point_mass_source_term mass x1 y1 dt prim in
      0 < r2s * sqrt r2s
      /\ f = (- (prim.[0] * Cbdisodg2d.pm_mass mass / (r2s * sqrt r2s)) * dx,
              - (prim.[0] * Cbdisodg2d.pm_mass mass / (r2s * sqrt r2s)) * dy)
      /\ (Cbdisodg2d.sink_model mass = 1%Z ->
          delta_cons.[1] = delta_cons.[0] * prim.[1] + dt * fst f
          /\ delta_cons.[2] = delta_cons.[0] * prim.[2] + dt * snd f)
      /\ (Cbdisodg2d.sink_model mass = 2%Z ->
          delta_cons.[1] = delta_cons.[0] * fst v_star + dt * fst f
          /\ delta_cons.[2] = delta_cons.[0] * snd v_star + dt * snd f)
      /\ (Cbdisodg2d.sink_model mass = 3%Z ->
          delta_cons.[1] = dt * fst f /\ delta_cons.[2] = dt * snd f)
      /\ (Cbdisodg2d.sink_model mass <> 1%Z -> Cbdisodg2d.sink_model mass <> 2%Z ->
          Cbdisodg2d.sink_model mass <> 3%Z -> delta_cons = [0.0; 0.0; 0.0]))
  /\
  (forall (mass : Iso2d.PointMass) (x1 y1 dt sigma : R),
      let dx := x1 - Iso2d.pm_x mass in
      let dy := y1 - Iso2d.pm_y mass in
      let r2 := dx * dx + dy * dy in
      let r_s := Iso2d.pm_radius mass in
      0 < r2 ->
      let delta_cons := Iso2d.point_mass_source_term mass x1 y1 dt sigma in
      0 < (r2 + r_s * r_s) * sqrt r2
      /\ delta_cons.[1]
         = dt * (- (sigma * Iso2d.pm_mass mass * dx / ((r2 + r_s * r_s) * sqrt r2)))
      /\ delta_cons.[2]
         = dt * (- (sigma * Iso2d.pm_mass mass * dy / ((r2 + r_s * r_s) * sqrt r2))))
  /\
  (forall (mass : Euler2d.PointMass) (x1 y1 dt : R) (prim : list R) (h : R),
      let dx := x1 - Euler2d.pm_x mass in
      let dy := y1 - Euler2d.pm_y mass in
      let r2 := dx * dx + dy * dy in
      let r_s := 0.5 * h in
      0 < r2 ->
      let fx := - (prim.[0] * Euler2d.pm_mass mass * dx / ((r2 + r_s * r_s) * sqrt r2)) in
      let fy := - (prim.[0] * Euler2d.pm_mass mass * dy / ((r2 + r_s * r_s) * sqrt r2)) in
      let v_star :=
        Spec.radial_velocity prim.[1] prim.[2] (Euler2d.pm_vx mass) (Euler2d.pm_vy mass)
          (dx / sqrt r2) (dy / sqrt r2) in
      let delta_cons := Euler2d.point_mass_source_term mass x1 y1 dt prim h in
      0 < (r2 + r_s * r_s) * sqrt r2
      /\ (Euler2d.pm_model mass = Euler2d.AccelerationFree ->
          delta_cons.[1] = delta_cons.[0] * prim.[1] + dt * fx
          /\ delta_cons.[2] = delta_cons.[0] * prim.[2] + dt * fy)
      /\ (Euler2d.pm_model mass = Euler2d.TorqueFree ->
          delta_cons.[1] = delta_cons.[0] * fst v_star + dt * fx
          /\ delta_cons.[2] = delta_cons.[0] * snd v_star + dt * fy)
      /\ (Euler2d.pm_model mass = Euler2d.ForceFree ->
          delta_cons.[1] = dt * fx /\ delta_cons.[2] = dt * fy)
      /\ (Euler2d.pm_model mass = Euler2d.Inactive -> delta_cons = [0.0; 0.0; 0.0; 0.0])).
Proof.
  split; [| split].
  - intros mass x1 y1 dt prim Hs. cbv zeta.
    set (dx := x1 - Cbdisodg2d.pm_x mass). set (dy := y1 - Cbdisodg2d.pm_y mass).
    assert (Hq : 0 < dx * dx + dy * dy
                     + Cbdisodg2d.softening_length mass * Cbdisodg2d.softening_length mass).
    { assert (0 < Cbdisodg2d.softening_length mass * Cbdisodg2d.softening_length mass)
        by nra.
      nra. }
    split; [apply Rmult_lt_0_compat; [exact Hq | apply sqrt_lt_R0; exact Hq] |].
    split; [apply gravity_force_eq; exact Hq |].
    apply cbdisodg2d_force.
  - intros mass x1 y1 dt sigma. apply iso2d_force.
  - intros mass x1 y1 dt prim h. apply euler2d_force.
Qed.

(** A zone centred on a softened mass of cbdisodg_2d ([r = 0]): the
    force-free increment of momentum is zero. *)
Lemma point_mass_force_law_witness :
  let mass := Cbdisodg2d.mkPointMass 0 0 0 0 1 1 0 1 3 in
  let delta_cons := Cbdisodg2d.point_mass_source_term mass 0 0 1 [1; 0; 0] in
  delta_cons.[1] = 0 /\ delta_cons.[2] = 0.
Proof.
  cbv zeta.
  pose proof (proj1 point_mass_force_law
                (Cbdisodg2d.mkPointMass 0 0 0 0 1 1 0 1 3) 0 0 1 [1; 0; 0]) as H.
  cbv zeta in H. cbn [Cbdisodg2d.softening_length Cbdisodg2d.sink_model
    Cbdisodg2d.pm_x Cbdisodg2d.pm_y Cbdisodg2d.pm_mass nth] in H.
  destruct (H R1_neq_R0) as [_ [Hf [_ [_ [H3 _]]]]].
  destruct (H3 eq_refl) as [Hx Hy].
  rewrite Hx, Hy, Hf. cbn [fst snd]. split; ring.
Defined.

(** ** The Keplerian buffer *)

(** C5, the claim as stated fails in iso2d: with [Sigma_b = 1], [M_c = 64],
    driving rate 1, outer radius 6 and onset width 2 (onset radius 4,
    [omega_outer = 1]), the zone at (3, 4) has [r = 5]; the code relaxes the
    density 2 with the ramp [max(5, 1) = 5] to [2 - 1 * 5 * 0.1 = 1.5], where
    the linear ramp [(5 - 4) / (6 - 4)] gives [1.95]. *)
Lemma iso2d_buffer_ramp_is_not_linear :
  let buffer := Iso2d.Keplerian (Iso2d.mkKeplerianBuffer 1 64 1 6 2) in
  let cons := Iso2d.buffer_source_term buffer 3 4 0.1 [2; 0; 0] in
  let rate := 1 * Spec.omega_outer 64 (6 - 2) * Spec.linear_ramp 5 (6 - 2) 6 in
  cons.[0] = 1.5
  /\ Spec.relax 2 1 rate 0.1 = 1.95
  /\ cons.[0] <> Spec.relax 2 1 rate 0.1.
Proof.
  cbv zeta.
  assert (Hr : sqrt (3 * 3 + 4 * 4) = 5).
  { replace (3 * 3 + 4 * 4) with (5 * 5) by ring. apply sqrt_square. lra. }
  assert (A : (Iso2d.buffer_source_term
                 (Iso2d.Keplerian (Iso2d.mkKeplerianBuffer 1 64 1 6 2)) 3 4 0.1 [2; 0; 0]).[0]
              = 1.5).
  { unfold Iso2d.buffer_source_term. cbv zeta.
    cbn [Iso2d.surface_density Iso2d.central_mass Iso2d.driving_rate
         Iso2d.outer_radius Iso2d.onset_width].
    rewrite Hr.
    destruct (Rgt_dec 5 (6 - 2)) as [_ | Hn]; [| lra].
    rewrite nth_tabulate by (unfold Iso2d.NCONS; lia).
    cbn [nth].
    replace (64 / Math.powi (6 - 2) 3) with 1 by (rewrite powi_3; field).
    rewrite sqrt_1.
    replace (Math.max2 5 1.0) with 5 by (unfold Math.max2; destruct (Rgt_dec 5 1.0); lra).
    lra. }
  assert (B : Spec.relax 2 1 (1 * Spec.omega_outer 64 (6 - 2) * Spec.linear_ramp 5 (6 - 2) 6)
                0.1 = 1.95).
  { unfold Spec.relax, Spec.omega_outer, Spec.linear_ramp.
    replace (64 / ((6 - 2) * (6 - 2) * (6 - 2))) with 1 by field.
    rewrite sqrt_1. lra. }
  split; [exact A |]. split; [exact B |].
  rewrite A, B. lra.
Qed.

Lemma powi_m3 (x : R) : Math.powi x (-3) = / (x * x * x).
Proof. unfold Math.powi. simpl. f_equal. ring. Qed.

Lemma iso2d_buffer (k : Iso2d.KeplerianBuffer) (xc yc dt : R) (cons : list R) :
  let r := sqrt (xc * xc + yc * yc) in
  let r_onset := Iso2d.outer_radius k - Iso2d.onset_width k in
  let u0 :=
    [ Iso2d.surface_density k;
      fst (Spec.keplerian_momentum (Iso2d.surface_density k) (Iso2d.central_mass k) xc yc);
      snd (Spec.keplerian_momentum (Iso2d.surface_density k) (Iso2d.central_mass k) xc yc) ] in
  let rate :=
    Iso2d.driving_rate k * Spec.omega_outer (Iso2d.central_mass k) r_onset
    * Math.max2 r 1 in
  let cons' := Iso2d.buffer_source_term (Iso2d.Keplerian k) xc yc dt cons in
  (r <= r_onset -> cons' = cons)
  /\ (r > r_onset ->
      forall q : nat, (q < 3)%nat -> cons'.[q] = Spec.relax cons.[q] u0.[q] rate dt).
Proof.
  cbv zeta. unfold Iso2d.buffer_source_term. cbv zeta.
  destruct (Rgt_dec _ _) as [Hin | Hout]; split; intros H; try lra; try reflexivity.
  intros q Hq. rewrite nth_tabulate by exact Hq.
  unfold Spec.relax, Spec.omega_outer, Spec.keplerian_momentum. cbv zeta.
  rewrite powi_3.
  replace 1.0 with 1 by lra.
  destruct q as [| [| [| q]]]; try lia; reflexivity.
Qed.

Lemma euler2d_buffer (k : Euler2d.KeplerianBuffer) (xc yc dt : R) (cons : list R) :
  let r := sqrt (xc * xc + yc * yc) in
  let r_onset := Euler2d.outer_radius k - Euler2d.onset_width k in
  let px :=
    fst (Spec.keplerian_momentum (Euler2d.surface_density k) (Euler2d.central_mass k) xc yc) in
  let py :=
    snd (Spec.keplerian_momentum (Euler2d.surface_density k) (Euler2d.central_mass k) xc yc) in
  let u0 :=
    [ Euler2d.surface_density k; px; py;
      Euler2d.surface_pressure k / (Euler2d.GAMMA_LAW_INDEX - 1)
      + 0.5 * (px * px + py * py) / Euler2d.surface_density k ] in
  let rate :=
    Euler2d.driving_rate k * Spec.omega_outer (Euler2d.central_mass k) r_onset
    * Math.max2 r 1 in
  let cons' := Euler2d.buffer_source_term (Euler2d.Keplerian k) xc yc dt cons in
  (r <= r_onset -> cons' = cons)
  /\ (r > r_onset ->
      forall q : nat, (q < 4)%nat -> cons'.[q] = Spec.relax cons.[q] u0.[q] rate dt).
Proof.
  cbv zeta. unfold Euler2d.buffer_source_term. cbv zeta.
  destruct (Rgt_dec _ _) as [Hin | Hout]; split; intros H; try lra; try reflexivity.
  intros q Hq. rewrite nth_tabulate by exact Hq.
  unfold Spec.relax, Spec.omega_outer, Spec.keplerian_momentum. cbv zeta.
  rewrite powi_3.
  replace 1.0 with 1 by lra.
  destruct q as [| [| [| [| q]]]]; try lia; reflexivity.
Qed.

Lemma cbdisodg2d_buffer (b : Cbdisodg2d.KeplerianBuffer) (xc yc : R) (cons cons_dot : list R) :
  let r := sqrt (xc * xc + yc * yc) in
  let r_onset := Cbdisodg2d.outer_radius b - Cbdisodg2d.onset_width b in
  let u0 :=
    [ Cbdisodg2d.surface_density b;
      fst (Spec.keplerian_momentum (Cbdisodg2d.surface_density b)
             (Cbdisodg2d.central_mass b) xc yc);
      snd (Spec.keplerian_momentum (Cbdisodg2d.surface_density b)
             (Cbdisodg2d.central_mass b) xc yc) ] in
  let rate :=
    Cbdisodg2d.driving_rate b * Spec.omega_outer (Cbdisodg2d.central_mass b) r_onset
    * Spec.linear_ramp r r_onset (Cbdisodg2d.outer_radius b) in
  let cons_dot' := Cbdisodg2d.buffer_source_term b xc yc cons cons_dot in
  (Cbdisodg2d.is_enabled b = 0%Z \/ r <= r_onset -> cons_dot' = cons_dot)
  /\ (Cbdisodg2d.is_enabled b <> 0%Z -> r > r_onset ->
      forall q : nat, (q < 3)%nat ->
        cons_dot'.[q] = cons_dot.[q] - (cons.[q] - u0.[q]) * rate).
Proof.
  cbv zeta. unfold Cbdisodg2d.buffer_source_term. cbv zeta.
  destruct (Cbdisodg2d.is_enabled b =? 0)%Z eqn:E.
  - apply Z.eqb_eq in E. split; [reflexivity | congruence].
  - apply Z.eqb_neq in E.
    destruct (Rgt_dec _ _) as [Hin | Hout]; split.
    + intros [H | H]; [congruence | lra].
    + intros _ _ q Hq. rewrite nth_tabulate by exact Hq.
      unfold Spec.omega_outer, Spec.linear_ramp, Spec.keplerian_momentum. cbv zeta.
      rewrite powi_m3.
      destruct q as [| [| [| q]]]; try lia; cbn [nth fst snd]; unfold Rdiv; ring.
    + reflexivity.
    + intros _ H. lra.
Qed.

(** C5, amended.  In iso2d and euler2d the Keplerian buffer changes the
    conserved state of a zone only when [r > r_outer - onset_width], and
    there it applies [U <- U - (U - U0) rate dt] toward the circular-Keplerian
    reference [U0] with [rate = driving_rate * omega_outer * max(r, 1)] and
    [omega_outer = sqrt (M_c / r_onset^3)]; a zone at or inside the onset
    radius, and every zone when the buffer is [None], is unchanged.  In
    cbdisodg_2d, [buffer_source_term] has the linear ramp
    [(r - r_onset) / (r_outer - r_onset)], subtracts [(U - U0) rate] from the
    rate of change [cons_dot] when the buffer is enabled and [r > r_onset],
    and leaves [cons_dot] as it was otherwise; [cbdisodg_2d_advance_rk] does
    not apply it: its result is the same for all buffer arguments. *)
Theorem keplerian_buffer_update :
  (forall (k : Iso2d.KeplerianBuffer) (xc yc dt : R) (cons : list R),
      let r := sqrt (xc * xc + yc * yc) in
      let r_onset := Iso2d.outer_radius k - Iso2d.onset_width k in
      let u0 :=
        [ Iso2d.surface_density k;
          fst (Spec.keplerian_momentum (Iso2d.surface_density k) (Iso2d.central_mass k) xc yc);
          snd (Spec.keplerian_momentum (Iso2d.surface_density k) (Iso2d.central_mass k) xc yc)
        ] in
      let rate :=
        Iso2d.driving_rate k * Spec.omega_outer (Iso2d.central_mass k) r_onset
        * Math.max2 r 1 in
      let cons' := Iso2d.buffer_source_term (Iso2d.Keplerian k) xc yc dt cons in
      (r <= r_onset -> cons' = cons)
      /\ (r > r_onset ->
          forall q : nat, (q < 3)%nat -> cons'.[q] = Spec.relax cons.[q] u0.[q] rate dt)
      /\ Iso2d.buffer_source_term Iso2d.None_ xc yc dt cons = cons)
  /\
  (forall (k : Euler2d.KeplerianBuffer) (xc yc dt : R) (cons : list R),
      let r := sqrt (xc * xc + yc * yc) in
      let r_onset := Euler2d.outer_radius k - Euler2d.onset_width k in
      let px :=
        fst (Spec.keplerian_momentum (Euler2d.surface_density k)
               (Euler2d.central_mass k) xc yc) in
      let py :=
        snd (Spec.keplerian_momentum (Euler2d.surface_density k)
               (Euler2d.central_mass k) xc yc) in
      let u0 :=
        [ Euler2d.surface_density k; px; py;
          Euler2d.surface_pressure k / (Euler2d.GAMMA_LAW_INDEX - 1)
          + 0.5 * (px * px + py * py) / Euler2d.surface_density k ] in
      let rate :=
        Euler2d.driving_rate k * Spec.omega_outer (Euler2d.central_mass k) r_onset
        * Math.max2 r 1 in
      let cons' := Euler2d.buffer_source_term (Euler2d.Keplerian k) xc yc dt cons in
      (r <= r_onset -> cons' = cons)
      /\ (r > r_onset ->
          forall q : nat, (q < 4)%nat -> cons'.[q] = Spec.relax cons.[q] u0.[q] rate dt)
      /\ Euler2d.buffer_source_term Euler2d.None_ xc yc dt cons = cons)
  /\
  (forall (b : Cbdisodg2d.KeplerianBuffer) (xc yc : R) (cons cons_dot : list R),
      let r := sqrt (xc * xc + yc * yc) in
      let r_onset := Cbdisodg2d.outer_radius b - Cbdisodg2d.onset_width b in
      let u0 :=
        [ Cbdisodg2d.surface_density b;
          fst (Spec.keplerian_momentum (Cbdisodg2d.surface_density b)
                 (Cbdisodg2d.central_mass b) xc yc);
          snd (Spec.keplerian_momentum (Cbdisodg2d.surface_density b)
                 (Cbdisodg2d.central_mass b) xc yc) ] in
      let rate :=
        Cbdisodg2d.driving_rate b * Spec.omega_outer (Cbdisodg2d.central_mass b) r_onset
        * Spec.linear_ramp r r_onset (Cbdisodg2d.outer_radius b) in
      let cons_dot' := Cbdisodg2d.buffer_source_term b xc yc cons cons_dot in
      (Cbdisodg2d.is_enabled b = 0%Z \/ r <= r_onset -> cons_dot' = cons_dot)
      /\ (Cbdisodg2d.is_enabled b <> 0%Z -> r > r_onset ->
          forall q : nat, (q < 3)%nat ->
            cons_dot'.[q] = cons_dot.[q] - (cons.[q] - u0.[q]) * rate))
  /\
  (forall ni nj patch_xl patch_xr patch_yl patch_yr weights0 weights1 weights2
          m1 m2 cs2 mach_squared eos_type nu rk_param dt velocity_ceiling
          sd cm dr ro ow en sd' cm' dr' ro' ow' en',
      Cbdisodg2d.cbdisodg_2d_advance_rk ni nj patch_xl patch_xr patch_yl patch_yr
        weights0 weights1 weights2 sd cm dr ro ow en
        m1 m2 cs2 mach_squared eos_type nu rk_param dt velocity_ceiling
      = Cbdisodg2d.cbdisodg_2d_advance_rk ni nj patch_xl patch_xr patch_yl patch_yr
          weights0 weights1 weights2 sd' cm' dr' ro' ow' en'
          m1 m2 cs2 mach_squared eos_type nu rk_param dt velocity_ceiling).
Proof.
  split; [| split; [| split]].
  - intros k xc yc dt cons. cbv zeta.
    destruct (iso2d_buffer k xc yc dt cons) as [H1 H2].
    split; [exact H1 |]. split; [exact H2 | reflexivity].
  - intros k xc yc dt cons. cbv zeta.
    destruct (euler2d_buffer k xc yc dt cons) as [H1 H2].
    split; [exact H1 |]. split; [exact H2 | reflexivity].
  - intros b xc yc cons cons_dot. apply cbdisodg2d_buffer.
  - reflexivity.
Qed.

(** The zone of the counterexample lies in the buffer of iso2d; its density
    is relaxed with the ramp [max(r, 1)]. *)
Lemma keplerian_buffer_update_witness :
  let k := Iso2d.mkKeplerianBuffer 1 64 1 6 2 in
  (Iso2d.buffer_source_term (Iso2d.Keplerian k) 3 4 0.1 [2; 0; 0]).[0]
  = Spec.relax 2 1 (1 * Spec.omega_outer 64 (6 - 2) * Math.max2 (sqrt (3 * 3 + 4 * 4)) 1) 0.1.
Proof.
  cbv zeta.
  pose proof (proj1 keplerian_buffer_update (Iso2d.mkKeplerianBuffer 1 64 1 6 2)
                3 4 0.1 [2; 0; 0]) as H.
  cbv zeta in H.
  destruct H as [_ [H _]].
  apply (H ltac:(cbn [Iso2d.outer_radius Iso2d.onset_width];
                 replace (3 * 3 + 4 * 4) with (5 * 5) by ring;
                 rewrite sqrt_square by lra; lra) 0%nat ltac:(lia)).
Defined.

(** ** Array writes *)

Lemma length_upd (a : list R) (i : nat) (v : R) : length (upd a i v) = length a.
Proof.
  revert i. induction a as [| h t IH]; intros [| i]; cbn [upd length]; auto.
Qed.

Lemma nth_upd_same (a : list R) (i : nat) (v : R) :
  (i < length a)%nat -> (upd a i v).[i] = v.
Proof.
  revert i. induction a as [| h t IH]; intros [| i] H; cbn [upd nth length] in *;
    try lia; auto.
  apply IH. lia.
Qed.

Lemma nth_upd_other (a : list R) (i j : nat) (v : R) :
  i <> j -> (upd a j v).[i] = a.[i].
Proof.
  revert i j. induction a as [| h t IH]; intros [| i] [| j] H; cbn [upd nth];
    try reflexivity; try congruence.
  apply IH. congruence.
Qed.

(** A loop that stores [f k] at index [k] for each [k] of [ks]. *)
Lemma store_loop (f : nat -> R) (ks : list nat) :
  forall (a : list R) (i : nat),
    length (fold_left (fun a k => upd a k (f k)) ks a) = length a
    /\ (fold_left (fun a k => upd a k (f k)) ks a).[i]
       = if (existsb (Nat.eqb i) ks && (i <? length a)%nat)%bool then f i else a.[i].
Proof.
  induction ks as [| k ks IH]; intros a i; cbn [fold_left existsb].
  - split; reflexivity.
  - destruct (IH (upd a k (f k)) i) as [Hlen Hnth].
    rewrite Hlen, Hnth, length_upd. split; [reflexivity |].
    destruct (existsb (Nat.eqb i) ks); [rewrite orb_true_r | rewrite orb_false_r]; cbn [andb].
    + destruct (i <? length a)%nat eqn:E; [reflexivity |].
      destruct (Nat.eq_dec i k) as [-> | Hne].
      * apply Nat.ltb_ge in E. rewrite !nth_overflow; [reflexivity | lia |].
        rewrite length_upd. lia.
      * apply nth_upd_other. exact Hne.
    + destruct (i =? k)%nat eqn:Ek; cbn [andb].
      * apply Nat.eqb_eq in Ek. subst k.
        destruct (i <? length a)%nat eqn:E.
        -- apply Nat.ltb_lt in E. apply nth_upd_same. exact E.
        -- apply Nat.ltb_ge in E. rewrite !nth_overflow; [reflexivity | lia |].
           rewrite length_upd. lia.
      * apply Nat.eqb_neq in Ek. apply nth_upd_other. exact Ek.
Qed.

Lemma existsb_eqb_seq (i n : nat) : existsb (Nat.eqb i) (seq 0 n) = (i <? n)%nat.
Proof.
  apply eq_true_iff_eq. rewrite existsb_exists, Nat.ltb_lt. split.
  - intros [k [Hin Hk]]. apply in_seq in Hin. apply Nat.eqb_eq in Hk. lia.
  - intros H. exists i. split; [apply in_seq; lia | apply Nat.eqb_refl].
Qed.

(** ** The CFL wavespeed of srhd_1d *)

(** C8.  For every zone [i] of the loop, [srhd_1d_max_wavespeeds] stores
    [max(|lambda-|, |lambda+|)] of the outer wavespeeds of the zone's own
    primitive state, read at block [i + 2]: the wavespeeds of the boosted
    state are overwritten before they are used, so the stored array is the
    same for every two values of [adot].  Entries past [num_zones] are not
    written. *)
Theorem max_wavespeeds_ignore_adot :
  forall (num_zones : nat) (face_positions primitive wavespeed : list R) (adot : R),
    (forall adot' : R,
        Srhd1d.srhd_1d_max_wavespeeds num_zones face_positions primitive wavespeed adot
        = Srhd1d.srhd_1d_max_wavespeeds num_zones face_positions primitive wavespeed adot')
    /\ (forall i : nat,
           let out :=
             Srhd1d.srhd_1d_max_wavespeeds num_zones face_positions primitive wavespeed adot in
           let p := Srhd1d.block primitive ((i + 2) * Srhd1d.NCONS) in
           let ai := Srhd1d.primitive_to_outer_wavespeeds p in
           ((i < num_zones)%nat /\ (i < length wavespeed)%nat ->
            out.[i] = Rmax (Rabs ai.[0]) (Rabs ai.[1]))
           /\ ((num_zones <= i)%nat -> out.[i] = wavespeed.[i])).
Proof.
  intros n fp prim ws adot. split.
  - intros adot'. reflexivity.
  - intros i. cbv zeta.
    unfold Srhd1d.srhd_1d_max_wavespeeds, Srhd1d.FOR_EACH_1D.
    destruct (store_loop (Srhd1d.max_wavespeeds_zone fp prim adot) (seq 0 n) ws i)
      as [_ Hnth].
    rewrite Hnth, existsb_eqb_seq. split.
    + intros [Hi Hl].
      apply Nat.ltb_lt in Hi, Hl. rewrite Hi, Hl. cbn [andb].
      unfold Srhd1d.max_wavespeeds_zone. cbv zeta.
      rewrite max2_Rmax. reflexivity.
    + intros Hi. apply Nat.ltb_ge in Hi. rewrite Hi. reflexivity.
Qed.

(** One zone at rest with [rho = p = 1]: the stored speed is that of the
    unboosted state, whatever [adot] is. *)
Lemma max_wavespeeds_ignore_adot_witness :
  let primitive := [0; 0; 0; 0; 0; 0; 0; 0; 1; 0; 1; 0; 0; 0; 0; 0; 0; 0; 0; 0] in
  let ai := Srhd1d.primitive_to_outer_wavespeeds [1; 0; 1; 0] in
  (Srhd1d.srhd_1d_max_wavespeeds 1 [0; 1] primitive [0] 0.5).[0]
  = Rmax (Rabs ai.[0]) (Rabs ai.[1]).
Proof.
  cbv zeta.
  apply (proj1 (proj2 (max_wavespeeds_ignore_adot 1 [0; 1]
           [0; 0; 0; 0; 0; 0; 0; 0; 1; 0; 1; 0; 0; 0; 0; 0; 0; 0; 0; 0] [0] 0.5) 0%nat)).
  cbn [length]. lia.
Defined.

(** ** The HLLC contact speed *)

Lemma hllc_root (a b c : R) :
  (1e-10 <= Rabs a -> 0 <= b * b - 4 * a * c ->
   let v := Spec.hllc_contact_speed a b c in
   v = (- b - sqrt (b * b - 4 * a * c)) / (2 * a) /\ a * (v * v) + b * v + c = 0)
  /\ (Rabs a < 1e-10 -> b <> 0 ->
      let v := Spec.hllc_contact_speed a b c in
      v = - c / b /\ b * v + c = 0).
Proof.
  unfold Spec.hllc_contact_speed. split; cbv zeta.
  - intros Ha Hd. destruct (Rlt_dec (Rabs a) 1e-10) as [Hl | _]; [lra |].
    split; [reflexivity |].
    assert (Ha0 : a <> 0).
    { intros E. rewrite E, Rabs_R0 in Ha. lra. }
    set (d := sqrt (b * b - 4 * a * c)).
    assert (Hdd : d * d = b * b - 4 * a * c) by (apply sqrt_sqrt; exact Hd).
    replace (a * ((- b - d) / (2 * a) * ((- b - d) / (2 * a))) + b * ((- b - d) / (2 * a)) + c)
      with ((d * d - (b * b - 4 * a * c)) / (4 * a)) by (field; exact Ha0).
    rewrite Hdd. field. exact Ha0.
  - intros Ha Hb. destruct (Rlt_dec (Rabs a) 1e-10) as [_ | Hn]; [| lra].
    split; [reflexivity | field; exact Hb].
Qed.


(** C6.  When the face speed lies in [[am, ap]], [riemann_hllc] forms
    [u_hll] and [f_hll], takes [a = f_hll[2] + f_hll[0]] (tau and D),
    [b = -(u_hll[2] + u_hll[0] + f_hll[1])], [c = u_hll[1]], the contact
    speed [v*] as the minus-root of [a v^2 + b v + c = 0], or [- c / b] when
    [|a| < 1e-10], and the star pressure [p* = - a v* + f_hll[1]]; it returns
    the flux of the left star state when [v_face < v*] and of the right star
    state otherwise.  The minus-root solves the quadratic when the
    discriminant is not negative, and [- c / b] solves [b v + c = 0] when
    [b <> 0]. *)
Theorem hllc_contact_and_star_state :
  forall (pl pr : list R) (v_face : R),
    let ul := Srhd1d.primitive_to_conserved pl 1 in
    let ur := Srhd1d.primitive_to_conserved pr 1 in
    let fl := Srhd1d.primitive_to_flux pl ul in
    let fr := Srhd1d.primitive_to_flux pr ur in
    let al := Srhd1d.primitive_to_outer_wavespeeds pl in
    let ar := Srhd1d.primitive_to_outer_wavespeeds pr in
    let am := Math.min2 al.[0] ar.[0] in
    let ap := Math.max2 al.[1] ar.[1] in
    am <= v_face <= ap ->
    let u_hll := fun q => (ur.[q] * ap - ul.[q] * am + (fl.[q] - fr.[q])) / (ap - am) in
    let f_hll :=
      fun q => (fl.[q] * ap - fr.[q] * am - (ul.[q] - ur.[q]) * ap * am) / (ap - am) in
    let a := f_hll 2%nat + f_hll 0%nat in
    let b := - (u_hll 2%nat + u_hll 0%nat + f_hll 1%nat) in
    let c := u_hll 1%nat in
    let v_star := Spec.hllc_contact_speed a b c in
    let p_star := - a * v_star + f_hll 1%nat in
    Srhd1d.riemann_hllc pl pr v_face
    = (if Rlt_dec v_face v_star
       then Spec.hllc_star_flux ul (Srhd1d.primitive_to_beta_component pl)
              am v_star p_star v_face
       else Spec.hllc_star_flux ur (Srhd1d.primitive_to_beta_component pr)
              ap v_star p_star v_face)
    /\ (1e-10 <= Rabs a -> 0 <= b * b - 4 * a * c ->
        v_star = (- b - sqrt (b * b - 4 * a * c)) / (2 * a)
        /\ a * (v_star * v_star) + b * v_star + c = 0)
    /\ (Rabs a < 1e-10 -> b <> 0 -> v_star = - c / b /\ b * v_star + c = 0).
Proof.
  intros pl pr v_face. cbv zeta. intros [Hlo Hhi].
  split.
  - unfold Srhd1d.riemann_hllc. cbv zeta.
    replace 1.0 with 1 by lra.
    destruct (Rlt_dec v_face _) as [H | _]; [lra |].
    destruct (Rgt_dec v_face _) as [H | _]; [lra |].
    rewrite !nth_tabulate by (unfold Srhd1d.NCONS; lia).
    unfold Spec.hllc_contact_speed, Spec.hllc_star_flux, Math.fabs. cbv zeta.
    replace 4.0 with 4 by lra. replace 2.0 with 2 by lra.
    reflexivity.
  - split; apply hllc_root.
Qed.

(** The outer wavespeeds of the state at rest with [rho = p = 1]. *)
Lemma srhd1d_rest_wavespeeds :
  (Srhd1d.primitive_to_outer_wavespeeds [1; 0; 1; 0]).[0] <= 0
  /\ 0 <= (Srhd1d.primitive_to_outer_wavespeeds [1; 0; 1; 0]).[1].
Proof.
  unfold Srhd1d.primitive_to_outer_wavespeeds, Srhd1d.primitive_to_beta_component,
    Srhd1d.primitive_to_lorentz_factor, Srhd1d.primitive_to_gamma_beta_squared.
  cbv zeta. cbn [nth].
  replace (0 * 0) with 0 by ring.
  replace (0 / sqrt (1.0 + 0)) with 0 by (unfold Rdiv; ring).
  replace (0 / (1.0 + 0)) with 0 by (unfold Rdiv; ring).
  set (a2 := Srhd1d.primitive_to_sound_speed_squared [1; 0; 1; 0]).
  set (k0 := sqrt _).
  assert (Hk : 0 <= k0) by apply sqrt_pos.
  replace (1.0 - 0 * a2) with 1 by lra.
  split; lra.
Qed.

(** Two equal states at rest and a face at rest: the face lies between the
    outer speeds, and the flux is that of a star state. *)
Lemma hllc_contact_and_star_state_witness :
  let pl := [1; 0; 1; 0] in
  let ul := Srhd1d.primitive_to_conserved pl 1 in
  let fl := Srhd1d.primitive_to_flux pl ul in
  let al := Srhd1d.primitive_to_outer_wavespeeds pl in
  let am := Math.min2 al.[0] al.[0] in
  let ap := Math.max2 al.[1] al.[1] in
  let u_hll := fun q => (ul.[q] * ap - ul.[q] * am + (fl.[q] - fl.[q])) / (ap - am) in
  let f_hll :=
    fun q => (fl.[q] * ap - fl.[q] * am - (ul.[q] - ul.[q]) * ap * am) / (ap - am) in
  let a := f_hll 2%nat + f_hll 0%nat in
  let b := - (u_hll 2%nat + u_hll 0%nat + f_hll 1%nat) in
  let c := u_hll 1%nat in
  let v_star := Spec.hllc_contact_speed a b c in
  let p_star := - a * v_star + f_hll 1%nat in
  Srhd1d.riemann_hllc pl pl 0
  = (if Rlt_dec 0 v_star
     then Spec.hllc_star_flux ul (Srhd1d.primitive_to_beta_component pl)
            am v_star p_star 0
     else Spec.hllc_star_flux ul (Srhd1d.primitive_to_beta_component pl)
            ap v_star p_star 0).
Proof.
  cbv zeta.
  apply (hllc_contact_and_star_state [1; 0; 1; 0] [1; 0; 1; 0] 0).
  destruct srhd1d_rest_wavespeeds as [Hm Hp].
  split.
  - pose proof (min2_le_l (Srhd1d.primitive_to_outer_wavespeeds [1; 0; 1; 0]).[0]
                          (Srhd1d.primitive_to_outer_wavespeeds [1; 0; 1; 0]).[0]).
    lra.
  - pose proof (max2_ge_l (Srhd1d.primitive_to_outer_wavespeeds [1; 0; 1; 0]).[1]
                          (Srhd1d.primitive_to_outer_wavespeeds [1; 0; 1; 0]).[1]).
    lra.
Defined.

(** ** The Newton inversion of srhd_1d *)

Section NewtonLoop.

(** The tolerance, the adiabatic index and the volume-specific conserved
    mass, energy and squared momentum of one inversion. *)
Variables tol gm m tau ss : R.

(** The loop body computes the Newton step of the specification. *)
Lemma newton_pass_step (p : R) :
  Srhd1d.newton_pass gm m tau ss p = Spec.newton_step gm m tau ss p.
Proof.
  unfold Srhd1d.newton_pass, Spec.newton_step. cbv zeta.
  rewrite min2_Rmin.
  replace 1.0 with 1 by lra.
  replace (ss / (tau + p + m) / (tau + p + m)) with (ss / ((tau + p + m) * (tau + p + m))).
  - reflexivity.
  - unfold Rdiv. rewrite Rinv_mult. ring.
Qed.

(** Started with the counter at [it] and enough passes left to reach the
    cap, the loop leaves at the first pass that converges or is entered with
    the counter at the cap, with the values of that pass. *)
Lemma newton_loop_exit :
  forall (fuel it : nat) (p : R),
    (it + fuel = Srhd1d.newton_iter_max)%nat ->
    exists j : nat,
      (j <= fuel)%nat
      /\ (forall i, (i < j)%nat -> ~ Rabs (Spec.newton_residual gm m tau ss p i) < tol)
      /\ (Rabs (Spec.newton_residual gm m tau ss p j) < tol \/ j = fuel)
      /\ Srhd1d.newton_loop tol gm m tau ss fuel it p
         = Srhd1d.mkNewtonExit (it + j)
             (Spec.newton_pressure gm m tau ss p (S j))
             (Spec.newton_residual gm m tau ss p j)
             (snd (Spec.newton_step gm m tau ss (Spec.newton_pressure gm m tau ss p j))).
Proof.
  induction fuel as [| fuel IH]; intros it p Hcap.
  - exists 0%nat. split; [lia |]. split; [intros i Hi; lia |]. split; [right; reflexivity |].
    rewrite newton_loop_eq, newton_pass_step.
    unfold Spec.newton_residual. cbn [Spec.newton_pressure].
    destruct (Spec.newton_step gm m tau ss p) as [[f p'] w]. cbn [fst snd].
    replace (it =? Srhd1d.newton_iter_max)%nat with true
      by (symmetry; apply Nat.eqb_eq; lia).
    rewrite orb_true_r, Nat.add_0_r. reflexivity.
  - rewrite newton_loop_eq, newton_pass_step.
    destruct (Spec.newton_step gm m tau ss p) as [[f p'] w] eqn:Estep.
    replace (it =? Srhd1d.newton_iter_max)%nat with false
      by (symmetry; apply Nat.eqb_neq; lia).
    rewrite orb_false_r.
    unfold Math.c_lt, Math.fabs.
    destruct (Rlt_dec (Rabs f) tol) as [Hc | Hn].
    + exists 0%nat. split; [lia |]. split; [intros i Hi; lia |].
      unfold Spec.newton_residual. cbn [Spec.newton_pressure]. rewrite Estep. cbn [fst snd].
      split; [left; exact Hc |]. rewrite Nat.add_0_r. reflexivity.
    + destruct (IH (it + 1)%nat p' ltac:(lia)) as [j [Hj [Hbefore [Hat Heq]]]].
      assert (Hshift : forall k, Spec.newton_pressure gm m tau ss p' k
                                 = Spec.newton_pressure gm m tau ss p (S k)).
      { induction k as [| k IHk]; cbn [Spec.newton_pressure].
        - rewrite Estep. reflexivity.
        - rewrite IHk. reflexivity. }
      assert (Hres : forall k, Spec.newton_residual gm m tau ss p' k
                               = Spec.newton_residual gm m tau ss p (S k)).
      { intros k. unfold Spec.newton_residual. rewrite Hshift. reflexivity. }
      exists (S j). split; [lia |]. split.
      * intros [| i] Hi.
        -- unfold Spec.newton_residual. cbn [Spec.newton_pressure]. rewrite Estep. exact Hn.
        -- rewrite <- Hres. apply Hbefore. lia.
      * split.
        -- destruct Hat as [Hat | Hat]; [left; rewrite <- Hres; exact Hat | right; lia].
        -- rewrite Heq. rewrite !Hshift, Hres.
           replace (it + 1 + j)%nat with (it + S j)%nat by lia. reflexivity.
Qed.

End NewtonLoop.

(** The outcomes of [conserved_to_primitive], by the pass [k] at which the
    loop is left. *)
Lemma srhd1d_c2p_cases (exec_mode : Srhd1d.ExecMode) (cons prim : list R) (dv coordinate : R) :
  let D := cons.[0] / dv in
  let tau := cons.[2] / dv in
  let S2 := cons.[1] / dv * cons.[1] / dv in
  let tol := 1e-12 * (D + tau) in
  let f := Spec.newton_residual Srhd1d.ADIABATIC_GAMMA D tau S2 prim.[2] in
  let r := Srhd1d.conserved_to_primitive exec_mode cons prim dv coordinate in
  exists k : nat,
    (k <= 500)%nat
    /\ (forall i, (i < k)%nat -> ~ Rabs (f i) < tol)
    /\ (Rabs (f k) < tol \/ k = 500%nat)
    /\ (exec_mode = Srhd1d.EXEC_GPU -> exists out, r = inr out)
    /\ (exec_mode <> Srhd1d.EXEC_GPU ->
        (k = 500%nat ->
         r = inl (Srhd1d.ReachedMaxIteration coordinate cons.[0] cons.[1] cons.[2] (f 500%nat)))
        /\ (k <> 500%nat -> cons.[2] <= 0 ->
            r = inl (Srhd1d.NonPositiveEnergy cons.[2] coordinate))
        /\ (k <> 500%nat -> 0 < cons.[2] ->
            (exists pres, pres <= 0 /\ r = inl (Srhd1d.NonPositivePressure pres coordinate))
            \/ (exists out, 0 < out.[2] /\ r = inr out))).
Proof.
  cbv zeta.
  set (D := cons.[0] / dv). set (tau := cons.[2] / dv).
  set (S2 := cons.[1] / dv * cons.[1] / dv).
  unfold Srhd1d.conserved_to_primitive. cbv zeta. fold D tau S2.
  replace (1e-12 * (cons.[0] + cons.[2]) / dv) with (1e-12 * (D + tau))
    by (unfold D, tau, Rdiv; ring).
  destruct (newton_loop_exit (1e-12 * (D + tau)) Srhd1d.ADIABATIC_GAMMA D tau S2
              Srhd1d.newton_iter_max 0 prim.[2] eq_refl)
    as [k [Hk [Hbefore [Hat Heq]]]].
  rewrite Heq. cbn [Srhd1d.exit_iteration Srhd1d.exit_p Srhd1d.exit_f Srhd1d.exit_w0 Nat.add].
  exists k. split; [exact Hk |]. split; [exact Hbefore |]. split; [exact Hat |].
  set (out := if Rlt_dec _ _ then _ else _).
  split.
  - intros ->. exists out. reflexivity.
  - intros Hmode.
    assert (Hr : match exec_mode with
                 | Srhd1d.EXEC_GPU => inr out
                 | _ =>
                   if (k =? Srhd1d.newton_iter_max)%nat
                   then inl (Srhd1d.ReachedMaxIteration coordinate cons.[0] cons.[1] cons.[2]
                               (Spec.newton_residual Srhd1d.ADIABATIC_GAMMA D tau S2 prim.[2] k))
                   else if Rle_dec cons.[2] 0.0
                        then inl (Srhd1d.NonPositiveEnergy cons.[2] coordinate)
                        else if (Math.c_le out.[2] 0.0 || Math.c_ne out.[2] out.[2])%bool
                             then inl (Srhd1d.NonPositivePressure out.[2] coordinate)
                             else inr out
                 end
                 = if (k =? Srhd1d.newton_iter_max)%nat
                   then inl (Srhd1d.ReachedMaxIteration coordinate cons.[0] cons.[1] cons.[2]
                               (Spec.newton_residual Srhd1d.ADIABATIC_GAMMA D tau S2 prim.[2] k))
                   else if Rle_dec cons.[2] 0.0
                        then inl (Srhd1d.NonPositiveEnergy cons.[2] coordinate)
                        else if (Math.c_le out.[2] 0.0 || Math.c_ne out.[2] out.[2])%bool
                             then inl (Srhd1d.NonPositivePressure out.[2] coordinate)
                             else inr out).
    { destruct exec_mode; congruence. }
    rewrite Hr. clear Hr.
    split; [| split].
    + intros ->. reflexivity.
    + intros Hne Hle.
      replace (k =? Srhd1d.newton_iter_max)%nat with false
        by (symmetry; apply Nat.eqb_neq; exact Hne).
      destruct (Rle_dec cons.[2] 0.0); [reflexivity | lra].
    + intros Hne Hpos.
      replace (k =? Srhd1d.newton_iter_max)%nat with false
        by (symmetry; apply Nat.eqb_neq; exact Hne).
      destruct (Rle_dec cons.[2] 0.0); [lra |].
      unfold Math.c_le, Math.c_ne.
      destruct (Rle_dec out.[2] 0.0) as [Hp | Hp]; cbn [orb].
      * left. exists out.[2]. split; [lra | reflexivity].
      * destruct (Req_dec_T out.[2] out.[2]); [| congruence].
        right. exists out. split; [lra | reflexivity].
Qed.

(** C3, the claim as stated fails in a build for the GPU: the checks are
    compiled out, and an input with total energy [tau = -1 <= 0] is
    converted without any diagnostic. *)
Lemma srhd1d_gpu_build_reports_nothing :
  let cons := [1; 0; -1; 0] in
  cons.[2] <= 0
  /\ exists out : list R,
       Srhd1d.conserved_to_primitive Srhd1d.EXEC_GPU cons [1; 0; 1; 0] 1 0 = inr out.
Proof.
  cbv zeta. split; [cbn [nth]; lra |].
  destruct (srhd1d_c2p_cases Srhd1d.EXEC_GPU [1; 0; -1; 0] [1; 0; 1; 0] 1 0)
    as [k [_ [_ [_ [Hgpu _]]]]].
  apply Hgpu. reflexivity.
Qed.

(** A fatal outcome of the zone loop comes from one of its zones, and
    carries the physical position of the left face of that zone. *)
Lemma srhd1d_zone_loop_fatal
    (exec_mode : Srhd1d.ExecMode) (face_positions conserved : list R)
    (scale_factor : R) (coords : Z) (d : Srhd1d.Fatal) (ks : list nat) :
  forall st : Srhd1d.Fatal + list R,
    fold_left
      (fun st i =>
         match st with
         | inl d => inl d
         | inr primitive =>
             let p := Srhd1d.block primitive (Srhd1d.NCONS * (i + 2)) in
             let u := Srhd1d.block conserved (Srhd1d.NCONS * (i + 2)) in
             let yl := face_positions.[i] in
             let yr := face_positions.[i + 1] in
             let xl := yl * scale_factor in
             let xr := yr * scale_factor in
             let dv := Srhd1d.cell_volume coords xl xr in
             match Srhd1d.conserved_to_primitive exec_mode u p dv xl with
             | inl d => inl d
             | inr p' => inr (Srhd1d.store_block primitive (Srhd1d.NCONS * (i + 2)) p')
             end
         end) ks st = inl d ->
    st = inl d
    \/ exists i, In i ks /\ Srhd1d.fatal_coordinate d = face_positions.[i] * scale_factor.
Proof.
  induction ks as [| k ks IH]; intros st H; cbn [fold_left] in H.
  - left. exact H.
  - apply IH in H. destruct H as [H | [i [Hin Hi]]].
    + destruct st as [d0 | primitive]; [left; exact H |].
      right. exists k. split; [left; reflexivity |].
      cbv zeta in H.
      destruct (Srhd1d.conserved_to_primitive _ _ _ _ _) as [d1 | p'] eqn:E; [| discriminate].
      injection H as ->.
      destruct (srhd1d_c2p_cases exec_mode
                  (Srhd1d.block conserved (Srhd1d.NCONS * (k + 2)))
                  (Srhd1d.block primitive (Srhd1d.NCONS * (k + 2)))
                  (Srhd1d.cell_volume coords (face_positions.[k] * scale_factor)
                     (face_positions.[k + 1] * scale_factor))
                  (face_positions.[k] * scale_factor))
        as [j [_ [_ [_ [Hgpu Hcpu]]]]].
      cbv zeta in Hgpu, Hcpu. rewrite E in Hgpu, Hcpu.
      destruct (Srhd1d.ExecMode_eq_dec exec_mode Srhd1d.EXEC_GPU) as [Hm | Hm].
      * destruct (Hgpu Hm) as [out Hout]. discriminate.
      * destruct (Hcpu Hm) as [H500 [Hen Hpr]].
        destruct (Nat.eq_dec j 500) as [Hj | Hj].
        -- specialize (H500 Hj). injection H500 as ->. reflexivity.
        -- destruct (Rle_dec (Srhd1d.block conserved (Srhd1d.NCONS * (k + 2))).[2] 0)
             as [Hle | Hgt].
           ++ specialize (Hen Hj Hle). injection Hen as ->. reflexivity.
           ++ destruct (Hpr Hj ltac:(lra)) as [[pres [_ Hd]] | [out [_ Hout]]];
                [injection Hd as ->; reflexivity | discriminate].
    + right. exists i. split; [right; exact Hin | exact Hi].
Qed.

(** C3, amended.  [conserved_to_primitive] of srhd_1d iterates the Newton
    step of section 4.2 on the pressure, from the pressure found in [prim],
    and leaves the loop at the first pass [k] whose residual has
    [|f| < 1e-12 * (D + tau)] ([D] and [tau] the conserved mass and energy
    over [dv]), or at pass 500.  In a build that is not for the GPU it
    reports the fatal error "reached max iteration", with the coordinate it
    was given, exactly when none of the passes 0..499 converged; otherwise
    it reports a fatal diagnostic when [tau <= 0], and when the recovered
    pressure is [<= 0]: it returns only with [tau > 0] and a positive
    pressure.  Every diagnostic carries the coordinate, which in
    [srhd_1d_conserved_to_primitive] is the physical position of the left
    face of the zone.  A build for the GPU reports nothing. *)
Theorem newton_inversion_diagnostics :
  forall (exec_mode : Srhd1d.ExecMode) (cons prim : list R) (dv coordinate : R),
    let D := cons.[0] / dv in
    let tau := cons.[2] / dv in
    let S2 := cons.[1] / dv * cons.[1] / dv in
    let tol := 1e-12 * (D + tau) in
    let f := Spec.newton_residual Srhd1d.ADIABATIC_GAMMA D tau S2 prim.[2] in
    let r := Srhd1d.conserved_to_primitive exec_mode cons prim dv coordinate in
    (exists k : nat,
        (k <= 500)%nat
        /\ (forall i, (i < k)%nat -> ~ Rabs (f i) < tol)
        /\ (Rabs (f k) < tol \/ k = 500%nat)
        /\ Srhd1d.newton_loop (1e-12 * (cons.[0] + cons.[2]) / dv) Srhd1d.ADIABATIC_GAMMA
             D tau S2 Srhd1d.newton_iter_max 0 prim.[2]
           = Srhd1d.mkNewtonExit k
               (Spec.newton_pressure Srhd1d.ADIABATIC_GAMMA D tau S2 prim.[2] (S k))
               (f k)
               (snd (Spec.newton_step Srhd1d.ADIABATIC_GAMMA D tau S2
                       (Spec.newton_pressure Srhd1d.ADIABATIC_GAMMA D tau S2 prim.[2] k))))
    /\ (exec_mode = Srhd1d.EXEC_GPU -> exists out, r = inr out)
    /\ (exec_mode <> Srhd1d.EXEC_GPU ->
        ((forall i, (i < 500)%nat -> ~ Rabs (f i) < tol)
         <-> r = inl (Srhd1d.ReachedMaxIteration coordinate cons.[0] cons.[1] cons.[2]
                        (f 500%nat)))
        /\ (cons.[2] <= 0 -> exists d, r = inl d)
        /\ (forall out, r = inr out ->
            0 < cons.[2] /\ 0 < out.[2]
            /\ exists k, (k < 500)%nat /\ Rabs (f k) < tol)
        /\ (forall d, r = inl d -> Srhd1d.fatal_coordinate d = coordinate))
    /\ (forall num_zones face_positions scale_factor coords d,
           Srhd1d.srhd_1d_conserved_to_primitive exec_mode num_zones face_positions
             cons prim scale_factor coords = inl d ->
           exists i, (i < num_zones)%nat
                     /\ Srhd1d.fatal_coordinate d = face_positions.[i] * scale_factor).
Proof.
  intros exec_mode cons prim dv coordinate. cbv zeta.
  split; [| split; [| split]].
  - replace (1e-12 * (cons.[0] + cons.[2]) / dv)
      with (1e-12 * (cons.[0] / dv + cons.[2] / dv)) by (unfold Rdiv; ring).
    destruct (newton_loop_exit (1e-12 * (cons.[0] / dv + cons.[2] / dv))
                Srhd1d.ADIABATIC_GAMMA (cons.[0] / dv) (cons.[2] / dv)
                (cons.[1] / dv * cons.[1] / dv)
                Srhd1d.newton_iter_max 0 prim.[2] eq_refl)
      as [k [Hk [Hbefore [Hat Heq]]]].
    exists k. repeat split; assumption.
  - destruct (srhd1d_c2p_cases exec_mode cons prim dv coordinate)
      as [k [_ [_ [_ [Hgpu _]]]]].
    exact Hgpu.
  - intros Hmode.
    destruct (srhd1d_c2p_cases exec_mode cons prim dv coordinate)
      as [k [Hk [Hbefore [Hat [_ Hcpu]]]]].
    cbv zeta in Hbefore, Hat, Hcpu.
    destruct (Hcpu Hmode) as [H500 [Hen Hpr]]. clear Hcpu.
    destruct (Nat.eq_dec k 500) as [Ek | Ek].
    + specialize (H500 Ek). subst k.
      split; [| split; [| split]].
      * split; [intros _; exact H500 | intros _; exact Hbefore].
      * intros _. eexists. exact H500.
      * intros out Hout. rewrite H500 in Hout. discriminate.
      * intros d Hd. rewrite H500 in Hd. injection Hd as <-. reflexivity.
    + assert (Hconv : Rabs (Spec.newton_residual Srhd1d.ADIABATIC_GAMMA (cons.[0] / dv)
                              (cons.[2] / dv) (cons.[1] / dv * cons.[1] / dv) prim.[2] k)
                      < 1e-12 * (cons.[0] / dv + cons.[2] / dv))
        by (destruct Hat as [Hat | Hat]; [exact Hat | contradiction]).
      assert (Hlt : (k < 500)%nat) by lia.
      split; [| split; [| split]].
      * split.
        -- intros Hall. exfalso. exact (Hall k Hlt Hconv).
        -- intros Hr. exfalso.
           destruct (Rle_dec cons.[2] 0) as [Hle | Hgt].
           ++ rewrite (Hen Ek Hle) in Hr. discriminate.
           ++ destruct (Hpr Ek ltac:(lra)) as [[pres [_ Hd]] | [out [_ Hout]]];
                rewrite Hr in *; discriminate.
      * intros Hle. eexists. exact (Hen Ek Hle).
      * intros out Hout.
        destruct (Rle_dec cons.[2] 0) as [Hle | Hgt].
        -- rewrite (Hen Ek Hle) in Hout. discriminate.
        -- destruct (Hpr Ek ltac:(lra)) as [[pres [_ Hd]] | [out0 [Hpos Hout0]]].
           ++ rewrite Hd in Hout. discriminate.
           ++ rewrite Hout0 in Hout. injection Hout as <-.
              split; [lra |]. split; [exact Hpos |].
              exists k. split; assumption.
      * intros d Hd.
        destruct (Rle_dec cons.[2] 0) as [Hle | Hgt].
        -- rewrite (Hen Ek Hle) in Hd. injection Hd as <-. reflexivity.
        -- destruct (Hpr Ek ltac:(lra)) as [[pres [_ Hd0]] | [out0 [_ Hout0]]].
           ++ rewrite Hd0 in Hd. injection Hd as <-. reflexivity.
           ++ rewrite Hout0 in Hd. discriminate.
  - intros num_zones face_positions scale_factor coords d H.
    unfold Srhd1d.srhd_1d_conserved_to_primitive, Srhd1d.FOR_EACH_1D in H.
    apply srhd1d_zone_loop_fatal in H.
    destruct H as [H | [i [Hin Hi]]]; [discriminate |].
    exists i. split; [apply in_seq in Hin; lia | exact Hi].
Qed.

(** In a build for the CPU, the input of the counterexample, with
    [tau = -1], ends in a fatal diagnostic that carries the coordinate. *)
Lemma newton_inversion_diagnostics_witness :
  exists d : Srhd1d.Fatal,
    Srhd1d.conserved_to_primitive Srhd1d.EXEC_CPU [1; 0; -1; 0] [1; 0; 1; 0] 1 0 = inl d.
Proof.
  destruct (newton_inversion_diagnostics Srhd1d.EXEC_CPU [1; 0; -1; 0] [1; 0; 1; 0] 1 0)
    as [_ [_ [Hcpu _]]].
  apply Hcpu.
  - discriminate.
  - cbn [nth]. lra.
Defined.

(** ** The update of the DG weights *)

Lemma nth_ptr (a : list R) (off : Z) (n : nat) :
  (Cbdisodg2d.ptr a off).[n] = a.[Z.to_nat off + n].
Proof.
  unfold Cbdisodg2d.ptr. generalize (Z.to_nat off) as k. intros k. revert a.
  induction k as [| k IH]; intros a; cbn [skipn Nat.add].
  - reflexivity.
  - destruct a as [| h t]; cbn [nth].
    + destruct n; reflexivity.
    + apply IH.
Qed.

Lemma weight_index_eq (nj i j q l : nat) :
  Cbdisodg2d.weight_index nj i j q l
  = (18 * (nj + 2) * (i + 1) + 18 * (j + 1) + 6 * q + l)%nat.
Proof.
  unfold Cbdisodg2d.weight_index, Cbdisodg2d.zone_offset, Cbdisodg2d.NCONS, Cbdisodg2d.NPOLY.
  cbv zeta. lia.
Qed.

Lemma weight_index_inj (nj i j q l i' j' q' l' : nat) :
  (j < nj)%nat -> (j' < nj)%nat -> (q < 3)%nat -> (q' < 3)%nat ->
  (l < 6)%nat -> (l' < 6)%nat ->
  Cbdisodg2d.weight_index nj i j q l = Cbdisodg2d.weight_index nj i' j' q' l' ->
  i = i' /\ j = j' /\ q = q' /\ l = l'.
Proof.
  intros Hj Hj' Hq Hq' Hl Hl'. rewrite !weight_index_eq. intros H.
  assert (i = i') by nia. subst i'.
  assert (j = j') by nia. subst j'.
  assert (q = q') by lia. subst q'.
  repeat split. lia.
Qed.

(** The update loop of a zone is three stores, in the cell-average weights
    of the three components. *)
Lemma advance_rk_zone_writes (P : Cbdisodg2d.Params) (ni nj : nat) (pxl pxr pyl pyr : R)
    (weights0 weights1 weights2 : list R) (i j : nat) :
  Cbdisodg2d.advance_rk_zone P ni nj pxl pxr pyl pyr weights0 weights1 weights2 i j
  = upd (upd (upd weights2
                (Cbdisodg2d.weight_index nj i j 0 0)
                (Cbdisodg2d.stored_weight P ni nj pxl pxr pyl pyr weights0 weights1 i j 0))
           (Cbdisodg2d.weight_index nj i j 1 0)
           (Cbdisodg2d.stored_weight P ni nj pxl pxr pyl pyr weights0 weights1 i j 1))
      (Cbdisodg2d.weight_index nj i j 2 0)
      (Cbdisodg2d.stored_weight P ni nj pxl pxr pyl pyr weights0 weights1 i j 2).
Proof.
  unfold Cbdisodg2d.advance_rk_zone, Cbdisodg2d.stored_weight, Cbdisodg2d.weight_index.
  cbv zeta.
  cbn [fold_left seq Cbdisodg2d.NCONS Cbdisodg2d.NPOLY Nat.mul Nat.add].
  rewrite !nth_ptr.
  replace 1.0 with 1 by lra.
  reflexivity.
Qed.

Lemma upd3_nth (a : list R) (k0 k1 k2 : nat) (v0 v1 v2 : R) (n : nat) :
  (k0 < k1)%nat -> (k1 < k2)%nat -> (k2 < length a)%nat ->
  (upd (upd (upd a k0 v0) k1 v1) k2 v2).[n]
  = if (n =? k0)%nat then v0
    else if (n =? k1)%nat then v1
    else if (n =? k2)%nat then v2
    else a.[n].
Proof.
  intros H01 H12 Hk.
  destruct (n =? k0)%nat eqn:E0.
  { apply Nat.eqb_eq in E0. subst n.
    rewrite !nth_upd_other by lia. apply nth_upd_same. lia. }
  destruct (n =? k1)%nat eqn:E1.
  { apply Nat.eqb_eq in E1. subst n.
    rewrite nth_upd_other by lia. apply nth_upd_same. rewrite length_upd. lia. }
  destruct (n =? k2)%nat eqn:E2.
  { apply Nat.eqb_eq in E2. subst n.
    apply nth_upd_same. rewrite !length_upd. lia. }
  apply Nat.eqb_neq in E0, E1, E2.
  rewrite !nth_upd_other by assumption. reflexivity.
Qed.

(** A loop whose body stores [val x n] at the indices [n] of [idx x] and
    nothing else: an index holds the value of the last body that stored
    there. *)
Lemma fold_writes_nth {A : Type} (body : A -> list R -> list R)
    (idx : A -> list nat) (val : A -> nat -> R) (xs : list A) (a : list R) :
  (forall x b, In x xs -> length b = length a ->
      length (body x b) = length a
      /\ forall n, (body x b).[n]
                   = if existsb (Nat.eqb n) (idx x) then val x n else b.[n]) ->
  length (fold_left (fun b x => body x b) xs a) = length a
  /\ forall n,
      (fold_left (fun b x => body x b) xs a).[n]
      = match find (fun x => existsb (Nat.eqb n) (idx x)) (rev xs) with
        | Some x => val x n
        | None => a.[n]
        end.
Proof.
  induction xs as [| x xs IH] using rev_ind; intros Hbody.
  - split; reflexivity.
  - destruct IH as [Hlen Hnth].
    { intros y b Hy Hb. apply Hbody; [apply in_or_app; left; exact Hy | exact Hb]. }
    rewrite fold_left_app. cbn [fold_left].
    destruct (Hbody x (fold_left (fun b x => body x b) xs a)) as [Hl Hn].
    { apply in_or_app. right. left. reflexivity. }
    { exact Hlen. }
    split; [exact Hl |].
    intros n. rewrite Hn, rev_app_distr. cbn [rev app find].
    destruct (existsb (Nat.eqb n) (idx x)); [reflexivity | apply Hnth].
Qed.

Lemma FOR_EACH_2D_flat {S : Type} (ni nj : nat) (body : nat -> nat -> S -> S) (s : S) :
  Cbdisodg2d.FOR_EACH_2D ni nj body s
  = fold_left (fun s x => body (fst x) (snd x) s) (list_prod (seq 0 ni) (seq 0 nj)) s.
Proof.
  unfold Cbdisodg2d.FOR_EACH_2D.
  generalize (seq 0 ni) as ks. intros ks. revert s.
  induction ks as [| k ks IH]; intros s; cbn [fold_left list_prod].
  - reflexivity.
  - rewrite fold_left_app, IH. f_equal.
    generalize (seq 0 nj) as ls. intros ls. revert s.
    induction ls as [| l ls IHl]; intros s; cbn [fold_left map]; [reflexivity | apply IHl].
Qed.

(** The zone loop over a patch: the cell-average weights of the zones of
    the index range hold the stored values, every other entry of [weights2]
    is as it was. *)
Lemma dg_patch (P : Cbdisodg2d.Params) (ni nj : nat) (pxl pxr pyl pyr : R)
    (weights0 weights1 weights2 : list R) :
  (18 * (ni + 2) * (nj + 2) <= length weights2)%nat ->
  let out :=
    Cbdisodg2d.FOR_EACH_2D ni nj
      (fun i j weights2 =>
         Cbdisodg2d.advance_rk_zone P ni nj pxl pxr pyl pyr weights0 weights1 weights2 i j)
      weights2 in
  length out = length weights2
  /\ (forall i j q, (i < ni)%nat -> (j < nj)%nat -> (q < 3)%nat ->
        out.[Cbdisodg2d.weight_index nj i j q 0]
        = Cbdisodg2d.stored_weight P ni nj pxl pxr pyl pyr weights0 weights1 i j q)
  /\ (forall n,
        (forall i j q, (i < ni)%nat -> (j < nj)%nat -> (q < 3)%nat ->
           n <> Cbdisodg2d.weight_index nj i j q 0) ->
        out.[n] = weights2.[n]).
Proof.
  intros Hlen. cbv zeta. rewrite FOR_EACH_2D_flat.
  pose (idx := fun x : nat * nat =>
                 [Cbdisodg2d.weight_index nj (fst x) (snd x) 0 0;
                  Cbdisodg2d.weight_index nj (fst x) (snd x) 1 0;
                  Cbdisodg2d.weight_index nj (fst x) (snd x) 2 0]).
  pose (val := fun (x : nat * nat) (n : nat) =>
                 if (n =? Cbdisodg2d.weight_index nj (fst x) (snd x) 0 0)%nat
                 then Cbdisodg2d.stored_weight P ni nj pxl pxr pyl pyr weights0 weights1
                        (fst x) (snd x) 0
                 else if (n =? Cbdisodg2d.weight_index nj (fst x) (snd x) 1 0)%nat
                 then Cbdisodg2d.stored_weight P ni nj pxl pxr pyl pyr weights0 weights1
                        (fst x) (snd x) 1
                 else Cbdisodg2d.stored_weight P ni nj pxl pxr pyl pyr weights0 weights1
                        (fst x) (snd x) 2).
  destruct (fold_writes_nth
              (fun x b => Cbdisodg2d.advance_rk_zone P ni nj pxl pxr pyl pyr
                            weights0 weights1 b (fst x) (snd x))
              idx val (list_prod (seq 0 ni) (seq 0 nj)) weights2) as [Hl Hn].
  { intros [i j] b Hin Hb. apply in_prod_iff in Hin. destruct Hin as [Hi Hj].
    apply in_seq in Hi, Hj. cbn [fst snd].
    rewrite advance_rk_zone_writes.
    split; [rewrite !length_upd; exact Hb |].
    intros n. rewrite upd3_nth by (rewrite ?weight_index_eq; nia).
    unfold idx, val. cbn [existsb fst snd].
    destruct (n =? _)%nat; [reflexivity |].
    destruct (n =? _)%nat; [reflexivity |].
    destruct (n =? _)%nat; reflexivity. }
  split; [exact Hl |]. split.
  - intros i j q Hi Hj Hq. rewrite Hn.
    destruct (find _ _) as [[i' j'] |] eqn:Ef.
    + apply find_some in Ef. destruct Ef as [Hin Hex].
      apply in_rev, in_prod_iff in Hin. destruct Hin as [Hi' Hj'].
      apply in_seq in Hi', Hj'.
      unfold idx in Hex. cbn [existsb fst snd] in Hex.
      rewrite !orb_true_iff, !Nat.eqb_eq in Hex.
      assert (Hsame : exists q', (q' < 3)%nat
                /\ Cbdisodg2d.weight_index nj i j q 0 = Cbdisodg2d.weight_index nj i' j' q' 0).
      { destruct Hex as [H | [H | [H | H]]]; [exists 0%nat | exists 1%nat | exists 2%nat |
          discriminate]; split; try lia; exact H. }
      destruct Hsame as [q' [Hq' Hs]].
      apply weight_index_inj in Hs; try lia. destruct Hs as [<- [<- [<- _]]].
      unfold val. cbn [fst snd].
      destruct q as [| [| [| q]]]; try lia.
      * rewrite Nat.eqb_refl. reflexivity.
      * replace (Cbdisodg2d.weight_index nj i j 1 0 =? Cbdisodg2d.weight_index nj i j 0 0)%nat
          with false by (symmetry; apply Nat.eqb_neq; rewrite !weight_index_eq; lia).
        rewrite Nat.eqb_refl. reflexivity.
      * replace (Cbdisodg2d.weight_index nj i j 2 0 =? Cbdisodg2d.weight_index nj i j 0 0)%nat
          with false by (symmetry; apply Nat.eqb_neq; rewrite !weight_index_eq; lia).
        replace (Cbdisodg2d.weight_index nj i j 2 0 =? Cbdisodg2d.weight_index nj i j 1 0)%nat
          with false by (symmetry; apply Nat.eqb_neq; rewrite !weight_index_eq; lia).
        reflexivity.
    + exfalso.
      assert (Hin : In (i, j) (rev (list_prod (seq 0 ni) (seq 0 nj)))).
      { apply -> in_rev. apply in_prod_iff. split; apply in_seq; lia. }
      pose proof (find_none _ _ Ef (i, j) Hin) as Hf.
      cbv beta in Hf. unfold idx in Hf. cbn [existsb fst snd] in Hf.
      destruct q as [| [| [| q]]]; try lia;
        rewrite Nat.eqb_refl in Hf; rewrite ?orb_true_r in Hf; discriminate.
  - intros n Hnot. rewrite Hn.
    destruct (find _ _) as [[i' j'] |] eqn:Ef; [| reflexivity].
    exfalso.
    apply find_some in Ef. destruct Ef as [Hin Hex].
    apply in_rev, in_prod_iff in Hin. destruct Hin as [Hi' Hj'].
    apply in_seq in Hi', Hj'.
    unfold idx in Hex. cbn [existsb fst snd] in Hex.
    rewrite !orb_true_iff, !Nat.eqb_eq in Hex.
    destruct Hex as [H | [H | [H | H]]]; try discriminate;
      [apply (Hnot i' j' 0%nat) | apply (Hnot i' j' 1%nat) | apply (Hnot i' j' 2%nat)];
      try lia; exact H.
Qed.

Lemma tabulate2_0 (e : nat -> nat -> R) : (Cbdisodg2d.tabulate2 e).[0] = e 0%nat 0%nat.
Proof. reflexivity. Qed.

(** The cell-average basis function has no gradient: the density row of
    the volume term is zero in its first entry. *)
Lemma volume_term_0 (P : Cbdisodg2d.Params) (xc yc dx dy : R) (ucc : list R) :
  (Cbdisodg2d.volume_term P xc yc dx dy ucc).[0] = 0.
Proof.
  unfold Cbdisodg2d.volume_term. cbv zeta.
  cbn [fold_left seq].
  repeat (rewrite tabulate2_0; cbn [Cbdisodg2d.NPOLY Nat.mul Nat.add]).
  cbn [map Cbdisodg2d.poly_pairs flat_map seq Nat.ltb Nat.leb Nat.add app fst snd nth
       Cbdisodg2d.at2 Cbdisodg2d.p Cbdisodg2d.pp].
  repeat match goal with
         | |- context [nth 0 (Cbdisodg2d.primitive_to_flux ?a ?b ?c ?d) 0] =>
             generalize (nth 0 (Cbdisodg2d.primitive_to_flux a b c d) 0); intro
         end.
  dec. ring.
Qed.

(** The HLLE mass flux between two states at rest, for unit sound speed. *)
Lemma hlle_rest (ul ur : list R) (cs2 vc : R) (direction : Z) :
  cs2 = 1 -> 0 < vc ->
  ul.[1] = 0 -> ul.[2] = 0 -> ur.[1] = 0 -> ur.[2] = 0 ->
  (Cbdisodg2d.riemann_hlle ul ur cs2 vc direction).[0] = (ul.[0] - ur.[0]) / 2.
Proof.
  intros -> Hvc Hl1 Hl2 Hr1 Hr2.
  unfold Cbdisodg2d.riemann_hlle. cbv zeta.
  rewrite nth_tabulate by (unfold Cbdisodg2d.NCONS; lia).
  unfold Cbdisodg2d.primitive_to_outer_wavespeeds, Cbdisodg2d.primitive_to_flux,
    Cbdisodg2d.conserved_to_primitive. cbv zeta. cbn [nth].
  rewrite Hl1, Hl2, Hr1, Hr2.
  assert (Hz : forall rho, Math.sign 0 * Math.min2 (Math.fabs (0 / rho)) vc = 0).
  { intros rho. rewrite sign_nonneg by lra.
    replace (0 / rho) with 0 by (unfold Rdiv; ring).
    unfold Math.fabs, Math.min2. rewrite Rabs_R0.
    destruct (Rlt_dec 0 vc); lra. }
  rewrite !Hz.
  assert (Hv : Cbdisodg2d.primitive_to_velocity [ul.[0]; 0; 0] direction = 0
               /\ Cbdisodg2d.primitive_to_velocity [ur.[0]; 0; 0] direction = 0).
  { unfold Cbdisodg2d.primitive_to_velocity.
    destruct direction as [| k | k]; [| destruct k |]; cbn [nth]; split; lra. }
  destruct Hv as [-> ->].
  rewrite sqrt_1.
  assert (Hm : Math.min3 0.0 (0 - 1) (0 - 1) = -1).
  { unfold Math.min3, Math.min2. repeat destruct (Rlt_dec _ _); lra. }
  assert (Hp : Math.max3 0.0 (0 + 1) (0 + 1) = 1).
  { unfold Math.max3, Math.max2. repeat destruct (Rgt_dec _ _); lra. }
  rewrite Hm, Hp. field.
Qed.

(** The value at a node of a component that has its cell average only. *)
Lemma modal_sum_cell (u : list R) (q : nat) (phi : list R) :
  u.[6 * q + 1] = 0 -> u.[6 * q + 2] = 0 -> u.[6 * q + 3] = 0 ->
  u.[6 * q + 4] = 0 -> u.[6 * q + 5] = 0 ->
  Cbdisodg2d.modal_sum u q phi = u.[6 * q] * phi.[0].
Proof.
  intros H1 H2 H3 H4 H5. unfold Cbdisodg2d.modal_sum, Cbdisodg2d.NPOLY.
  change (seq 0 6) with [0; 1; 2; 3; 4; 5]%nat. cbn [fold_left].
  replace (6 * q + 0)%nat with (6 * q)%nat by lia.
  rewrite H1, H2, H3, H4, H5. dec. ring.
Qed.

(** On the density jump of the scenario, the density row of the surface
    term of the zone is the mass flux [(3 - 1) / 2] through the left face,
    summed with the three Gauss weights. *)
Lemma scenario_surface_0 :
  (Cbdisodg2d.zone_surface_term Scenario.params 1 1 0 1 0 1 Scenario.jump 0 0).[0] = 2.000000000000001.
Proof.
  unfold Cbdisodg2d.zone_surface_term. cbv zeta.
  change (Cbdisodg2d.zone_offset 1 (Z.of_nat 0) (Z.of_nat 0)) with 72%Z.
  change (Cbdisodg2d.zone_offset 1 (Z.of_nat 0 - 1) (Z.of_nat 0)) with 18%Z.
  change (Cbdisodg2d.zone_offset 1 (Z.of_nat 0 + 1) (Z.of_nat 0)) with 126%Z.
  change (Cbdisodg2d.zone_offset 1 (Z.of_nat 0) (Z.of_nat 0 - 1)) with 54%Z.
  change (Cbdisodg2d.zone_offset 1 (Z.of_nat 0) (Z.of_nat 0 + 1)) with 90%Z.
  change (Cbdisodg2d.ptr Scenario.jump 72) with (Scenario.cell 1 ++ Scenario.cell 1 ++ Scenario.cell 1 ++ Scenario.cell 1 ++ Scenario.cell 1).
  change (Cbdisodg2d.ptr Scenario.jump 18)
    with (Scenario.cell 3 ++ Scenario.cell 1 ++ Scenario.cell 1 ++ Scenario.cell 1 ++ Scenario.cell 1 ++ Scenario.cell 1 ++ Scenario.cell 1 ++ Scenario.cell 1).
  change (Cbdisodg2d.ptr Scenario.jump 126) with (Scenario.cell 1 ++ Scenario.cell 1).
  change (Cbdisodg2d.ptr Scenario.jump 54)
    with (Scenario.cell 1 ++ Scenario.cell 1 ++ Scenario.cell 1 ++ Scenario.cell 1 ++ Scenario.cell 1 ++ Scenario.cell 1).
  change (Cbdisodg2d.ptr Scenario.jump 90) with (Scenario.cell 1 ++ Scenario.cell 1 ++ Scenario.cell 1 ++ Scenario.cell 1).
  unfold Cbdisodg2d.surface_term, Cbdisodg2d.face_loop. cbv zeta.
  cbn [fold_left seq].
  repeat (rewrite tabulate2_0; cbn [Cbdisodg2d.NPOLY Nat.mul Nat.add]).
  repeat match goal with
    | |- context [nth 0 (Cbdisodg2d.riemann_hlle ?a ?b ?c ?d ?e) 0] =>
        rewrite (hlle_rest a b c d e);
        [ | reflexivity | cbn [Scenario.params Cbdisodg2d.par_velocity_ceiling]; lra
          | rewrite nth_tabulate by (unfold Cbdisodg2d.NCONS; lia);
            rewrite modal_sum_cell by reflexivity; cbn [nth Scenario.cell app Nat.mul Nat.add]; ring .. ]
    end.
  rewrite !nth_tabulate by (unfold Cbdisodg2d.NCONS; lia).
  rewrite !modal_sum_cell by reflexivity.
  cbn [nth Scenario.cell app Nat.mul Nat.add map Cbdisodg2d.poly_pairs flat_map seq Nat.ltb Nat.leb
       fst snd Cbdisodg2d.at2 Cbdisodg2d.p Cbdisodg2d.pfl Cbdisodg2d.pfr Cbdisodg2d.nhat
       Cbdisodg2d.w Cbdisodg2d.tabulate2 Cbdisodg2d.NCONS Cbdisodg2d.NPOLY].
  unfold Cbdisodg2d.cell_dx, Cbdisodg2d.cell_dy. cbn [INR].
  lra.
Qed.

(** C7, the claim as stated fails for [cbdisodg_2d_advance_rk].  On the
    density jump of the scenario (1 x 1 patch on the unit square, forward
    Euler stage, [dt = 1]) the surface term of the density is
    [2.000000000000001] and the volume term 0: the cell-average weight at
    index 72 becomes [1 + 0.5 * 2.000000000000001], not
    [1 + 2.000000000000001]; and the first higher mode of the density, at
    index 73, is whatever the write array held before the call, 7 in one
    call and 8 in another with the same weights and parameters. *)
Lemma dg_update_is_halved_and_skips_higher_modes :
  let run :=
    fun weights2 : list R =>
      Cbdisodg2d.cbdisodg_2d_advance_rk 1 1 0 1 0 1 Scenario.jump Scenario.jump weights2
        0 0 0 0 0 0 Scenario.no_mass Scenario.no_mass 1 1 1 0 0 1 1 in
  let s := Cbdisodg2d.zone_surface_term Scenario.params 1 1 0 1 0 1 Scenario.jump 0 0 in
  let v := Cbdisodg2d.zone_volume_term Scenario.params 1 1 0 1 0 1 Scenario.jump 0 0 in
  let dx := Cbdisodg2d.cell_dx 1 0 1 in
  let dy := Cbdisodg2d.cell_dy 1 0 1 in
  (run (repeat 7 162%nat)).[72] = 2.0000000000000005
  /\ Spec.dg_update Scenario.jump.[72] s.[0] v.[0] 1 dx dy 0 Scenario.jump.[72]
     = 3.000000000000001
  /\ (run (repeat 7 162%nat)).[73] = 7
  /\ (run (repeat 8 162%nat)).[73] = 8.
Proof.
  cbv zeta.
  assert (Hs : (Cbdisodg2d.zone_surface_term Scenario.params 1 1 0 1 0 1 Scenario.jump 0 0).[0]
               = 2.000000000000001) by exact scenario_surface_0.
  assert (Hv : (Cbdisodg2d.zone_volume_term Scenario.params 1 1 0 1 0 1 Scenario.jump 0 0).[0]
               = 0) by (unfold Cbdisodg2d.zone_volume_term; apply volume_term_0).
  assert (Hd : Cbdisodg2d.cell_dx 1 0 1 = 1 /\ Cbdisodg2d.cell_dy 1 0 1 = 1).
  { unfold Cbdisodg2d.cell_dx, Cbdisodg2d.cell_dy. cbn [INR]. split; field. }
  destruct Hd as [Hdx Hdy].
  assert (Hj : Scenario.jump.[72] = 1) by reflexivity.
  assert (Hnot : forall i j q : nat, (i < 1)%nat -> (j < 1)%nat -> (q < 3)%nat ->
                   73%nat <> Cbdisodg2d.weight_index 1 i j q 0).
  { intros i j q Hi Hj' Hq. rewrite weight_index_eq. lia. }
  unfold Cbdisodg2d.cbdisodg_2d_advance_rk. cbv zeta.
  change (Cbdisodg2d.mkParams (Scenario.no_mass, Scenario.no_mass) 1 1 1 0 1 1)
    with Scenario.params.
  destruct (dg_patch Scenario.params 1 1 0 1 0 1 Scenario.jump Scenario.jump
              (repeat 7 162%nat)) as [_ [H7 N7]].
  { rewrite repeat_length. lia. }
  destruct (dg_patch Scenario.params 1 1 0 1 0 1 Scenario.jump Scenario.jump
              (repeat 8 162%nat)) as [_ [_ N8]].
  { rewrite repeat_length. lia. }
  cbv zeta in H7, N7, N8.
  split; [| split; [| split]].
  - pose proof (H7 0%nat 0%nat 0%nat Nat.lt_0_1 Nat.lt_0_1 ltac:(lia)) as E.
    unfold Cbdisodg2d.stored_weight in E. cbv zeta in E.
    change (Cbdisodg2d.NPOLY * 0)%nat with 0%nat in E.
    rewrite Hs, Hv, Hdx, Hdy in E.
    change (Cbdisodg2d.weight_index 1 0 0 0 0) with 72%nat in E.
    rewrite Hj in E. rewrite E.
    cbn [Scenario.params Cbdisodg2d.par_rk_param Cbdisodg2d.par_dt].
    lra.
  - unfold Spec.dg_update. rewrite Hs, Hv, Hdx, Hdy, Hj. lra.
  - rewrite (N7 73%nat Hnot). reflexivity.
  - rewrite (N8 73%nat Hnot). reflexivity.
Qed.

(** C7, amended.  In [cbdisodg_2d_advance_rk], a substep stores, for every
    zone [(i, j)] of the patch and every conserved component [q], only the
    cell-average weight [l = 0]:
    [w_new = w_old + 0.5 * (surface + volume) * dt / (dx * dy)] followed by
    the combination [(1 - rk_param) w_new + rk_param w0] with the
    checkpointed weight; the weights [l >= 1] of [weights2], and every entry
    outside the index range, are left as they were.  (The array is assumed to
    have its declared size; the routine [cbdisodg_2d_advance_rk_safe] is not
    modelled.) *)
Theorem dg_update_cell_average_only :
  forall (ni nj : nat) (patch_xl patch_xr patch_yl patch_yr : R)
         (weights0 weights1 weights2 : list R)
         (buffer_surface_density buffer_central_mass buffer_driving_rate
          buffer_outer_radius buffer_onset_width : R) (buffer_is_enabled : Z)
         (m1 m2 : Cbdisodg2d.PointMass) (cs2 mach_squared : R) (eos_type : Z)
         (nu rk_param dt velocity_ceiling : R),
    (18 * (ni + 2) * (nj + 2) <= length weights2)%nat ->
    let P := Cbdisodg2d.mkParams (m1, m2) cs2 mach_squared eos_type rk_param dt
               velocity_ceiling in
    let dx := Cbdisodg2d.cell_dx ni patch_xl patch_xr in
    let dy := Cbdisodg2d.cell_dy nj patch_yl patch_yr in
    let out :=
      Cbdisodg2d.cbdisodg_2d_advance_rk ni nj patch_xl patch_xr patch_yl patch_yr
        weights0 weights1 weights2
        buffer_surface_density buffer_central_mass buffer_driving_rate
        buffer_outer_radius buffer_onset_width buffer_is_enabled
        m1 m2 cs2 mach_squared eos_type nu rk_param dt velocity_ceiling in
    length out = length weights2
    /\ (forall i j q : nat, (i < ni)%nat -> (j < nj)%nat -> (q < 3)%nat ->
          let n := Cbdisodg2d.weight_index nj i j q 0 in
          let surface :=
            (Cbdisodg2d.zone_surface_term P ni nj patch_xl patch_xr patch_yl patch_yr
               weights1 i j).[6 * q] in
          let volume :=
            (Cbdisodg2d.zone_volume_term P ni nj patch_xl patch_xr patch_yl patch_yr
               weights1 i j).[6 * q] in
          out.[n]
          = (1 - rk_param) * (weights1.[n] + 0.5 * (surface + volume) * dt / (dx * dy))
            + rk_param * weights0.[n])
    /\ (forall i j q l : nat, (i < ni)%nat -> (j < nj)%nat -> (q < 3)%nat ->
          (1 <= l < 6)%nat ->
          out.[Cbdisodg2d.weight_index nj i j q l]
          = weights2.[Cbdisodg2d.weight_index nj i j q l])
    /\ (forall n : nat,
          (forall i j q : nat, (i < ni)%nat -> (j < nj)%nat -> (q < 3)%nat ->
             n <> Cbdisodg2d.weight_index nj i j q 0) ->
          out.[n] = weights2.[n]).
Proof.
  intros ni nj pxl pxr pyl pyr weights0 weights1 weights2 bsd bcm bdr bor bow ben
    m1 m2 cs2 mach eos nu rk dt vc Hlen. cbv zeta.
  unfold Cbdisodg2d.cbdisodg_2d_advance_rk. cbv zeta.
  destruct (dg_patch (Cbdisodg2d.mkParams (m1, m2) cs2 mach eos rk dt vc)
              ni nj pxl pxr pyl pyr weights0 weights1 weights2 Hlen) as [Hl [Hw Hn]].
  cbv zeta in Hl, Hw, Hn.
  split; [exact Hl |]. split; [| split].
  - intros i j q Hi Hj Hq. rewrite (Hw i j q Hi Hj Hq). reflexivity.
  - intros i j q l Hi Hj Hq Hl6. apply Hn.
    intros i' j' q' Hi' Hj' Hq' E.
    apply weight_index_inj in E; lia.
  - exact Hn.
Qed.

(** The stage of the counterexample: the cell-average density of the zone
    is advanced with half of its surface and volume terms. *)
Lemma dg_update_cell_average_only_witness :
  let out :=
    Cbdisodg2d.cbdisodg_2d_advance_rk 1 1 0 1 0 1 Scenario.jump Scenario.jump
      (repeat 7 162%nat) 0 0 0 0 0 0 Scenario.no_mass Scenario.no_mass 1 1 1 0 0 1 1 in
  let n := Cbdisodg2d.weight_index 1 0 0 0 0 in
  let surface :=
    (Cbdisodg2d.zone_surface_term Scenario.params 1 1 0 1 0 1 Scenario.jump 0 0).[0] in
  let volume :=
    (Cbdisodg2d.zone_volume_term Scenario.params 1 1 0 1 0 1 Scenario.jump 0 0).[0] in
  out.[n]
  = (1 - 0) * (Scenario.jump.[n] + 0.5 * (surface + volume) * 1
               / (Cbdisodg2d.cell_dx 1 0 1 * Cbdisodg2d.cell_dy 1 0 1))
    + 0 * Scenario.jump.[n].
Proof.
  cbv zeta.
  pose proof (dg_update_cell_average_only 1 1 0 1 0 1 Scenario.jump Scenario.jump
                (repeat 7 162%nat) 0 0 0 0 0 0 Scenario.no_mass Scenario.no_mass 1 1 1 0 0 1 1)
    as H.
  cbv zeta in H.
  destruct (H ltac:(rewrite repeat_length; lia)) as [_ [Hw _]].
  exact (Hw 0%nat 0%nat 0%nat Nat.lt_0_1 Nat.lt_0_1 ltac:(lia)).
Defined.

(** * Further properties of the kernels *)

(** ** The largest signal speed of a zone *)

Lemma max2_abs_shift (v c : R) :
  0 <= c -> Math.max2 (Math.fabs (v - c)) (Math.fabs (v + c)) = Rabs v + c.
Proof.
  intros Hc. rewrite max2_Rmax. unfold Math.fabs.
  destruct (Rle_dec 0 v) as [Hv | Hv].
  - rewrite (Rabs_right v) by lra. rewrite (Rabs_right (v + c)) by lra.
    apply Rmax_right. unfold Rabs. destruct (Rcase_abs (v - c)); lra.
  - rewrite (Rabs_left v) by lra. rewrite (Rabs_left (v - c)) by lra.
    replace (- (v - c)) with (- v + c) by ring.
    apply Rmax_left. unfold Rabs. destruct (Rcase_abs (v + c)); lra.
Qed.

Lemma max_wavespeed_formula (vx vy cs2 : R) :
  0 <= cs2 ->
  Math.max2 (Math.max2 (Math.fabs (vx - sqrt cs2)) (Math.fabs (vx + sqrt cs2)))
            (Math.max2 (Math.fabs (vy - sqrt cs2)) (Math.fabs (vy + sqrt cs2)))
  = Rmax (Rabs vx) (Rabs vy) + sqrt cs2.
Proof.
  intros H. pose proof (sqrt_pos cs2) as Hs.
  rewrite !max2_abs_shift by exact Hs. rewrite max2_Rmax.
  unfold Rmax. destruct (Rle_dec (Rabs vx + sqrt cs2) (Rabs vy + sqrt cs2)),
    (Rle_dec (Rabs vx) (Rabs vy)); lra.
Qed.

Lemma iso2d_max_wavespeed_eq (prim : list R) (cs2 : R) :
  0 <= cs2 ->
  Iso2d.primitive_max_wavespeed prim cs2 = Rmax (Rabs prim.[1]) (Rabs prim.[2]) + sqrt cs2.
Proof.
  intros H. unfold Iso2d.primitive_max_wavespeed. cbv zeta.
  apply max_wavespeed_formula. exact H.
Qed.

Lemma euler2d_max_wavespeed_eq (prim : list R) (cs2 : R) :
  0 <= cs2 ->
  Euler2d.primitive_max_wavespeed prim cs2 = Rmax (Rabs prim.[1]) (Rabs prim.[2]) + sqrt cs2.
Proof.
  intros H. unfold Euler2d.primitive_max_wavespeed. cbv zeta.
  apply max_wavespeed_formula. exact H.
Qed.

(** X1.  The speed that the three two-dimensional solvers report for a
    zone is the larger of [|vx|] and [|vy|] plus the sound speed: for a
    sound speed squared that is not negative,
    [primitive_max_wavespeed prim cs2 = max(|vx|, |vy|) + sqrt(cs2)]. *)
Theorem max_wavespeed_closed_form :
  forall (prim : list R) (cs2 : R),
    0 <= cs2 ->
    Iso2d.primitive_max_wavespeed prim cs2 = Rmax (Rabs prim.[1]) (Rabs prim.[2]) + sqrt cs2
    /\ Euler2d.primitive_max_wavespeed prim cs2
       = Rmax (Rabs prim.[1]) (Rabs prim.[2]) + sqrt cs2
    /\ Cbdisodg2d.primitive_max_wavespeed prim cs2
       = Rmax (Rabs prim.[1]) (Rabs prim.[2]) + sqrt cs2.
Proof.
  intros prim cs2 H.
  split; [apply iso2d_max_wavespeed_eq; exact H |].
  split; [apply euler2d_max_wavespeed_eq; exact H |].
  unfold Cbdisodg2d.primitive_max_wavespeed. cbv zeta.
  apply max_wavespeed_formula. exact H.
Qed.

(** A flow along [-y] faster than along [x], with sound speed 2. *)
Lemma max_wavespeed_closed_form_witness :
  Iso2d.primitive_max_wavespeed [1; 3; -4] 4
  = Rmax (Rabs [1; 3; -4].[1]) (Rabs [1; 3; -4].[2]) + sqrt 4
  /\ Euler2d.primitive_max_wavespeed [1; 3; -4] 4
     = Rmax (Rabs [1; 3; -4].[1]) (Rabs [1; 3; -4].[2]) + sqrt 4
  /\ Cbdisodg2d.primitive_max_wavespeed [1; 3; -4] 4
     = Rmax (Rabs [1; 3; -4].[1]) (Rabs [1; 3; -4].[2]) + sqrt 4.
Proof.
  apply (max_wavespeed_closed_form [1; 3; -4] 4). lra.
Defined.

Lemma velocity_le_max (prim : list R) (direction : Z) :
  (direction = 0 \/ direction = 1)%Z ->
  Rabs (Iso2d.primitive_to_velocity prim direction) <= Rmax (Rabs prim.[1]) (Rabs prim.[2]).
Proof.
  intros [-> | ->]; cbn [Iso2d.primitive_to_velocity]; [apply Rmax_l | apply Rmax_r].
Qed.

Lemma hlle_speeds_bound (vl vr cs a : R) :
  0 <= cs -> Rabs vl + cs <= a -> Rabs vr + cs <= a ->
  - a <= Math.min3 0.0 (vl - cs) (vr - cs) /\ Math.max3 0.0 (vl + cs) (vr + cs) <= a.
Proof.
  intros Hc Hl Hr.
  pose proof (Rabs_pos vl). 
  assert (Hvl : - Rabs vl <= vl <= Rabs vl).
  { unfold Rabs. destruct (Rcase_abs vl); lra. }
  assert (Hvr : - Rabs vr <= vr <= Rabs vr).
  { unfold Rabs. destruct (Rcase_abs vr); lra. }
  unfold Math.min3, Math.max3. rewrite !min2_Rmin, !max2_Rmax.
  unfold Rmin, Rmax.
  repeat match goal with |- context [Rle_dec ?x ?y] => destruct (Rle_dec x y) end; lra.
Qed.

(** X2.  The signal speeds of the HLLE solver stay inside the reported
    speed: for two states and a direction 0 or 1, the speeds [am] and [ap]
    that [riemann_hlle] uses lie between [-a] and [a], where [a] is the
    larger of the values of [primitive_max_wavespeed] for the two states. *)
Theorem hlle_speeds_within_max_wavespeed :
  forall (pl pr : list R) (cs2 : R) (direction : Z),
    0 <= cs2 -> (direction = 0 \/ direction = 1)%Z ->
    (let a := Rmax (Iso2d.primitive_max_wavespeed pl cs2)
                   (Iso2d.primitive_max_wavespeed pr cs2) in
     - a <= fst (Iso2d.hlle_speeds pl pr cs2 direction)
     /\ snd (Iso2d.hlle_speeds pl pr cs2 direction) <= a)
    /\
    (let a := Rmax (Euler2d.primitive_max_wavespeed pl cs2)
                   (Euler2d.primitive_max_wavespeed pr cs2) in
     - a <= fst (Euler2d.hlle_speeds pl pr cs2 direction)
     /\ snd (Euler2d.hlle_speeds pl pr cs2 direction) <= a).
Proof.
  intros pl pr cs2 direction Hc Hd.
  pose proof (iso2d_max_wavespeed_eq pl cs2 Hc) as Il.
  pose proof (euler2d_max_wavespeed_eq pl cs2 Hc) as El.
  pose proof (iso2d_max_wavespeed_eq pr cs2 Hc) as Ir.
  pose proof (euler2d_max_wavespeed_eq pr cs2 Hc) as Er.
  rewrite Il, Ir, El, Er. cbv zeta.
  pose proof (velocity_le_max pl direction Hd) as Hl.
  pose proof (velocity_le_max pr direction Hd) as Hr.
  pose proof (sqrt_pos cs2) as Hs.
  pose proof (Rmax_l (Rmax (Rabs pl.[1]) (Rabs pl.[2]) + sqrt cs2)
                     (Rmax (Rabs pr.[1]) (Rabs pr.[2]) + sqrt cs2)) as Ml.
  pose proof (Rmax_r (Rmax (Rabs pl.[1]) (Rabs pl.[2]) + sqrt cs2)
                     (Rmax (Rabs pr.[1]) (Rabs pr.[2]) + sqrt cs2)) as Mr.
  split.
  - unfold Iso2d.hlle_speeds, Iso2d.primitive_to_outer_wavespeeds. cbn [fst snd nth].
    apply hlle_speeds_bound; [exact Hs | lra | lra].
  - unfold Euler2d.hlle_speeds, Euler2d.primitive_to_outer_wavespeeds. cbn [fst snd nth].
    change (Euler2d.primitive_to_velocity) with (Iso2d.primitive_to_velocity).
    apply hlle_speeds_bound; [exact Hs | lra | lra].
Qed.

(** Two states moving against each other along [x], sound speed 1. *)
Lemma hlle_speeds_within_max_wavespeed_witness :
  (let a := Rmax (Iso2d.primitive_max_wavespeed [1; 2; 0] 1)
                 (Iso2d.primitive_max_wavespeed [1; -3; 1] 1) in
   - a <= fst (Iso2d.hlle_speeds [1; 2; 0] [1; -3; 1] 1 0)
   /\ snd (Iso2d.hlle_speeds [1; 2; 0] [1; -3; 1] 1 0) <= a)
  /\
  (let a := Rmax (Euler2d.primitive_max_wavespeed [1; 2; 0] 1)
                 (Euler2d.primitive_max_wavespeed [1; -3; 1] 1) in
   - a <= fst (Euler2d.hlle_speeds [1; 2; 0] [1; -3; 1] 1 0)
   /\ snd (Euler2d.hlle_speeds [1; 2; 0] [1; -3; 1] 1 0) <= a).
Proof.
  apply (hlle_speeds_within_max_wavespeed [1; 2; 0] [1; -3; 1] 1 0); [lra | left; reflexivity].
Defined.

(** ** Consistency and upwinding of the HLLE flux *)

Lemma tabulate_ext (n : nat) (e e' : nat -> R) :
  (forall q, (q < n)%nat -> e q = e' q) -> tabulate n e = tabulate n e'.
Proof.
  intros H. unfold tabulate. apply map_ext_in. intros q Hq. apply in_seq in Hq.
  apply H. lia.
Qed.

Lemma tabulate_nth (a : list R) : tabulate (length a) (fun q => a.[q]) = a.
Proof.
  unfold tabulate. apply nth_ext with (d := 0) (d' := 0).
  - rewrite length_map, length_seq. reflexivity.
  - intros n Hn. rewrite length_map, length_seq in Hn.
    apply (nth_tabulate (length a) (fun q => a.[q]) n Hn).
Qed.

Lemma hlle_same_state (f u am ap : R) :
  0 < ap - am -> (f * ap - f * am - (u - u) * ap * am) / (ap - am) = f.
Proof. intros H. field. lra. Qed.

(** The HLLE average of one flux [F] with itself. *)
Lemma hlle_average_same (n : nat) (F u : list R) (am ap : R) :
  length F = n -> 0 < ap - am ->
  tabulate n (fun q => (F.[q] * ap - F.[q] * am - (u.[q] - u.[q]) * ap * am) / (ap - am))
  = F.
Proof.
  intros Hl Hg. transitivity (tabulate n (fun q => F.[q])).
  - apply tabulate_ext. intros q _. apply hlle_same_state. exact Hg.
  - subst n. apply tabulate_nth.
Qed.

(** X3.  The HLLE flux is consistent: when the two states at a face are
    the same and the sound speed is positive, [riemann_hlle] returns the
    flux [primitive_to_flux] of that state.  In cbdisodg_2d the states are
    conserved, with a density that is not zero, and the flux is that of the
    primitive state which [conserved_to_primitive] gives them. *)
Theorem hlle_flux_consistent :
  forall (s : list R) (cs2 velocity_ceiling : R) (direction : Z),
    0 < cs2 -> s.[0] <> 0 ->
    Iso2d.riemann_hlle s s cs2 direction
    = Iso2d.primitive_to_flux s (Iso2d.primitive_to_conserved s) cs2 direction
    /\ Euler2d.riemann_hlle s s cs2 direction
       = Euler2d.primitive_to_flux s (Euler2d.primitive_to_conserved s) direction
    /\ Cbdisodg2d.riemann_hlle s s cs2 velocity_ceiling direction
       = Cbdisodg2d.primitive_to_flux
           (Cbdisodg2d.conserved_to_primitive s velocity_ceiling) s cs2 direction.
Proof.
  intros s cs2 vc direction Hc _.
  assert (Hs : 0 < sqrt cs2) by (apply sqrt_lt_R0; exact Hc).
  repeat split.
  - unfold Iso2d.riemann_hlle, Iso2d.primitive_to_outer_wavespeeds. cbv zeta.
    cbn [nth]. apply hlle_average_same; [reflexivity | apply hlle_gap; exact Hs].
  - unfold Euler2d.riemann_hlle, Euler2d.primitive_to_outer_wavespeeds. cbv zeta.
    cbn [nth]. apply hlle_average_same; [reflexivity | apply hlle_gap; exact Hs].
  - unfold Cbdisodg2d.riemann_hlle, Cbdisodg2d.primitive_to_outer_wavespeeds. cbv zeta.
    cbn [nth]. apply hlle_average_same; [reflexivity | apply hlle_gap; exact Hs].
Qed.

(** A state moving along both axes, sound speed 1. *)
Lemma hlle_flux_consistent_witness :
  Iso2d.riemann_hlle [2; 1; -1; 3] [2; 1; -1; 3] 1 0
  = Iso2d.primitive_to_flux [2; 1; -1; 3] (Iso2d.primitive_to_conserved [2; 1; -1; 3]) 1 0
  /\ Euler2d.riemann_hlle [2; 1; -1; 3] [2; 1; -1; 3] 1 0
     = Euler2d.primitive_to_flux [2; 1; -1; 3]
         (Euler2d.primitive_to_conserved [2; 1; -1; 3]) 0
  /\ Cbdisodg2d.riemann_hlle [2; 1; -1; 3] [2; 1; -1; 3] 1 10 0
     = Cbdisodg2d.primitive_to_flux
         (Cbdisodg2d.conserved_to_primitive [2; 1; -1; 3] 10) [2; 1; -1; 3] 1 0.
Proof.
  apply (hlle_flux_consistent [2; 1; -1; 3] 1 10 0); cbn [nth]; lra.
Defined.

Lemma max3_zero_nonpos (x y : R) : x <= 0 -> y <= 0 -> Math.max3 0.0 x y = 0.
Proof.
  intros Hx Hy. unfold Math.max3. rewrite !max2_Rmax. unfold Rmax.
  repeat match goal with |- context [Rle_dec ?a ?b] => destruct (Rle_dec a b) end; lra.
Qed.

Lemma min3_zero_nonneg (x y : R) : 0 <= x -> 0 <= y -> Math.min3 0.0 x y = 0.
Proof.
  intros Hx Hy. unfold Math.min3. rewrite !min2_Rmin. unfold Rmin.
  repeat match goal with |- context [Rle_dec ?a ?b] => destruct (Rle_dec a b) end; lra.
Qed.

Lemma hlle_upwind_left (n : nat) (fl fr ul ur : list R) (ap : R) :
  length fl = n -> 0 < ap ->
  tabulate n (fun q => (fl.[q] * ap - fr.[q] * 0 - (ul.[q] - ur.[q]) * ap * 0) / (ap - 0))
  = fl.
Proof.
  intros Hl Hp. transitivity (tabulate n (fun q => fl.[q])).
  - apply tabulate_ext. intros q _. field. lra.
  - subst n. apply tabulate_nth.
Qed.

Lemma hlle_upwind_right (n : nat) (fl fr ul ur : list R) (am : R) :
  length fr = n -> am < 0 ->
  tabulate n (fun q => (fl.[q] * 0 - fr.[q] * am - (ul.[q] - ur.[q]) * 0 * am) / (0 - am))
  = fr.
Proof.
  intros Hl Hp. transitivity (tabulate n (fun q => fr.[q])).
  - apply tabulate_ext. intros q _. field. lra.
  - subst n. apply tabulate_nth.
Qed.

(** X4.  The HLLE flux is upwind in supersonic flow (iso2d and euler2d):
    when both states move in the positive direction faster than sound, the
    flux through the face is the flux of the left state, and when both move
    in the negative direction faster than sound it is the flux of the right
    state. *)
Theorem hlle_flux_upwind :
  forall (pl pr : list R) (cs2 : R) (direction : Z),
    0 < cs2 ->
    let vl := Iso2d.primitive_to_velocity pl direction in
    let vr := Iso2d.primitive_to_velocity pr direction in
    (sqrt cs2 <= vl -> sqrt cs2 <= vr ->
     Iso2d.riemann_hlle pl pr cs2 direction
     = Iso2d.primitive_to_flux pl (Iso2d.primitive_to_conserved pl) cs2 direction
     /\ Euler2d.riemann_hlle pl pr cs2 direction
        = Euler2d.primitive_to_flux pl (Euler2d.primitive_to_conserved pl) direction)
    /\
    (vl <= - sqrt cs2 -> vr <= - sqrt cs2 ->
     Iso2d.riemann_hlle pl pr cs2 direction
     = Iso2d.primitive_to_flux pr (Iso2d.primitive_to_conserved pr) cs2 direction
     /\ Euler2d.riemann_hlle pl pr cs2 direction
        = Euler2d.primitive_to_flux pr (Euler2d.primitive_to_conserved pr) direction).
Proof.
  intros pl pr cs2 direction Hc vl vr.
  assert (Hs : 0 < sqrt cs2) by (apply sqrt_lt_R0; exact Hc).
  split; intros Hl Hr.
  - assert (Hp : 0 < Math.max3 0.0 (vl + sqrt cs2) (vr + sqrt cs2)).
    { pose proof (max3_ge_mid 0.0 (vl + sqrt cs2) (vr + sqrt cs2)). lra. }
    split.
    + unfold Iso2d.riemann_hlle, Iso2d.primitive_to_outer_wavespeeds. cbv zeta. cbn [nth].
      fold vl vr. rewrite (min3_zero_nonneg (vl - sqrt cs2) (vr - sqrt cs2)) by lra.
      apply hlle_upwind_left; [reflexivity | exact Hp].
    + unfold Euler2d.riemann_hlle, Euler2d.primitive_to_outer_wavespeeds. cbv zeta. cbn [nth].
      change (Euler2d.primitive_to_velocity) with (Iso2d.primitive_to_velocity).
      fold vl vr. rewrite (min3_zero_nonneg (vl - sqrt cs2) (vr - sqrt cs2)) by lra.
      apply hlle_upwind_left; [reflexivity | exact Hp].
  - assert (Hp : Math.min3 0.0 (vl - sqrt cs2) (vr - sqrt cs2) < 0).
    { pose proof (min3_le_mid 0.0 (vl - sqrt cs2) (vr - sqrt cs2)). lra. }
    split.
    + unfold Iso2d.riemann_hlle, Iso2d.primitive_to_outer_wavespeeds. cbv zeta. cbn [nth].
      fold vl vr. rewrite (max3_zero_nonpos (vl + sqrt cs2) (vr + sqrt cs2)) by lra.
      apply hlle_upwind_right; [reflexivity | exact Hp].
    + unfold Euler2d.riemann_hlle, Euler2d.primitive_to_outer_wavespeeds. cbv zeta. cbn [nth].
      change (Euler2d.primitive_to_velocity) with (Iso2d.primitive_to_velocity).
      fold vl vr. rewrite (max3_zero_nonpos (vl + sqrt cs2) (vr + sqrt cs2)) by lra.
      apply hlle_upwind_right; [reflexivity | exact Hp].
Qed.

(** Two states moving along [x] at twice and three times the sound speed. *)
Lemma hlle_flux_upwind_witness :
  Iso2d.riemann_hlle [1; 2; 0; 1] [2; 3; 0; 1] 1 0
  = Iso2d.primitive_to_flux [1; 2; 0; 1] (Iso2d.primitive_to_conserved [1; 2; 0; 1]) 1 0
  /\ Euler2d.riemann_hlle [1; 2; 0; 1] [2; 3; 0; 1] 1 0
     = Euler2d.primitive_to_flux [1; 2; 0; 1] (Euler2d.primitive_to_conserved [1; 2; 0; 1]) 0.
Proof.
  apply (proj1 (hlle_flux_upwind [1; 2; 0; 1] [2; 3; 0; 1] 1 0 Rlt_0_1));
    cbn [Iso2d.primitive_to_velocity nth]; rewrite sqrt_1; lra.
Defined.

(** ** Cooling *)

Lemma Rpower_one_l (y : R) : Rpower 1 y = 1.
Proof. unfold Rpower. rewrite ln_1, Rmult_0_r. apply exp_0. Qed.

Lemma Rpower_ge_1_neg (x y : R) : 1 <= x -> y <= 0 -> 0 < Rpower x y <= 1.
Proof.
  intros Hx Hy. split.
  - unfold Rpower. apply exp_pos.
  - unfold Rpower. rewrite <- exp_0.
    destruct (Req_dec (y * ln x) 0) as [E | E].
    + rewrite E. lra.
    + left. apply exp_increasing.
      assert (0 <= ln x).
      { destruct (Req_dec x 1) as [-> | Hne]; [rewrite ln_1; lra |].
        left. rewrite <- ln_1. apply ln_increasing; lra. }
      nra.
Qed.

Lemma Rpower_third_cube (x : R) :
  0 < x -> Rpower x (- 1.0 / 3.0) * Rpower x (- 1.0 / 3.0) * Rpower x (- 1.0 / 3.0) = / x.
Proof.
  intros Hx. rewrite <- !Rpower_plus.
  replace (- 1.0 / 3.0 + - 1.0 / 3.0 + - 1.0 / 3.0) with (Ropp 1) by lra.
  rewrite Rpower_Ropp, Rpower_1 by exact Hx. reflexivity.
Qed.

(** The local [eps_cooled] of [cooling_term]. *)
Lemma cooling_term_nth (c dt : R) (prim cons : list R) :
  (3 < length cons)%nat ->
  let sigma := prim.[0] in
  let eps := prim.[3] / (Euler2d.GAMMA_LAW_INDEX - 1.0) in
  let eps_cooled :=
    eps * Rpower (1.0 + 3.0 * c / (sigma * sigma) * (eps * eps * eps) * dt) (- 1.0 / 3.0) in
  (Euler2d.cooling_term c dt prim cons).[3] = cons.[3] + sigma * (eps_cooled - eps)
  /\ forall q, q <> 3%nat -> (Euler2d.cooling_term c dt prim cons).[q] = cons.[q].
Proof.
  intros Hl. cbv zeta. unfold Euler2d.cooling_term. cbv zeta.
  unfold Math.powr. rewrite powi_2, powi_3. split.
  - rewrite nth_upd_same by exact Hl. reflexivity.
  - intros q Hq. apply nth_upd_other. exact Hq.
Qed.

(** X5.  [cooling_term] changes the energy only, by
    [sigma * (eps_cooled - eps)] with [eps = p / (gamma - 1)].  For a
    coefficient and a time step that are not negative and a positive density
    and pressure, [eps_cooled] is positive and not above [eps], so the energy
    does not grow and the thermal part stays positive; it obeys
    [eps_cooled^3 * (1 + 3 c eps^3 dt / sigma^2) = eps^3], the solution of
    [d eps / dt = - c eps^4 / sigma^2] after [dt]; with a zero coefficient
    the state is returned as it was. *)
Theorem cooling_term_cools :
  forall (cooling_coefficient dt : R) (prim cons : list R),
    (3 < length cons)%nat ->
    0 <= cooling_coefficient -> 0 <= dt -> 0 < prim.[0] -> 0 < prim.[3] ->
    let sigma := prim.[0] in
    let eps := prim.[3] / (Euler2d.GAMMA_LAW_INDEX - 1) in
    let cons' := Euler2d.cooling_term cooling_coefficient dt prim cons in
    let eps_cooled := eps + (cons'.[3] - cons.[3]) / sigma in
    (forall q, q <> 3%nat -> cons'.[q] = cons.[q])
    /\ length cons' = length cons
    /\ 0 < eps_cooled <= eps
    /\ cons'.[3] <= cons.[3]
    /\ eps_cooled * eps_cooled * eps_cooled
       * (1 + 3 * cooling_coefficient * (eps * eps * eps) * dt / (sigma * sigma))
       = eps * eps * eps
    /\ (cooling_coefficient = 0 -> cons' = cons).
Proof.
  intros c dt prim cons Hl Hc Hdt Hs Hp. cbv zeta.
  destruct (cooling_term_nth c dt prim cons Hl) as [H3 Hq]. cbv zeta in H3.
  set (sigma := prim.[0]) in *.
  assert (Hg : Euler2d.GAMMA_LAW_INDEX - 1.0 = 2 / 3).
  { unfold Euler2d.GAMMA_LAW_INDEX. lra. }
  replace (Euler2d.GAMMA_LAW_INDEX - 1) with (2 / 3) by lra.
  rewrite Hg in H3.
  set (eps := prim.[3] / (2 / 3)) in *.
  assert (He : 0 < eps) by (unfold eps; lra).
  set (x := 1.0 + 3.0 * c / (sigma * sigma) * (eps * eps * eps) * dt) in *.
  assert (Hx : 1 <= x).
  { unfold x.
    assert (0 <= 3.0 * c / (sigma * sigma) * (eps * eps * eps) * dt).
    { apply Rmult_le_pos; [| exact Hdt].
      apply Rmult_le_pos.
      - apply Rmult_le_pos; [lra |]. left. apply Rinv_0_lt_compat. nra.
      - left. apply Rmult_lt_0_compat; [nra | exact He]. }
    lra. }
  destruct (Rpower_ge_1_neg x (- 1.0 / 3.0) Hx ltac:(lra)) as [Hr0 Hr1].
  set (r := Rpower x (- 1.0 / 3.0)) in *.
  assert (Hec : eps + ((Euler2d.cooling_term c dt prim cons).[3] - cons.[3]) / sigma = eps * r).
  { rewrite H3. field. lra. }
  rewrite Hec.
  split; [exact Hq |].
  split; [unfold Euler2d.cooling_term; apply length_upd |].
  assert (Hr : 0 < eps * r <= eps).
  { split; [apply Rmult_lt_0_compat; assumption |].
    rewrite <- (Rmult_1_r eps) at 2. apply Rmult_le_compat_l; lra. }
  split; [exact Hr |].
  split.
  { rewrite H3. fold r. assert (sigma * (eps * r - eps) <= 0) by nra. lra. }
  split.
  - pose proof (Rpower_third_cube x ltac:(lra)) as Hcube. fold r in Hcube.
    assert (Hxe : x = 1 + 3 * c / (sigma * sigma) * (eps * eps * eps) * dt)
      by (unfold x; lra).
    replace (1 + 3 * c * (eps * eps * eps) * dt / (sigma * sigma)) with x
      by (rewrite Hxe; field; lra).
    replace (eps * r * (eps * r) * (eps * r) * x) with (eps * eps * eps * ((r * r * r) * x)) by ring.
    rewrite Hcube. field. lra.
  - intros ->. apply nth_ext with (d := 0) (d' := 0).
    + unfold Euler2d.cooling_term. apply length_upd.
    + intros n _. destruct (Nat.eq_dec n 3) as [-> | Hn]; [| apply Hq; exact Hn].
      rewrite H3. unfold r, x.
      replace (1.0 + 3.0 * 0 / (sigma * sigma) * (eps * eps * eps) * dt) with 1
        by (unfold Rdiv; rewrite Rmult_0_r, !Rmult_0_l; lra).
      rewrite Rpower_one_l. ring.
Qed.

(** A gas of unit density and pressure cooled for a tenth of a time unit. *)
Lemma cooling_term_cools_witness :
  let cons' := Euler2d.cooling_term 1 0.1 [1; 0; 0; 1] [1; 0; 0; 1.5] in
  0 < [1; 0; 0; 1].[3] / (Euler2d.GAMMA_LAW_INDEX - 1)
      + (cons'.[3] - [1; 0; 0; 1.5].[3]) / [1; 0; 0; 1].[0]
    <= [1; 0; 0; 1].[3] / (Euler2d.GAMMA_LAW_INDEX - 1).
Proof.
  cbv zeta.
  apply (proj1 (proj2 (proj2
           (cooling_term_cools 1 0.1 [1; 0; 0; 1] [1; 0; 0; 1.5]
              ltac:(cbn [length]; lia) ltac:(lra) ltac:(lra)
              ltac:(cbn [nth]; lra) ltac:(cbn [nth]; lra))))).
Defined.

(** ** The sinks *)

(** X6.  The torque-free sink model deserves its name: in the frame that
    moves with the point mass, the momentum that [point_mass_source_term]
    adds to a zone away from the mass, gravity and sink together, is along
    the line from the mass to the zone, so its torque about the mass is zero
    (euler2d, model [TorqueFree]; cbdisodg_2d, model 2). *)
Theorem torque_free_sink_has_no_torque :
  forall (x0 y0 x1 y1 : R),
    0 < (x1 - x0) * (x1 - x0) + (y1 - y0) * (y1 - y0) ->
    (forall (vx0 vy0 mp rate dt h : R) (prim : list R),
        let mass := Euler2d.mkPointMass x0 y0 vx0 vy0 mp rate Euler2d.TorqueFree in
        let d := Euler2d.point_mass_source_term mass x1 y1 dt prim h in
        (x1 - x0) * (d.[2] - d.[0] * vy0) - (y1 - y0) * (d.[1] - d.[0] * vx0) = 0)
    /\
    (forall (vx0 vy0 mp r_soft rate r_sink dt : R) (prim : list R),
        let mass := Cbdisodg2d.mkPointMass x0 y0 vx0 vy0 mp r_soft rate r_sink 2 in
        let d := Cbdisodg2d.point_mass_source_term mass x1 y1 dt prim in
        (x1 - x0) * (d.[2] - d.[0] * vy0) - (y1 - y0) * (d.[1] - d.[0] * vx0) = 0).
Proof.
  intros x0 y0 x1 y1 _. split.
  - intros vx0 vy0 mp rate dt h prim. cbv zeta.
    unfold Euler2d.point_mass_source_term. cbv zeta.
    cbn [nth Euler2d.pm_model Euler2d.pm_x Euler2d.pm_y Euler2d.pm_vx Euler2d.pm_vy].
    unfold Rdiv. ring.
  - intros vx0 vy0 mp r_soft rate r_sink dt prim. cbv zeta.
    unfold Cbdisodg2d.point_mass_source_term. cbv zeta.
    cbn [nth Cbdisodg2d.sink_model Cbdisodg2d.pm_x Cbdisodg2d.pm_y Cbdisodg2d.pm_vx
         Cbdisodg2d.pm_vy].
    unfold Rdiv. ring.
Qed.

Lemma exp_neg_powi4_le_1 (x : R) : 0 < exp (- Math.powi x 4) <= 1.
Proof.
  split; [apply exp_pos |].
  rewrite powi_4. rewrite <- exp_0.
  assert (H : 0 <= x * x * x * x) by (replace (x * x * x * x) with ((x * x) * (x * x)) by ring; nra).
  destruct H as [H | H].
  - left. apply exp_increasing. lra.
  - rewrite <- H. rewrite Ropp_0. lra.
Qed.

(** The mass term [dt * mdot] of a sink that is switched on. *)
Lemma sink_mass_bounds (dt sigma rate dr r x : R) :
  0 <= dt -> 0 <= sigma -> 0 <= rate ->
  let sink_rate := if Rlt_dec dr (4.0 * r) then rate * exp (- Math.powi x 4) else 0.0 in
  - (dt * sigma * rate) <= dt * (sigma * sink_rate * -1.0) <= 0
  /\ (4 * r <= dr -> dt * (sigma * sink_rate * -1.0) = 0).
Proof.
  intros Hdt Hs Hr. cbv zeta.
  pose proof (exp_neg_powi4_le_1 x) as [He0 He1].
  set (e := exp (- Math.powi x 4)) in *.
  assert (Hds : 0 <= dt * sigma) by (apply Rmult_le_pos; assumption).
  assert (Hre : 0 <= rate * e <= rate).
  { split; [apply Rmult_le_pos; lra |].
    rewrite <- (Rmult_1_r rate) at 2. apply Rmult_le_compat_l; lra. }
  destruct (Rlt_dec dr (4.0 * r)) as [Hlt | Hge].
  - split; [| intros; lra].
    replace (dt * (sigma * (rate * e) * -1.0)) with (- ((dt * sigma) * (rate * e))) by lra.
    replace (dt * sigma * rate) with ((dt * sigma) * rate) by ring.
    split.
    + apply Ropp_le_contravar. apply Rmult_le_compat_l; lra.
    + assert (0 <= dt * sigma * (rate * e)) by (apply Rmult_le_pos; lra). lra.
  - split; [| intros; lra].
    replace (dt * (sigma * 0.0 * -1.0)) with 0 by lra.
    assert (0 <= dt * sigma * rate) by (apply Rmult_le_pos; lra). lra.
Qed.

Lemma iso2d_sink_mass (dt sigma : R) (mass : Iso2d.PointMass) (x1 y1 : R) :
  0 <= dt -> 0 <= sigma -> 0 <= Iso2d.pm_rate mass ->
  let dr := sqrt ((x1 - Iso2d.pm_x mass) * (x1 - Iso2d.pm_x mass)
                  + (y1 - Iso2d.pm_y mass) * (y1 - Iso2d.pm_y mass)) in
  let d := Iso2d.point_mass_source_term mass x1 y1 dt sigma in
  - (dt * sigma * Iso2d.pm_rate mass) <= d.[0] <= 0
  /\ (4 * Iso2d.pm_radius mass <= dr -> d.[0] = 0).
Proof.
  intros Hdt Hs Hr. cbv zeta. unfold Iso2d.point_mass_source_term. cbv zeta. cbn [nth].
  set (dr := sqrt _).
  pose proof (sink_mass_bounds dt sigma (Iso2d.pm_rate mass) dr (Iso2d.pm_radius mass)
                (dr / Iso2d.pm_radius mass) Hdt Hs Hr) as H.
  cbv zeta in H.
  set (s := if Rlt_dec dr (4.0 * Iso2d.pm_radius mass) then _ else _) in *.
  replace (dt * sigma * s * -1.0) with (dt * (sigma * s * -1.0)) by ring.
  exact H.
Qed.

Lemma euler2d_sink_mass (dt sigma : R) (mass : Euler2d.PointMass) (x1 y1 px py pres h : R) :
  0 <= dt -> 0 <= sigma -> 0 <= Euler2d.pm_rate mass ->
  let dr := sqrt ((x1 - Euler2d.pm_x mass) * (x1 - Euler2d.pm_x mass)
                  + (y1 - Euler2d.pm_y mass) * (y1 - Euler2d.pm_y mass)) in
  let d := Euler2d.point_mass_source_term mass x1 y1 dt [sigma; px; py; pres] h in
  - (dt * sigma * Euler2d.pm_rate mass) <= d.[0] <= 0
  /\ (4 * (0.5 * h) <= dr -> d.[0] = 0).
Proof.
  intros Hdt Hs Hr. cbv zeta. unfold Euler2d.point_mass_source_term. cbv zeta.
  set (dr := sqrt _).
  pose proof (sink_mass_bounds dt sigma (Euler2d.pm_rate mass) dr (0.5 * h)
                (dr / (0.5 * h)) Hdt Hs Hr) as H.
  cbv zeta in H.
  change ([sigma; px; py; pres].[0]) with sigma.
  set (s := if Rlt_dec dr (4.0 * (0.5 * h)) then _ else _) in *.
  destruct (Euler2d.pm_model mass); cbn [nth].
  - assert (0 <= dt * sigma * Euler2d.pm_rate mass) by (apply Rmult_le_pos; [apply Rmult_le_pos |]; lra).
    split; [lra | intros; lra].
  - exact H.
  - exact H.
  - exact H.
Qed.

Lemma cbdisodg2d_sink_mass (dt sigma : R) (mass : Cbdisodg2d.PointMass) (x1 y1 px py : R) :
  0 <= dt -> 0 <= sigma -> 0 <= Cbdisodg2d.sink_rate mass ->
  let dr := sqrt ((x1 - Cbdisodg2d.pm_x mass) * (x1 - Cbdisodg2d.pm_x mass)
                  + (y1 - Cbdisodg2d.pm_y mass) * (y1 - Cbdisodg2d.pm_y mass)) in
  let d := Cbdisodg2d.point_mass_source_term mass x1 y1 dt [sigma; px; py] in
  - (dt * sigma * Cbdisodg2d.sink_rate mass) <= d.[0] <= 0
  /\ (4 * Cbdisodg2d.sink_radius mass <= dr -> d.[0] = 0).
Proof.
  intros Hdt Hs Hr. cbv zeta. unfold Cbdisodg2d.point_mass_source_term. cbv zeta.
  set (dr := sqrt _).
  pose proof (sink_mass_bounds dt sigma (Cbdisodg2d.sink_rate mass) dr
                (Cbdisodg2d.sink_radius mass)
                (dr / Cbdisodg2d.sink_radius mass) Hdt Hs Hr) as H.
  cbv zeta in H.
  change ([sigma; px; py].[0]) with sigma.
  set (s := if Rlt_dec dr (4.0 * Cbdisodg2d.sink_radius mass) then _ else _) in *.
  assert (H0 : 0 <= dt * sigma * Cbdisodg2d.sink_rate mass)
    by (apply Rmult_le_pos; [apply Rmult_le_pos |]; lra).
  destruct (Cbdisodg2d.sink_model mass) as [| k | k]; cbn [nth];
    [split; [lra | intros; lra] | | split; [lra | intros; lra]].
  destruct k as [k | k |]; [destruct k | destruct k |]; cbn [nth];
    first [exact H | split; [lra | intros; lra]].
Qed.

(** X7.  A sink only removes mass, at most [sigma * rate * dt] of it, and
    none at four sink radii or more from the point mass.  The sink radius is
    the softening length [radius] in iso2d, half the disk height [h] in
    euler2d and [sink_radius] in cbdisodg_2d; [sigma], [rate] and [dt] are
    not negative. *)
Theorem sink_only_removes_mass :
  forall (dt sigma : R),
    0 <= dt -> 0 <= sigma ->
    (forall (mass : Iso2d.PointMass) (x1 y1 : R),
        0 <= Iso2d.pm_rate mass ->
        let dr := sqrt ((x1 - Iso2d.pm_x mass) * (x1 - Iso2d.pm_x mass)
                        + (y1 - Iso2d.pm_y mass) * (y1 - Iso2d.pm_y mass)) in
        let d := Iso2d.point_mass_source_term mass x1 y1 dt sigma in
        - (dt * sigma * Iso2d.pm_rate mass) <= d.[0] <= 0
        /\ (4 * Iso2d.pm_radius mass <= dr -> d.[0] = 0))
    /\
    (forall (mass : Euler2d.PointMass) (x1 y1 px py pres h : R),
        0 <= Euler2d.pm_rate mass ->
        let dr := sqrt ((x1 - Euler2d.pm_x mass) * (x1 - Euler2d.pm_x mass)
                        + (y1 - Euler2d.pm_y mass) * (y1 - Euler2d.pm_y mass)) in
        let d := Euler2d.point_mass_source_term mass x1 y1 dt [sigma; px; py; pres] h in
        - (dt * sigma * Euler2d.pm_rate mass) <= d.[0] <= 0
        /\ (4 * (0.5 * h) <= dr -> d.[0] = 0))
    /\
    (forall (mass : Cbdisodg2d.PointMass) (x1 y1 px py : R),
        0 <= Cbdisodg2d.sink_rate mass ->
        let dr := sqrt ((x1 - Cbdisodg2d.pm_x mass) * (x1 - Cbdisodg2d.pm_x mass)
                        + (y1 - Cbdisodg2d.pm_y mass) * (y1 - Cbdisodg2d.pm_y mass)) in
        let d := Cbdisodg2d.point_mass_source_term mass x1 y1 dt [sigma; px; py] in
        - (dt * sigma * Cbdisodg2d.sink_rate mass) <= d.[0] <= 0
        /\ (4 * Cbdisodg2d.sink_radius mass <= dr -> d.[0] = 0)).
Proof.
  intros dt sigma Hdt Hs. split; [| split].
  - intros mass x1 y1 Hr. apply iso2d_sink_mass; assumption.
  - intros mass x1 y1 px py pres h Hr. apply euler2d_sink_mass; assumption.
  - intros mass x1 y1 px py Hr. apply cbdisodg2d_sink_mass; assumption.
Qed.

(** A sink of unit rate and radius at the origin, seen from a zone at
    distance 5 with unit surface density. *)
Lemma sink_only_removes_mass_witness :
  let mass := Cbdisodg2d.mkPointMass 0 0 0 0 1 0.1 1 1 1 in
  let d := Cbdisodg2d.point_mass_source_term mass 3 4 0.5 [1; 0; 0] in
  - (0.5 * 1 * Cbdisodg2d.sink_rate mass) <= d.[0] <= 0
  /\ (4 * Cbdisodg2d.sink_radius mass
      <= sqrt ((3 - Cbdisodg2d.pm_x mass) * (3 - Cbdisodg2d.pm_x mass)
               + (4 - Cbdisodg2d.pm_y mass) * (4 - Cbdisodg2d.pm_y mass)) ->
      d.[0] = 0).
Proof.
  cbv zeta.
  apply (proj2 (proj2 (sink_only_removes_mass 0.5 1 ltac:(lra) ltac:(lra)))
           (Cbdisodg2d.mkPointMass 0 0 0 0 1 0.1 1 1 1) 3 4 0 0).
  cbn [Cbdisodg2d.sink_rate]. lra.
Defined.

(** A torque-free sink at the origin moving along [y], and a zone off both
    axes. *)
Lemma torque_free_sink_has_no_torque_witness :
  let mass := Euler2d.mkPointMass 0 0 0 1 1 1 Euler2d.TorqueFree in
  let d := Euler2d.point_mass_source_term mass 3 4 0.5 [1; 2; -1; 1] 0.1 in
  (3 - 0) * (d.[2] - d.[0] * 1) - (4 - 0) * (d.[1] - d.[0] * 0) = 0.
Proof.
  cbv zeta.
  apply (proj1 (torque_free_sink_has_no_torque 0 0 3 4 ltac:(lra)) 0 1 1 1 0.5 0.1
           [1; 2; -1; 1]).
Defined.

(** ** The signal speeds of srhd_1d *)

(** The velocity [u / sqrt(1 + u^2)] of a four-velocity component [u]. *)
Lemma srhd_beta_bounds (u : R) :
  let W := sqrt (1.0 + u * u) in
  1 <= W /\ W * W = 1 + u * u /\ -1 < u / W < 1 /\ (u / W) * (u / W) = u * u / (1.0 + u * u).
Proof.
  cbv zeta. replace (1.0 + u * u) with (1 + u * u) by lra.
  assert (H1 : 0 < 1 + u * u) by nra.
  set (W := sqrt (1 + u * u)).
  assert (HW2 : W * W = 1 + u * u) by (apply sqrt_sqrt; lra).
  assert (HW0 : 0 <= W) by apply sqrt_pos.
  assert (HW1 : 1 <= W) by nra.
  split; [exact HW1 |]. split; [exact HW2 |].
  assert (Hlt : - W < u < W) by (split; nra).
  split.
  - split.
    + apply Rmult_lt_reg_r with W; [lra |]. unfold Rdiv. rewrite Rmult_assoc, Rinv_l by lra. lra.
    + apply Rmult_lt_reg_r with W; [lra |]. unfold Rdiv. rewrite Rmult_assoc, Rinv_l by lra. lra.
  - rewrite <- HW2. field. lra.
Qed.

(** The sound speed squared [gamma p / (rho + 4 p)] of a state with [gamma = 4/3]. *)
Lemma srhd_sound_speed_bounds (rho pre : R) :
  0 < rho -> 0 <= pre ->
  let a2 := Srhd1d.ADIABATIC_GAMMA * pre
            / (rho + pre * (1.0 + 1.0 / (Srhd1d.ADIABATIC_GAMMA - 1.0))) in
  0 <= a2 < 1 / 3 /\ (0 < pre -> 0 < a2).
Proof.
  intros Hr Hp. cbv zeta. unfold Srhd1d.ADIABATIC_GAMMA.
  replace (4.0 / 3.0 - 1.0) with (/ 3) by lra.
  replace (1.0 / / 3) with 3 by (unfold Rdiv; rewrite Rinv_inv; lra).
  replace (rho + pre * (1.0 + 3)) with (rho + 4 * pre) by lra.
  assert (Hd : 0 < rho + 4 * pre) by lra.
  split; [split |].
  - apply Rmult_le_pos; [lra |]. left. apply Rinv_0_lt_compat. exact Hd.
  - apply Rmult_lt_reg_r with (rho + 4 * pre); [exact Hd |].
    unfold Rdiv. rewrite Rmult_assoc, Rinv_l by lra. lra.
  - intros Hpp. apply Rmult_lt_0_compat; [lra |]. apply Rinv_0_lt_compat. exact Hd.
Qed.

(** The two speeds in terms of the velocity [v] and the sound speed [cs]. *)
Lemma srhd_wavespeed_algebra (v cs : R) :
  -1 < v < 1 -> 0 <= cs < 1 ->
  let a2 := cs * cs in
  let vv := v * v in
  let k0 := cs * (1 - vv) in
  (v * (1.0 - a2) - k0) / (1.0 - vv * a2) = (v - cs) / (1 - v * cs)
  /\ (v * (1.0 - a2) + k0) / (1.0 - vv * a2) = (v + cs) / (1 + v * cs)
  /\ -1 < (v - cs) / (1 - v * cs)
  /\ (v - cs) / (1 - v * cs) <= v
  /\ v <= (v + cs) / (1 + v * cs)
  /\ (v + cs) / (1 + v * cs) < 1
  /\ (0 < cs -> (v - cs) / (1 - v * cs) < v < (v + cs) / (1 + v * cs)).
Proof.
  intros Hv Hc. cbv zeta.
  assert (Hm : 0 < 1 - v * cs) by nra.
  assert (Hp : 0 < 1 + v * cs) by nra.
  assert (Hvv : 0 < 1 - v * v) by nra.
  replace 1.0 with 1 by lra.
  split; [field; split; [nra | nra] |].
  split; [field; split; [nra | nra] |].
  assert (E1 : (v - cs) / (1 - v * cs) - v = - (cs * (1 - v * v)) / (1 - v * cs)) by (field; lra).
  assert (E2 : (v + cs) / (1 + v * cs) - v = cs * (1 - v * v) / (1 + v * cs)) by (field; lra).
  assert (E3 : (v - cs) / (1 - v * cs) + 1 = (1 + v) * (1 - cs) / (1 - v * cs)) by (field; lra).
  assert (E4 : 1 - (v + cs) / (1 + v * cs) = (1 - v) * (1 - cs) / (1 + v * cs)) by (field; lra).
  assert (P1 : 0 <= cs * (1 - v * v) / (1 - v * cs)).
  { apply Rmult_le_pos; [apply Rmult_le_pos; lra |]. left. apply Rinv_0_lt_compat. lra. }
  assert (P2 : 0 <= cs * (1 - v * v) / (1 + v * cs)).
  { apply Rmult_le_pos; [apply Rmult_le_pos; lra |]. left. apply Rinv_0_lt_compat. lra. }
  assert (P3 : 0 < (1 + v) * (1 - cs) / (1 - v * cs)).
  { apply Rmult_lt_0_compat; [apply Rmult_lt_0_compat; lra |]. apply Rinv_0_lt_compat. lra. }
  assert (P4 : 0 < (1 - v) * (1 - cs) / (1 + v * cs)).
  { apply Rmult_lt_0_compat; [apply Rmult_lt_0_compat; lra |]. apply Rinv_0_lt_compat. lra. }
  assert (N1 : - (cs * (1 - v * v)) / (1 - v * cs) = - (cs * (1 - v * v) / (1 - v * cs)))
    by (field; lra).
  split; [lra |]. split; [lra |]. split; [lra |]. split; [lra |].
  intros Hcs.
  assert (0 < cs * (1 - v * v) / (1 - v * cs)).
  { apply Rmult_lt_0_compat; [apply Rmult_lt_0_compat; lra |]. apply Rinv_0_lt_compat. lra. }
  assert (0 < cs * (1 - v * v) / (1 + v * cs)).
  { apply Rmult_lt_0_compat; [apply Rmult_lt_0_compat; lra |]. apply Rinv_0_lt_compat. lra. }
  lra.
Qed.

(** The outer wavespeeds of a state with positive density and a pressure
    that is not negative. *)
Lemma srhd_outer_wavespeeds (prim : list R) :
  0 < prim.[0] -> 0 <= prim.[2] ->
  let v := Srhd1d.primitive_to_beta_component prim in
  let cs := sqrt (Srhd1d.primitive_to_sound_speed_squared prim) in
  Srhd1d.primitive_to_outer_wavespeeds prim
  = [ (v - cs) / (1 - v * cs); (v + cs) / (1 + v * cs) ]
  /\ -1 < v < 1 /\ 0 <= cs < 1 /\ (0 < prim.[2] -> 0 < cs).
Proof.
  intros Hr Hp. cbv zeta.
  unfold Srhd1d.primitive_to_outer_wavespeeds. cbv zeta.
  unfold Srhd1d.primitive_to_beta_component, Srhd1d.primitive_to_lorentz_factor,
    Srhd1d.primitive_to_gamma_beta_squared,
    Srhd1d.primitive_to_sound_speed_squared, Srhd1d.primitive_to_enthalpy_density.
  cbv zeta.
  destruct (srhd_beta_bounds prim.[1]) as [HW1 [HW2 [Hv Hvv]]]. cbv zeta in *.
  destruct (srhd_sound_speed_bounds prim.[0] prim.[2] Hr Hp) as [Ha Hap]. cbv zeta in *.
  set (v := prim.[1] / sqrt (1.0 + prim.[1] * prim.[1])) in *.
  set (a2 := Srhd1d.ADIABATIC_GAMMA * prim.[2] / _) in *.
  rewrite <- Hvv.
  assert (Hcs2 : sqrt a2 * sqrt a2 = a2) by (apply sqrt_sqrt; lra).
  assert (Hcs0 : 0 <= sqrt a2) by apply sqrt_pos.
  assert (Hcs1 : sqrt a2 < 1) by nra.
  assert (Hk0 : sqrt (a2 * (1.0 - v * v) * (1.0 - v * v * a2 - v * v * (1.0 - a2)))
                = sqrt a2 * (1 - v * v)).
  { replace (a2 * (1.0 - v * v) * (1.0 - v * v * a2 - v * v * (1.0 - a2)))
      with (a2 * ((1 - v * v) * (1 - v * v))) by lra.
    rewrite sqrt_mult_alt by lra. rewrite sqrt_square by nra. reflexivity. }
  rewrite Hk0.
  destruct (srhd_wavespeed_algebra v (sqrt a2) Hv (conj Hcs0 Hcs1)) as [Em [Ep _]].
  cbv zeta in Em, Ep. rewrite Hcs2 in Em, Ep. rewrite Em, Ep.
  split; [reflexivity |]. split; [exact Hv |]. split; [lra |].
  intros Hpp. apply sqrt_lt_R0. apply Hap. exact Hpp.
Qed.

(** X8.  In srhd_1d the outer wavespeeds of a state with positive density
    and a pressure that is not negative are the relativistic sums of the
    fluid velocity [v] and the sound speed [cs] taken with either sign,
    [(v - cs) / (1 - v cs)] and [(v + cs) / (1 + v cs)]; they enclose [v]
    and lie strictly between [-1] and [1], the speed of light. *)
Theorem srhd1d_wavespeeds_are_velocity_sums :
  forall prim : list R,
    0 < prim.[0] -> 0 <= prim.[2] ->
    let v := Srhd1d.primitive_to_beta_component prim in
    let cs := sqrt (Srhd1d.primitive_to_sound_speed_squared prim) in
    let ai := Srhd1d.primitive_to_outer_wavespeeds prim in
    ai = [ (v - cs) / (1 - v * cs); (v + cs) / (1 + v * cs) ]
    /\ -1 < ai.[0] /\ ai.[0] <= v /\ v <= ai.[1] /\ ai.[1] < 1
    /\ (0 < prim.[2] -> ai.[0] < v < ai.[1]).
Proof.
  intros prim Hr Hp. cbv zeta.
  destruct (srhd_outer_wavespeeds prim Hr Hp) as [E [Hv [Hc Hcp]]]. cbv zeta in *.
  rewrite E. cbn [nth].
  destruct (srhd_wavespeed_algebra _ _ Hv Hc) as [_ [_ [H1 [H2 [H3 [H4 H5]]]]]].
  cbv zeta in *.
  repeat split; try assumption; apply H5; apply Hcp; assumption.
Qed.

(** A fluid of unit density and pressure with four-velocity 1. *)
Lemma srhd1d_wavespeeds_are_velocity_sums_witness :
  let v := Srhd1d.primitive_to_beta_component [1; 1; 1; 0] in
  let ai := Srhd1d.primitive_to_outer_wavespeeds [1; 1; 1; 0] in
  -1 < ai.[0] /\ ai.[0] <= v /\ v <= ai.[1] /\ ai.[1] < 1.
Proof.
  cbv zeta.
  pose proof (srhd1d_wavespeeds_are_velocity_sums [1; 1; 1; 0]
                ltac:(cbn [nth]; lra) ltac:(cbn [nth]; lra)) as H.
  cbv zeta in H. destruct H as [_ [H1 [H2 [H3 [H4 _]]]]]. auto.
Defined.

(** ** The radial boost of srhd_1d *)

Lemma boost_factor (beta : R) :
  -1 < beta < 1 ->
  let gw := 1.0 / sqrt (1.0 - beta * beta) in
  0 < gw /\ gw * gw * (1 - beta * beta) = 1.
Proof.
  intros Hb. cbv zeta. replace 1.0 with 1 by lra.
  assert (H : 0 < 1 - beta * beta) by nra.
  assert (Hs : 0 < sqrt (1 - beta * beta)) by (apply sqrt_lt_R0; exact H).
  assert (Hs2 : sqrt (1 - beta * beta) * sqrt (1 - beta * beta) = 1 - beta * beta)
    by (apply sqrt_sqrt; lra).
  split.
  - apply Rmult_lt_0_compat; [lra | apply Rinv_0_lt_compat; exact Hs].
  - rewrite <- Hs2 at 3. field. lra.
Qed.

(** The Lorentz factor of a boosted four-velocity. *)
Lemma boost_lorentz (u beta : R) :
  -1 < beta < 1 ->
  let gw := 1.0 / sqrt (1.0 - beta * beta) in
  let u0 := sqrt (1.0 + u * u) in
  let u1 := u * gw - u0 * gw * beta in
  sqrt (1.0 + u1 * u1) = gw * (u0 - beta * u) /\ 0 < u0 - beta * u.
Proof.
  intros Hb. cbv zeta.
  destruct (boost_factor beta Hb) as [Hg Hg2]. cbv zeta in *.
  destruct (srhd_beta_bounds u) as [HW1 [HW2 _]]. cbv zeta in *.
  set (gw := 1.0 / sqrt (1.0 - beta * beta)) in *.
  set (W := sqrt (1.0 + u * u)) in *.
  assert (Hpos : 0 < W - beta * u).
  { assert (- W < u < W) by (split; nra).
    destruct (Rle_dec 0 u); nra. }
  split; [| exact Hpos].
  replace (1.0 + (u * gw - W * gw * beta) * (u * gw - W * gw * beta))
    with ((gw * (W - beta * u)) * (gw * (W - beta * u))).
  - apply sqrt_square. apply Rmult_le_pos; lra.
  - replace 1.0 with (gw * gw * (1 - beta * beta) * (W * W - u * u)).
    + ring.
    + rewrite Hg2, HW2. lra.
Qed.

(** X9.  [primitive_with_radial_boost] is the Lorentz boost of the
    four-velocity to a frame that moves at [beta], with [-1 < beta < 1]:
    the boosted state has Lorentz factor [gw (u0 - beta u1)] and velocity
    [(v - beta) / (1 - v beta)], density, pressure and scalar are kept, and
    boosting the result back by [- beta] returns the four entries of the
    state. *)
Theorem srhd1d_boost_is_lorentz :
  forall (prim : list R) (beta : R),
    -1 < beta < 1 ->
    let gw := 1 / sqrt (1 - beta * beta) in
    let u0 := Srhd1d.primitive_to_lorentz_factor prim in
    let v := Srhd1d.primitive_to_beta_component prim in
    let boosted := Srhd1d.primitive_with_radial_boost prim beta in
    Srhd1d.primitive_to_lorentz_factor boosted = gw * (u0 - beta * prim.[1])
    /\ Srhd1d.primitive_to_beta_component boosted = (v - beta) / (1 - v * beta)
    /\ boosted.[0] = prim.[0] /\ boosted.[2] = prim.[2] /\ boosted.[3] = prim.[3]
    /\ Srhd1d.primitive_with_radial_boost boosted (- beta)
       = [prim.[0]; prim.[1]; prim.[2]; prim.[3]].
Proof.
  intros prim beta Hb. cbv zeta.
  destruct (boost_factor beta Hb) as [Hg Hg2]. cbv zeta in *.
  destruct (boost_lorentz prim.[1] beta Hb) as [HL Hpos]. cbv zeta in *.
  destruct (srhd_beta_bounds prim.[1]) as [HW1 [HW2 _]]. cbv zeta in *.
  unfold Srhd1d.primitive_to_beta_component, Srhd1d.primitive_to_lorentz_factor,
    Srhd1d.primitive_to_gamma_beta_squared, Srhd1d.primitive_with_radial_boost.
  cbv zeta. cbn [nth].
  unfold Srhd1d.primitive_to_lorentz_factor, Srhd1d.primitive_to_gamma_beta_squared.
  cbv zeta. cbn [nth].
  replace (1 / sqrt (1 - beta * beta)) with (1.0 / sqrt (1.0 - beta * beta))
    by (replace 1.0 with 1 by lra; reflexivity).
  replace (1.0 - - beta * - beta) with (1.0 - beta * beta) by lra.
  rewrite HL.
  set (gw := 1.0 / sqrt (1.0 - beta * beta)) in *.
  set (W := sqrt (1.0 + prim.[1] * prim.[1])) in *.
  set (u := prim.[1]) in *.
  split; [reflexivity |].
  split; [field; repeat split; lra |].
  split; [reflexivity |]. split; [reflexivity |]. split; [reflexivity |].
  f_equal. f_equal.
  replace ((u * gw - W * gw * beta) * gw - gw * (W - beta * u) * gw * - beta)
    with (u * (gw * gw * (1 - beta * beta))) by ring.
  rewrite Hg2. ring.
Qed.

(** A fluid with four-velocity 1 seen from a frame moving at half the
    speed of light. *)
Lemma srhd1d_boost_is_lorentz_witness :
  Srhd1d.primitive_with_radial_boost
    (Srhd1d.primitive_with_radial_boost [1; 1; 1; 0] 0.5) (Ropp 0.5)
  = [[1; 1; 1; 0].[0]; [1; 1; 1; 0].[1]; [1; 1; 1; 0].[2]; [1; 1; 1; 0].[3]].
Proof.
  pose proof (srhd1d_boost_is_lorentz [1; 1; 1; 0] 0.5 ltac:(lra)) as H.
  cbv zeta in H. exact (proj2 (proj2 (proj2 (proj2 (proj2 H))))).
Defined.

(** ** Consistency of the two Riemann solvers of srhd_1d *)

Lemma min2_same (x : R) : Math.min2 x x = x.
Proof. unfold Math.min2. destruct (Rlt_dec x x); reflexivity. Qed.

Lemma max2_same (x : R) : Math.max2 x x = x.
Proof. unfold Math.max2. destruct (Rgt_dec x x); reflexivity. Qed.

Lemma hll_state_same (n : nat) (U F : list R) (am ap : R) :
  length U = n -> 0 < ap - am ->
  tabulate n (fun q => (U.[q] * ap - U.[q] * am + (F.[q] - F.[q])) / (ap - am)) = U.
Proof.
  intros Hl Hg. transitivity (tabulate n (fun q => U.[q])).
  - apply tabulate_ext. intros q _. field. lra.
  - subst n. apply tabulate_nth.
Qed.

(** The conserved state and the flux of a primitive state, in terms of
    [H = E + p]: [S = H v] and the total energy flux is [H v] too. *)
Lemma srhd_state_relations (prim : list R) :
  0 < prim.[0] -> 0 < prim.[2] ->
  let v := Srhd1d.primitive_to_beta_component prim in
  let u := Srhd1d.primitive_to_conserved prim 1.0 in
  let f := Srhd1d.primitive_to_flux prim u in
  let H := u.[2] + u.[0] + prim.[2] in
  0 < H /\ u.[1] = H * v
  /\ f.[0] = v * u.[0] /\ f.[1] = v * u.[1] + prim.[2]
  /\ f.[2] = v * u.[2] + prim.[2] * v /\ f.[3] = v * u.[3]
  /\ length u = 4%nat /\ length f = 4%nat
  /\ (prim.[1] = 0 -> v = 0).
Proof.
  intros Hr Hp. cbv zeta.
  unfold Srhd1d.primitive_to_flux, Srhd1d.primitive_to_conserved. cbv zeta. cbn [nth length].
  unfold Srhd1d.primitive_to_beta_component, Srhd1d.primitive_to_enthalpy_density,
    Srhd1d.primitive_to_lorentz_factor, Srhd1d.primitive_to_gamma_beta_squared,
    Srhd1d.ADIABATIC_GAMMA.
  cbv zeta.
  destruct (srhd_beta_bounds prim.[1]) as [HW1 [HW2 _]]. cbv zeta in *.
  set (W := sqrt (1.0 + prim.[1] * prim.[1])) in *.
  replace (4.0 / 3.0 - 1.0) with (/ 3) by lra.
  replace (1.0 / / 3) with 3 by (unfold Rdiv; rewrite Rinv_inv; lra).
  replace 1.0 with 1 by lra.
  set (rho := prim.[0]) in *. set (pre := prim.[2]) in *. set (u := prim.[1]) in *.
  assert (EH : 1 * (rho * W) * ((rho + pre * (1 + 3)) / rho * W - 1) - 1 * pre
               + 1 * (rho * W) + pre = (rho + 4 * pre) * (W * W)) by (field; lra).
  rewrite EH.
  split; [apply Rmult_lt_0_compat; nra |].
  split; [field; lra |].
  split; [ring |]. split; [reflexivity |]. split; [reflexivity |].
  split; [ring |]. split; [reflexivity |]. split; [reflexivity |].
  intros ->. unfold Rdiv. ring.
Qed.

(** The contact speed of a face between two equal states. *)
Lemma hllc_contact_same (H v : R) :
  0 < H -> -1 < v < 1 ->
  let a := v * H in
  let b := - (H * (1 + v * v)) in
  let c := H * v in
  v = 0 \/ 1e-10 <= Rabs a ->
  (if Rlt_dec (Math.fabs a) 1e-10
   then - c / b
   else (- b - sqrt (b * b - 4.0 * a * c)) / (2.0 * a)) = v.
Proof.
  intros HH Hv. cbv zeta. intros Hor. unfold Math.fabs.
  destruct (Rlt_dec (Rabs (v * H)) 1e-10) as [Hlt | Hge].
  - destruct Hor as [-> | Hbig]; [| lra]. unfold Rdiv. ring.
  - assert (Hv0 : v <> 0).
    { intros ->. apply Hge. rewrite Rmult_0_l, Rabs_R0. lra. }
    replace (- (H * (1 + v * v)) * - (H * (1 + v * v)) - 4.0 * (v * H) * (H * v))
      with ((H * (1 - v * v)) * (H * (1 - v * v))) by lra.
    rewrite sqrt_square by (apply Rmult_le_pos; nra).
    replace 2.0 with 2 by lra. field. split; lra.
Qed.

(** The star state between a wave of speed [lam] and a contact that moves
    with the fluid is the state itself. *)
Lemma hllc_star_same (D S tau Ds v pre lam vf : R) :
  S = (tau + D + pre) * v -> lam - v <> 0 ->
  let D_star := D * (lam - v) / (lam - v) in
  let E_star := (lam * (tau + D) - S + pre * v) / (lam - v) in
  let Sr_star := (E_star + pre) * v in
  let tau_star := E_star - D_star in
  let s_star := Ds * (lam - v) / (lam - v) in
  [ D_star * v - vf * D_star;
    Sr_star * v + pre - vf * Sr_star;
    Sr_star - D_star * v - vf * tau_star;
    s_star * v - vf * s_star ]
  = [ v * D - vf * D; v * S + pre - vf * S; v * tau + pre * v - vf * tau; v * Ds - vf * Ds ].
Proof.
  intros HS Hl. cbv zeta.
  assert (E1 : D * (lam - v) / (lam - v) = D) by (field; exact Hl).
  assert (E2 : (lam * (tau + D) - S + pre * v) / (lam - v) = tau + D)
    by (rewrite HS; field; exact Hl).
  assert (E3 : Ds * (lam - v) / (lam - v) = Ds) by (field; exact Hl).
  rewrite E1, E2, E3.
  f_equal; [ring |]. f_equal; [rewrite HS; ring |]. f_equal; [ring |].
  f_equal. ring.
Qed.

Lemma srhd_same_state_speeds (prim : list R) :
  0 < prim.[0] -> 0 < prim.[2] ->
  let v := Srhd1d.primitive_to_beta_component prim in
  let al := Srhd1d.primitive_to_outer_wavespeeds prim in
  Math.min2 al.[0] al.[0] = al.[0] /\ Math.max2 al.[1] al.[1] = al.[1]
  /\ al.[0] < v < al.[1] /\ -1 < v < 1.
Proof.
  intros Hr Hp. cbv zeta. rewrite min2_same, max2_same.
  destruct (srhd_outer_wavespeeds prim Hr (Rlt_le _ _ Hp)) as [E [Hv [Hc Hcp]]].
  cbv zeta in *. rewrite E. cbn [nth].
  destruct (srhd_wavespeed_algebra _ _ Hv Hc) as [_ [_ [_ [_ [_ [_ H5]]]]]].
  cbv zeta in H5. specialize (H5 (Hcp Hp)).
  repeat split; lra.
Qed.

(** X10.  The HLLE flux of srhd_1d is consistent: for two equal states of
    positive density and pressure and a face that moves at any speed
    [v_face], [riemann_hlle] returns [F - v_face U], the flux of the state
    through the moving face. *)
Theorem srhd1d_hlle_consistent :
  forall (prim : list R) (v_face : R),
    0 < prim.[0] -> 0 < prim.[2] ->
    let u := Srhd1d.primitive_to_conserved prim 1 in
    let f := Srhd1d.primitive_to_flux prim u in
    Srhd1d.riemann_hlle prim prim v_face
    = tabulate Srhd1d.NCONS (fun q => f.[q] - v_face * u.[q]).
Proof.
  intros prim vf Hr Hp. cbv zeta.
  destruct (srhd_same_state_speeds prim Hr Hp) as [Emin [Emax [Hlam _]]]. cbv zeta in *.
  destruct (srhd_state_relations prim Hr Hp) as [_ [_ [_ [_ [_ [_ [Lu [Lf _]]]]]]]].
  cbv zeta in *.
  unfold Srhd1d.riemann_hlle. cbv zeta. rewrite Emin, Emax.
  replace (Srhd1d.primitive_to_conserved prim 1)
    with (Srhd1d.primitive_to_conserved prim 1.0) by (f_equal; lra).
  set (u := Srhd1d.primitive_to_conserved prim 1.0) in *.
  set (f := Srhd1d.primitive_to_flux prim u) in *.
  set (am := (Srhd1d.primitive_to_outer_wavespeeds prim).[0]) in *.
  set (ap := (Srhd1d.primitive_to_outer_wavespeeds prim).[1]) in *.
  destruct (Rlt_dec vf am); [reflexivity |].
  destruct (Rgt_dec vf ap); [reflexivity |].
  apply tabulate_ext. intros q _. field. lra.
Qed.

(** A fluid of unit density and pressure with four-velocity 1, and a face
    that moves at a tenth of the speed of light. *)
Lemma srhd1d_hlle_consistent_witness :
  Srhd1d.riemann_hlle [1; 1; 1; 0] [1; 1; 1; 0] 0.1
  = tabulate Srhd1d.NCONS
      (fun q =>
         (Srhd1d.primitive_to_flux [1; 1; 1; 0]
            (Srhd1d.primitive_to_conserved [1; 1; 1; 0] 1)).[q]
         - 0.1 * (Srhd1d.primitive_to_conserved [1; 1; 1; 0] 1).[q]).
Proof.
  apply (srhd1d_hlle_consistent [1; 1; 1; 0] 0.1); cbn [nth]; lra.
Defined.

(** The HLLC flux between two equal states. *)
Lemma hllc_same_state_flux : 
  forall (prim : list R) (v_face : R),
    0 < prim.[0] -> 0 < prim.[2] ->
    let u := Srhd1d.primitive_to_conserved prim 1 in
    let f := Srhd1d.primitive_to_flux prim u in
    prim.[1] = 0 \/ 1e-10 <= Rabs (f.[2] + f.[0]) ->
    Srhd1d.riemann_hllc prim prim v_face
    = tabulate Srhd1d.NCONS (fun q => f.[q] - v_face * u.[q]).
Proof.
  intros prim vf Hr Hp. cbv zeta.
  destruct (srhd_same_state_speeds prim Hr Hp) as [Emin [Emax [Hlam Hv]]]. cbv zeta in *.
  destruct (srhd_state_relations prim Hr Hp)
    as [HH [HS [F0 [F1 [F2 [F3 [Lu [Lf Hrest]]]]]]]].
  cbv zeta in *.
  unfold Srhd1d.riemann_hllc. cbv zeta. rewrite Emin, Emax.
  replace (Srhd1d.primitive_to_conserved prim 1)
    with (Srhd1d.primitive_to_conserved prim 1.0) by (f_equal; lra).
  set (u := Srhd1d.primitive_to_conserved prim 1.0) in *.
  set (f := Srhd1d.primitive_to_flux prim u) in *.
  set (am := (Srhd1d.primitive_to_outer_wavespeeds prim).[0]) in *.
  set (ap := (Srhd1d.primitive_to_outer_wavespeeds prim).[1]) in *.
  set (v := Srhd1d.primitive_to_beta_component prim) in *.
  intros Hor.
  destruct (Rlt_dec vf am); [reflexivity |].
  destruct (Rgt_dec vf ap); [reflexivity |].
  rewrite (hll_state_same Srhd1d.NCONS u f am ap Lu) by lra.
  rewrite (hlle_average_same Srhd1d.NCONS f u am ap Lf) by lra.
  set (H := u.[2] + u.[0] + prim.[2]) in *.
  assert (Ea : f.[2] + f.[0] = v * H) by (rewrite F2, F0; unfold H; ring).
  assert (Eb : - (u.[2] + u.[0] + f.[1]) = - (H * (1 + v * v)))
    by (rewrite F1, HS; unfold H; ring).
  assert (Ec : u.[1] = H * v) by exact HS.
  assert (Hor' : v = 0 \/ 1e-10 <= Rabs (v * H)).
  { destruct Hor as [H0 | Hbig]; [left; apply Hrest; exact H0 | right; rewrite <- Ea; exact Hbig]. }
  pose proof (hllc_contact_same H v HH Hv Hor') as Hstar. cbv zeta in Hstar.
  rewrite Ea, Eb, Ec, Hstar.
  replace (- (v * H) * v + f.[1]) with prim.[2] by (rewrite F1, HS; ring).
  assert (Eout : tabulate Srhd1d.NCONS (fun q => f.[q] - vf * u.[q])
                 = [ v * u.[0] - vf * u.[0]; v * (H * v) + prim.[2] - vf * (H * v);
                     v * u.[2] + prim.[2] * v - vf * u.[2]; v * u.[3] - vf * u.[3] ]).
  { unfold tabulate, Srhd1d.NCONS. cbn [map seq]. rewrite F0, F1, F2, F3, HS. reflexivity. }
  rewrite Eout.
  destruct (Rlt_dec vf v).
  - apply (hllc_star_same u.[0] (H * v) u.[2] u.[3] v prim.[2] am vf);
      [unfold H; ring | lra].
  - apply (hllc_star_same u.[0] (H * v) u.[2] u.[3] v prim.[2] ap vf);
      [unfold H; ring | lra].
Qed.

(** X11.  The HLLC flux of srhd_1d is consistent for a state of positive
    density and pressure that is at rest, or whose total energy flux
    [F_tau + F_D] is at least the threshold [1e-10] of the solver: for two
    such equal states [riemann_hllc] finds the contact speed to be the fluid
    velocity and returns [F - v_face U] for every face speed. *)
Theorem srhd1d_hllc_consistent :
  forall (prim : list R) (v_face : R),
    0 < prim.[0] -> 0 < prim.[2] ->
    let u := Srhd1d.primitive_to_conserved prim 1 in
    let f := Srhd1d.primitive_to_flux prim u in
    prim.[1] = 0 \/ 1e-10 <= Rabs (f.[2] + f.[0]) ->
    Srhd1d.riemann_hllc prim prim v_face
    = tabulate Srhd1d.NCONS (fun q => f.[q] - v_face * u.[q]).
Proof. exact hllc_same_state_flux. Qed.

(** A fluid of unit density and pressure at rest, and a face at rest. *)
Lemma srhd1d_hllc_consistent_witness :
  Srhd1d.riemann_hllc [1; 0; 1; 0] [1; 0; 1; 0] 0
  = tabulate Srhd1d.NCONS
      (fun q =>
         (Srhd1d.primitive_to_flux [1; 0; 1; 0]
            (Srhd1d.primitive_to_conserved [1; 0; 1; 0] 1)).[q]
         - 0 * (Srhd1d.primitive_to_conserved [1; 0; 1; 0] 1).[q]).
Proof.
  apply (srhd1d_hllc_consistent [1; 0; 1; 0] 0); cbn [nth]; first [lra | left; reflexivity].
Defined.

(** ** The zone loops of srhd_1d *)

Lemma block_nth (a : list R) (off q : nat) :
  (q < 4)%nat -> (Srhd1d.block a off).[q] = a.[off + q].
Proof.
  intros Hq. unfold Srhd1d.block, Srhd1d.NCONS. rewrite nth_firstn.
  destruct (Nat.ltb_spec q 4) as [_ | H]; [| lia]. apply nth_skipn.
Qed.

Lemma store_block_nth (a : list R) (off : nat) (v : list R) :
  length (Srhd1d.store_block a off v) = length a
  /\ forall n,
       (Srhd1d.store_block a off v).[n]
       = if ((off <=? n)%nat && (n <? off + 4)%nat && (n <? length a)%nat)%bool
         then v.[n - off] else a.[n].
Proof.
  unfold Srhd1d.store_block, Srhd1d.NCONS. cbn [seq fold_left].
  split; [rewrite !length_upd; reflexivity |].
  intros n.
  destruct (Nat.ltb_spec n (length a)) as [Hn | Hn].
  - rewrite andb_true_r.
    destruct (Nat.leb_spec off n) as [Ho | Ho]; cbn [andb].
    + destruct (Nat.ltb_spec n (off + 4)) as [H4 | H4].
      * assert (Hc : (n = off + 0 \/ n = off + 1 \/ n = off + 2 \/ n = off + 3)%nat) by lia.
        destruct Hc as [-> | [-> | [-> | ->]]].
        -- rewrite !nth_upd_other by lia. rewrite nth_upd_same by lia.
           f_equal. lia.
        -- rewrite !nth_upd_other by lia. rewrite nth_upd_same by (rewrite !length_upd; lia).
           f_equal. lia.
        -- rewrite !nth_upd_other by lia. rewrite nth_upd_same by (rewrite !length_upd; lia).
           f_equal. lia.
        -- rewrite nth_upd_same by (rewrite !length_upd; lia). f_equal. lia.
      * rewrite !nth_upd_other by lia. reflexivity.
    + rewrite !nth_upd_other by lia. reflexivity.
  - rewrite andb_false_r. rewrite !nth_overflow; [reflexivity | lia |].
    rewrite !length_upd. lia.
Qed.

Lemma FOR_EACH_1D_fold {S : Type} (n : nat) (body : nat -> S -> S) (s : S) :
  Srhd1d.FOR_EACH_1D n body s = fold_left (fun s i => body i s) (seq 0 n) s.
Proof. reflexivity. Qed.

(** The indices of the block of zone [x]. *)
Lemma existsb_block (n off : nat) :
  existsb (Nat.eqb n) [off; (off + 1)%nat; (off + 2)%nat; (off + 3)%nat]
  = ((off <=? n)%nat && (n <? off + 4)%nat)%bool.
Proof.
  cbn [existsb]. rewrite orb_false_r.
  destruct (Nat.leb_spec off n), (Nat.ltb_spec n (off + 4)); cbn [andb];
    repeat match goal with |- context [(?a =? ?b)%nat] => destruct (Nat.eqb_spec a b) end;
    cbn [orb]; try reflexivity; lia.
Qed.

(** A loop over zones whose body stores a block for the zones that [skip]
    does not exclude. *)
Lemma zone_blocks_loop (skip : nat -> bool) (zone : nat -> list R) (g : nat) (nz : nat)
    (a : list R) :
  (4 * (nz + g) <= length a)%nat ->
  let out :=
    fold_left
      (fun b i => if skip i then b else Srhd1d.store_block b (4 * (i + g)) (zone i))
      (seq 0 nz) a in
  length out = length a
  /\ (forall i q, (i < nz)%nat -> (q < 4)%nat ->
        out.[4 * (i + g) + q] = if skip i then a.[4 * (i + g) + q] else (zone i).[q])
  /\ (forall n, (n < 4 * g \/ 4 * (nz + g) <= n)%nat -> out.[n] = a.[n]).
Proof.
  intros Hlen. cbv zeta.
  pose proof (fold_writes_nth
                (fun i b => if skip i then b else Srhd1d.store_block b (4 * (i + g)) (zone i))
                (fun i => if skip i then []
                          else [4 * (i + g); 4 * (i + g) + 1; 4 * (i + g) + 2; 4 * (i + g) + 3]%nat)
                (fun i n => (zone i).[n - 4 * (i + g)])
                (seq 0 nz) a) as H.
  destruct H as [Hl Hn].
  { intros x b Hx Hb. apply in_seq in Hx.
    destruct (skip x).
    - split; [exact Hb |]. intros n. reflexivity.
    - destruct (store_block_nth b (4 * (x + g)) (zone x)) as [Hl' Hn'].
      split; [rewrite Hl'; exact Hb |]. intros n. rewrite Hn', existsb_block.
      destruct (Nat.ltb_spec n (length b)) as [Hnb | Hnb]; [rewrite andb_true_r; reflexivity |].
      rewrite andb_false_r.
      destruct ((4 * (x + g) <=? n)%nat && (n <? 4 * (x + g) + 4)%nat)%bool eqn:E;
        [| reflexivity].
      apply andb_prop in E. destruct E as [E1 E2].
      apply Nat.leb_le in E1. apply Nat.ltb_lt in E2. lia. }
  split; [exact Hl |]. split.
  - intros i q Hi Hq. rewrite Hn.
    destruct (find _ (rev (seq 0 nz))) as [x |] eqn:Ef.
    + apply find_some in Ef. destruct Ef as [Hin Hx].
      apply in_rev in Hin. apply in_seq in Hin.
      destruct (skip x) eqn:Es; [discriminate |].
      rewrite existsb_block in Hx. apply andb_prop in Hx. destruct Hx as [E1 E2].
      apply Nat.leb_le in E1. apply Nat.ltb_lt in E2.
      assert (x = i) by lia. subst x. rewrite Es. f_equal. lia.
    + destruct (skip i) eqn:Es; [reflexivity |].
      pose proof (find_none _ _ Ef i) as Hf. cbv beta in Hf.
      rewrite Es, existsb_block in Hf.
      assert (Hin : In i (rev (seq 0 nz))) by (apply in_rev; rewrite rev_involutive; apply in_seq; lia).
      specialize (Hf Hin). apply andb_false_iff in Hf.
      destruct Hf as [Hf | Hf]; [apply Nat.leb_gt in Hf | apply Nat.ltb_ge in Hf]; lia.
  - intros n Hout. rewrite Hn.
    destruct (find _ (rev (seq 0 nz))) as [x |] eqn:Ef; [| reflexivity].
    apply find_some in Ef. destruct Ef as [Hin Hx].
    apply in_rev in Hin. apply in_seq in Hin.
    destruct (skip x) eqn:Es; [discriminate |].
    rewrite existsb_block in Hx. apply andb_prop in Hx. destruct Hx as [E1 E2].
    apply Nat.leb_le in E1. apply Nat.ltb_lt in E2. lia.
Qed.

Lemma fixed_zone_iff (num_zones : nat) (fix_i0 fix_i1 : Z) (i : nat) :
  Srhd1d.fixed_zone num_zones fix_i0 fix_i1 i = true
  <-> (fix_i0 <> 0%Z /\ i = 0%nat) \/ (fix_i1 <> 0%Z /\ S i = num_zones).
Proof.
  unfold Srhd1d.fixed_zone.
  rewrite orb_true_iff, !andb_true_iff, !negb_true_iff, !Z.eqb_neq, !Z.eqb_eq.
  split; intros [[H1 H2] | [H1 H2]]; [left | right | left | right]; split; auto; lia.
Qed.

(** X12.  [srhd_1d_advance_rk] writes the block of every zone that is not
    fixed with the update of that zone, and nothing else: the two guard
    blocks at either end of [conserved_wr] and the blocks of the fixed zones
    are as they were.  A zone is fixed when it is the first one and [fix_i0]
    is not zero, or the last one and [fix_i1] is not zero. *)
Theorem srhd1d_advance_rk_writes :
  forall (num_zones : nat)
         (face_positions conserved_rk primitive_rd conserved_rd conserved_wr : list R)
         (a0 adot time rk_param dt : R) (fix_i0 fix_i1 coords : Z),
    (4 * (num_zones + 4) <= length conserved_wr)%nat ->
    let out :=
      Srhd1d.srhd_1d_advance_rk num_zones face_positions conserved_rk primitive_rd
        conserved_rd conserved_wr a0 adot time rk_param dt fix_i0 fix_i1 coords in
    length out = length conserved_wr
    /\ (forall i q : nat, (i < num_zones)%nat -> (q < 4)%nat ->
          let fixed := (fix_i0 <> 0%Z /\ i = 0%nat) \/ (fix_i1 <> 0%Z /\ S i = num_zones) in
          (~ fixed ->
           out.[4 * (i + 2) + q]
           = (Srhd1d.advance_rk_zone face_positions conserved_rk primitive_rd conserved_rd
                a0 adot time rk_param dt coords i).[q])
          /\ (fixed -> out.[4 * (i + 2) + q] = conserved_wr.[4 * (i + 2) + q]))
    /\ (forall n : nat, (n < 8 \/ 4 * (num_zones + 2) <= n)%nat -> out.[n] = conserved_wr.[n]).
Proof.
  intros nz fp crk prd crd cwr a0 adot time rk dt f0 f1 coords Hlen. cbv zeta.
  unfold Srhd1d.srhd_1d_advance_rk. cbv zeta. rewrite FOR_EACH_1D_fold.
  change Srhd1d.NCONS with 4%nat.
  destruct (zone_blocks_loop (Srhd1d.fixed_zone nz f0 f1)
              (Srhd1d.advance_rk_zone fp crk prd crd a0 adot time rk dt coords) 2 nz cwr)
    as [Hl [Hz Hg]]; [lia |].
  split; [exact Hl |]. split.
  - intros i q Hi Hq. rewrite (Hz i q Hi Hq). split; intros Hf.
    + destruct (Srhd1d.fixed_zone nz f0 f1 i) eqn:E; [| reflexivity].
      apply fixed_zone_iff in E. contradiction.
    + apply fixed_zone_iff in Hf. rewrite Hf. reflexivity.
  - intros n Hn. apply Hg. lia.
Qed.

(** Three zones with the first one fixed. *)
Lemma srhd1d_advance_rk_writes_witness :
  length (Srhd1d.srhd_1d_advance_rk 3 [0; 1; 2; 3] (repeat 1 28) (repeat 1 28) (repeat 1 28)
            (repeat 0 28) 1 0 0 0 0.1 1 0 0)
  = length (repeat 0 28).
Proof.
  apply (srhd1d_advance_rk_writes 3 [0; 1; 2; 3] (repeat 1 28) (repeat 1 28) (repeat 1 28)
           (repeat 0 28) 1 0 0 0 0.1 1 0 0).
  rewrite repeat_length. lia.
Defined.

(** ** Conservation in srhd_1d *)

Lemma nth_zeros4 (q : nat) : [0.0; 0.0; 0.0; 0.0].[q] = 0.
Proof. destruct q as [| [| [| [| q]]]]; cbn [nth]; try lra. destruct q; lra. Qed.

(** The update of a zone in cartesian coordinates at the last stage
    ([rk_param = 0]). *)
Lemma advance_rk_zone_cartesian
    (fp crk prd crd : list R) (a0 adot time dt : R) (i q : nat) :
  (q < 4)%nat ->
  (Srhd1d.advance_rk_zone fp crk prd crd a0 adot time 0 dt 0 i).[q]
  = crd.[4 * (i + 2) + q]
    + dt * ((fst (Srhd1d.face_fluxes fp prd adot i)).[q]
            - (snd (Srhd1d.face_fluxes fp prd adot i)).[q]).
Proof.
  intros Hq. unfold Srhd1d.advance_rk_zone. cbv zeta.
  change Srhd1d.NCONS with 4%nat.
  rewrite nth_tabulate by exact Hq.
  cbn [Srhd1d.face_area Srhd1d.geometric_source_terms].
  rewrite nth_zeros4, block_nth by exact Hq. lra.
Qed.

Lemma sum_telescopes (F : nat -> R) (n : nat) :
  fold_right Rplus 0 (map (fun i => F i - F (i + 1)%nat) (seq 0 n)) = F 0%nat - F n.
Proof.
  induction n as [| n IH].
  - cbn. lra.
  - rewrite seq_S, map_app, fold_right_app. cbn [map fold_right Nat.add].
    transitivity (fold_right Rplus 0 (map (fun i : nat => F i - F (i + 1)%nat) (seq 0 n))
                  + (F n - F (n + 1)%nat)).
    + generalize (map (fun i : nat => F i - F (i + 1)%nat) (seq 0 n)) as l.
      intros l. induction l as [| h t IHl]; cbn [fold_right]; [lra | rewrite IHl; lra].
    + rewrite IH. replace (S n) with (n + 1)%nat by lia. lra.
Qed.

Lemma sum_plus (f g : nat -> R) (ks : list nat) :
  fold_right Rplus 0 (map (fun i => f i + g i) ks)
  = fold_right Rplus 0 (map f ks) + fold_right Rplus 0 (map g ks).
Proof. induction ks as [| k ks IH]; cbn [map fold_right]; [lra | rewrite IH; lra]. Qed.

Lemma sum_scale (c : R) (f : nat -> R) (ks : list nat) :
  fold_right Rplus 0 (map (fun i => c * f i) ks) = c * fold_right Rplus 0 (map f ks).
Proof. induction ks as [| k ks IH]; cbn [map fold_right]; [lra | rewrite IH; lra]. Qed.

Lemma sum_ext (f g : nat -> R) (ks : list nat) :
  (forall i, In i ks -> f i = g i) ->
  fold_right Rplus 0 (map f ks) = fold_right Rplus 0 (map g ks).
Proof. intros H. f_equal. apply map_ext_in. exact H. Qed.

Lemma face_fluxes_step (fp prd : list R) (adot : R) (i : nat) :
  snd (Srhd1d.face_fluxes fp prd adot i) = fst (Srhd1d.face_fluxes fp prd adot (i + 1)).
Proof.
  unfold Srhd1d.face_fluxes. cbv zeta. cbn [fst snd].
  replace (i + 1 + 2 - 1)%nat with (i + 2)%nat by lia.
  replace (i + 1 + 2 - 2)%nat with (i + 2 - 1)%nat by lia.
  replace (i + 1 + 2)%nat with (i + 2 + 1)%nat by lia.
  replace (i + 2 + 1 + 1)%nat with (i + 2 + 2)%nat by lia.
  reflexivity.
Qed.

(** X13.  [srhd_1d_advance_rk] is conservative in cartesian coordinates:
    at the last stage ([rk_param = 0]) and with no fixed zone, each
    conserved quantity summed over the zones of the patch changes by [dt]
    times the flux through the left face of the first zone minus the flux
    through the right face of the last zone; the fluxes through the inner
    faces cancel. *)
Theorem srhd1d_advance_rk_conserves :
  forall (num_zones : nat)
         (face_positions conserved_rk primitive_rd conserved_rd conserved_wr : list R)
         (a0 adot time dt : R) (q : nat),
    (0 < num_zones)%nat -> (q < 4)%nat ->
    (4 * (num_zones + 4) <= length conserved_wr)%nat ->
    let out :=
      Srhd1d.srhd_1d_advance_rk num_zones face_positions conserved_rk primitive_rd
        conserved_rd conserved_wr a0 adot time 0 dt 0 0 0 in
    let total := fun a : list R =>
      fold_right Rplus 0 (map (fun i => a.[4 * (i + 2) + q]) (seq 0 num_zones)) in
    total out
    = total conserved_rd
      + dt * ((fst (Srhd1d.face_fluxes face_positions primitive_rd adot 0)).[q]
              - (snd (Srhd1d.face_fluxes face_positions primitive_rd adot
                        (num_zones - 1))).[q]).
Proof.
  intros nz fp crk prd crd cwr a0 adot time dt q Hnz Hq Hlen. cbv zeta.
  unfold Srhd1d.srhd_1d_advance_rk. cbv zeta. rewrite FOR_EACH_1D_fold.
  change Srhd1d.NCONS with 4%nat.
  destruct (zone_blocks_loop (Srhd1d.fixed_zone nz 0 0)
              (Srhd1d.advance_rk_zone fp crk prd crd a0 adot time 0 dt 0) 2 nz cwr)
    as [_ [Hz _]]; [lia |].
  set (F := fun i => (fst (Srhd1d.face_fluxes fp prd adot i)).[q]).
  rewrite (sum_ext _ (fun i => crd.[4 * (i + 2) + q] + dt * (F i - F (i + 1)%nat))).
  - rewrite sum_plus, sum_scale, sum_telescopes. unfold F.
    rewrite (face_fluxes_step fp prd adot (nz - 1)).
    replace (nz - 1 + 1)%nat with nz by lia. reflexivity.
  - intros i Hi. apply in_seq in Hi. rewrite (Hz i q ltac:(lia) Hq).
    assert (E : Srhd1d.fixed_zone nz 0 0 i = false).
    { destruct (Srhd1d.fixed_zone nz 0 0 i) eqn:E; [| reflexivity].
      apply fixed_zone_iff in E. destruct E as [[E _] | [E _]]; contradiction. }
    rewrite E, advance_rk_zone_cartesian by exact Hq. unfold F.
    rewrite face_fluxes_step. reflexivity.
Qed.

(** Three zones of a fluid at rest with a pressure step. *)
Lemma srhd1d_advance_rk_conserves_witness :
  let prd := [1; 0; 1; 0; 1; 0; 1; 0; 1; 0; 1; 0; 1; 0; 2; 0; 1; 0; 2; 0; 1; 0; 2; 0;
              1; 0; 2; 0] in
  let out := Srhd1d.srhd_1d_advance_rk 3 [0; 1; 2; 3] (repeat 1 28) prd (repeat 1 28)
               (repeat 0 28) 1 0 0 0 0.1 0 0 0 in
  fold_right Rplus 0 (map (fun i => out.[4 * (i + 2) + 1]) (seq 0 3))
  = fold_right Rplus 0 (map (fun i => (repeat 1 28).[4 * (i + 2) + 1]) (seq 0 3))
    + 0.1 * ((fst (Srhd1d.face_fluxes [0; 1; 2; 3] prd 0 0)).[1]
             - (snd (Srhd1d.face_fluxes [0; 1; 2; 3] prd 0 (3 - 1))).[1]).
Proof.
  cbv zeta.
  apply (srhd1d_advance_rk_conserves 3 [0; 1; 2; 3] (repeat 1 28)
           [1; 0; 1; 0; 1; 0; 1; 0; 1; 0; 1; 0; 1; 0; 2; 0; 1; 0; 2; 0; 1; 0; 2; 0;
            1; 0; 2; 0] (repeat 1 28) (repeat 0 28) 1 0 0 0.1 1);
    [lia | lia | rewrite repeat_length; lia].
Defined.

(** ** Steady states of srhd_1d *)

Lemma srhd1d_plm_gradient_flat (p : list R) :
  Srhd1d.plm_gradient p p p = [0; 0; 0; 0].
Proof.
  unfold Srhd1d.plm_gradient, tabulate, Srhd1d.NCONS. cbn [map seq].
  rewrite !srhd1d_plm_formula, !plm_formula_flat. reflexivity.
Qed.

Lemma tabulate4_shift_zero (p : list R) (s : R) :
  length p = 4%nat ->
  tabulate Srhd1d.NCONS (fun q => p.[q] + s * [0; 0; 0; 0].[q]) = p
  /\ tabulate Srhd1d.NCONS (fun q => p.[q] - s * [0; 0; 0; 0].[q]) = p.
Proof.
  intros Hl.
  destruct p as [| a [| b [| c [| d [| e t]]]]]; try discriminate.
  unfold tabulate, Srhd1d.NCONS. cbn [map seq nth].
  split; repeat (f_equal; try lra).
Qed.

(** The HLLC flux between two equal states at rest, through a face at rest:
    the pressure, in the momentum component. *)
Lemma srhd1d_hllc_flux_rest (p : list R) :
  length p = 4%nat -> 0 < p.[0] -> p.[1] = 0 -> 0 < p.[2] ->
  Srhd1d.riemann_hllc p p 0 = [0; p.[2]; 0; 0].
Proof.
  intros Hl Hr Hu Hp.
  rewrite (hllc_same_state_flux p 0 Hr Hp (or_introl Hu)).
  unfold Srhd1d.primitive_to_flux, Srhd1d.primitive_to_beta_component. cbv zeta.
  rewrite Hu. unfold tabulate, Srhd1d.NCONS. cbn [map seq nth].
  unfold Rdiv. repeat (f_equal; try ring).
Qed.

(** The two fluxes of a zone whose five-zone stencil holds one state, on a
    mesh at rest. *)
Lemma face_fluxes_uniform (fp prd : list R) (p : list R) (i : nat) :
  length p = 4%nat ->
  (forall k, (k < 5)%nat -> Srhd1d.block prd (4 * (i + k)) = p) ->
  Srhd1d.face_fluxes fp prd 0 i = (Srhd1d.riemann_hllc p p 0, Srhd1d.riemann_hllc p p 0).
Proof.
  intros Hl Hb. unfold Srhd1d.face_fluxes. cbv zeta. change Srhd1d.NCONS with 4%nat.
  replace (i + 2 - 2)%nat with (i + 0)%nat by lia.
  replace (i + 2 - 1)%nat with (i + 1)%nat by lia.
  replace (i + 2 + 1)%nat with (i + 3)%nat by lia.
  replace (i + 2 + 2)%nat with (i + 4)%nat by lia.
  rewrite !Hb by lia.
  rewrite srhd1d_plm_gradient_flat.
  change 4%nat with Srhd1d.NCONS.
  destruct (tabulate4_shift_zero p 0.5 Hl) as [-> ->].
  rewrite !Rmult_0_r. reflexivity.
Qed.

(** X14.  A uniform state is a steady state of [srhd_1d_advance_rk] on a
    mesh at rest ([adot = 0]): if the five zones around a zone that is not
    fixed hold one primitive state of positive density and pressure, the zone
    is written with [(1 - rk_param) urd + rk_param urk], its read state
    averaged with the checkpoint, with no contribution of the fluxes.  This
    holds in cartesian coordinates for a fluid at rest or with a total energy
    flux of at least [1e-10], and in spherical coordinates for a fluid at
    rest, where the pressure on the two faces is balanced by the geometric
    source term. *)
Theorem srhd1d_uniform_state_is_steady :
  forall (face_positions conserved_rk primitive_rd conserved_rd : list R)
         (a0 time rk_param dt : R) (coords : Z) (p : list R) (i q : nat),
    length p = 4%nat -> (q < 4)%nat ->
    (forall k, (k < 5)%nat -> Srhd1d.block primitive_rd (4 * (i + k)) = p) ->
    0 < p.[0] -> 0 < p.[2] ->
    let f := Srhd1d.primitive_to_flux p (Srhd1d.primitive_to_conserved p 1) in
    (coords = 0%Z /\ (p.[1] = 0 \/ 1e-10 <= Rabs (f.[2] + f.[0])))
    \/ (coords = 1%Z /\ p.[1] = 0) ->
    (Srhd1d.advance_rk_zone face_positions conserved_rk primitive_rd conserved_rd
       a0 0 time rk_param dt coords i).[q]
    = (1 - rk_param) * conserved_rd.[4 * (i + 2) + q]
      + rk_param * conserved_rk.[4 * (i + 2) + q].
Proof.
  intros fp crk prd crd a0 time rk dt coords p i q Hl Hq Hb Hr Hp. cbv zeta. intros Hc.
  unfold Srhd1d.advance_rk_zone. cbv zeta.
  rewrite (face_fluxes_uniform fp prd p i Hl Hb). cbn [fst snd].
  change Srhd1d.NCONS with 4%nat.
  rewrite nth_tabulate by exact Hq.
  rewrite !block_nth by exact Hq.
  replace (1.0 - rk) with (1 - rk) by lra.
  destruct Hc as [[-> _] | [-> Hu]].
  - cbn [Srhd1d.face_area Srhd1d.geometric_source_terms]. rewrite nth_zeros4. lra.
  - cbn [Srhd1d.face_area Srhd1d.geometric_source_terms].
    pose proof (Hb 2%nat ltac:(lia)) as Hprd. change 4%nat with Srhd1d.NCONS in Hprd.
    change 4%nat with Srhd1d.NCONS. rewrite Hprd.
    pose proof (srhd1d_hllc_flux_rest p Hl Hr Hu Hp) as HF. rewrite HF.
    unfold Srhd1d.NOMINAL_FOUR_PI.
    destruct q as [| [| [| [| q]]]]; cbn [nth]; try lra. lia.
Qed.

(** Five zones of a fluid at rest in spherical coordinates, between the
    radii 2 and 3. *)
Lemma srhd1d_uniform_state_is_steady_witness :
  let prd := [1; 0; 1; 0; 1; 0; 1; 0; 1; 0; 1; 0; 1; 0; 1; 0; 1; 0; 1; 0] in
  (Srhd1d.advance_rk_zone [2; 3] (repeat 2 20) prd (repeat 3 20) 1 0 0 0.5 0.1 1 0).[1]
  = (1 - 0.5) * (repeat 3 20).[4 * (0 + 2) + 1] + 0.5 * (repeat 2 20).[4 * (0 + 2) + 1].
Proof.
  cbv zeta.
  apply (srhd1d_uniform_state_is_steady [2; 3] (repeat 2 20)
           [1; 0; 1; 0; 1; 0; 1; 0; 1; 0; 1; 0; 1; 0; 1; 0; 1; 0; 1; 0] (repeat 3 20)
           1 0 0.5 0.1 1 [1; 0; 1; 0] 0 1);
    [reflexivity | lia | | cbn [nth]; lra | cbn [nth]; lra | right; split; reflexivity].
  intros k Hk. destruct k as [| [| [| [| [| k]]]]]; try reflexivity. lia.
Defined.

(** ** Conversion of a patch and the geometry of srhd_1d *)

(** X15.  [srhd_1d_primitive_to_conserved] stores in block [i] of
    [conserved], for each of the [num_zones] zones, the conserved state of
    block [i] of [primitive] times the volume of the zone between the faces
    [i] and [i + 1] scaled by [scale_factor]; neither array has guard zones,
    and entries past the last zone are not written. *)
Theorem srhd1d_primitive_to_conserved_zones :
  forall (num_zones : nat) (face_positions primitive conserved : list R)
         (scale_factor : R) (coords : Z),
    (4 * num_zones <= length conserved)%nat ->
    let out :=
      Srhd1d.srhd_1d_primitive_to_conserved num_zones face_positions primitive conserved
        scale_factor coords in
    length out = length conserved
    /\ (forall i q : nat, (i < num_zones)%nat -> (q < 4)%nat ->
          let dv := Srhd1d.cell_volume coords (face_positions.[i] * scale_factor)
                      (face_positions.[i + 1] * scale_factor) in
          out.[4 * i + q]
          = (Srhd1d.primitive_to_conserved (Srhd1d.block primitive (4 * i)) dv).[q])
    /\ (forall n : nat, (4 * num_zones <= n)%nat -> out.[n] = conserved.[n]).
Proof.
  intros nz fp prim cons sf coords Hlen. cbv zeta.
  unfold Srhd1d.srhd_1d_primitive_to_conserved. cbv zeta. rewrite FOR_EACH_1D_fold.
  change Srhd1d.NCONS with 4%nat.
  destruct (zone_blocks_loop (fun _ => false)
              (fun i => Srhd1d.primitive_to_conserved (Srhd1d.block prim (4 * i))
                          (Srhd1d.cell_volume coords (fp.[i] * sf) (fp.[i + 1] * sf)))
              0 nz cons) as [Hl [Hz Hg]]; [lia |].
  cbv beta in Hl, Hz, Hg.
  assert (E : forall (b : list R) (ks : list nat),
             fold_left
               (fun s i => Srhd1d.store_block s (4 * i)
                  (Srhd1d.primitive_to_conserved (Srhd1d.block prim (4 * i))
                     (Srhd1d.cell_volume coords (fp.[i] * sf) (fp.[i + 1] * sf)))) ks b
             = fold_left
                 (fun b i => Srhd1d.store_block b (4 * (i + 0))
                    (Srhd1d.primitive_to_conserved (Srhd1d.block prim (4 * i))
                       (Srhd1d.cell_volume coords (fp.[i] * sf) (fp.[i + 1] * sf)))) ks b).
  { intros b ks. revert b. induction ks as [| k ks IH]; intros b; cbn [fold_left];
      [reflexivity |]. rewrite Nat.add_0_r. apply IH. }
  rewrite E. split; [exact Hl |]. split.
  - intros i q Hi Hq. specialize (Hz i q Hi Hq). rewrite Nat.add_0_r in Hz. exact Hz.
  - intros n Hn. apply Hg. right. lia.
Qed.

(** Two zones between the faces 0, 1 and 3. *)
Lemma srhd1d_primitive_to_conserved_zones_witness :
  (Srhd1d.srhd_1d_primitive_to_conserved 2 [0; 1; 3] [1; 0; 1; 0; 2; 1; 1; 0]
     (repeat 0 8) 1 0).[4 * 1 + 0]
  = (Srhd1d.primitive_to_conserved (Srhd1d.block [1; 0; 1; 0; 2; 1; 1; 0] (4 * 1))
       (Srhd1d.cell_volume 0 ([0; 1; 3].[1] * 1) ([0; 1; 3].[1 + 1] * 1))).[0].
Proof.
  pose proof (srhd1d_primitive_to_conserved_zones 2 [0; 1; 3] [1; 0; 1; 0; 2; 1; 1; 0]
                (repeat 0 8) 1 0 ltac:(rewrite repeat_length; lia)) as H.
  cbv zeta in H. destruct H as [_ [H _]]. exact (H 1%nat 0%nat ltac:(lia) ltac:(lia)).
Defined.

(** X16.  The geometry of srhd_1d.  A cell between increasing faces has a
    positive volume in cartesian and in spherical coordinates, and the
    volumes of adjoining cells add up.  The geometric source term has a
    momentum component only, the pressure times the difference of the two
    face areas: zero in cartesian coordinates, [p (x1^2 - x0^2)] in spherical
    ones.  For a value of [coords] that is neither 0 nor 1 the areas, the
    volumes and the source term are all zero. *)
Theorem srhd1d_geometry :
  (forall (coords : Z) (x0 x1 : R),
      (coords = 0 \/ coords = 1)%Z -> x0 < x1 -> 0 < Srhd1d.cell_volume coords x0 x1)
  /\ (forall (coords : Z) (x0 x1 x2 : R),
         Srhd1d.cell_volume coords x0 x1 + Srhd1d.cell_volume coords x1 x2
         = Srhd1d.cell_volume coords x0 x2)
  /\ (forall (coords : Z) (x0 x1 : R) (prim : list R),
         Srhd1d.geometric_source_terms coords x0 x1 prim
         = [0; prim.[2] * (Srhd1d.face_area coords x1 - Srhd1d.face_area coords x0); 0; 0])
  /\ (forall (coords : Z) (x0 x1 : R),
         coords <> 0%Z -> coords <> 1%Z ->
         Srhd1d.face_area coords x0 = 0 /\ Srhd1d.cell_volume coords x0 x1 = 0).
Proof.
  split; [| split; [| split]].
  - intros coords x0 x1 [-> | ->] H; cbn [Srhd1d.cell_volume]; [lra |].
    rewrite !powi_3. unfold Srhd1d.NOMINAL_FOUR_PI.
    assert (0 < x1 * x1 * x1 - x0 * x0 * x0).
    { replace (x1 * x1 * x1 - x0 * x0 * x0)
        with ((x1 - x0) * (x1 * x1 + x1 * x0 + x0 * x0)) by ring.
      apply Rmult_lt_0_compat; [lra |].
      pose proof (Rle_0_sqr (x1 + x0)) as Hs. unfold Rsqr in Hs.
      destruct (Req_dec x1 0) as [-> | Hne]; [nra |].
      assert (0 < x1 * x1) by (destruct (Rlt_dec 0 x1); nra).
      nra. }
    lra.
  - intros coords x0 x1 x2. unfold Srhd1d.cell_volume.
    destruct coords as [| k | k]; [lra | | lra].
    destruct k as [k | k |]; [lra | lra |]. rewrite !powi_3. lra.
  - intros coords x0 x1 prim. unfold Srhd1d.geometric_source_terms, Srhd1d.face_area.
    destruct coords as [| k | k].
    + repeat (f_equal; try lra).
    + destruct k as [k | k |]; cbv zeta; unfold Srhd1d.NOMINAL_FOUR_PI;
        repeat (f_equal; try lra).
    + repeat (f_equal; try lra).
  - intros coords x0 x1 H0 H1. unfold Srhd1d.face_area, Srhd1d.cell_volume.
    destruct coords as [| k | k]; [contradiction | | split; lra].
    destruct k as [k | k |]; [split; lra | split; lra | contradiction].
Qed.

(** A spherical shell between the radii 1 and 2. *)
Lemma srhd1d_geometry_witness : 0 < Srhd1d.cell_volume 1 1 2.
Proof.
  apply (proj1 srhd1d_geometry 1%Z 1 2); [right; reflexivity | lra].
Defined.

(** ** The entry points of euler2d *)

Lemma inside_iff (ni nj : nat) (i j : Z) :
  (((0 <=? i)%Z && (i <? Z.of_nat ni)%Z) && ((0 <=? j)%Z && (j <? Z.of_nat nj)%Z))%bool = true
  <-> (0 <= i < Z.of_nat ni)%Z /\ (0 <= j < Z.of_nat nj)%Z.
Proof. rewrite !andb_true_iff, !Z.leb_le, !Z.ltb_lt. tauto. Qed.

(** X17.  On the CPU path (mode [CPU], or [OMP] in a build with OpenMP)
    [euler2d_primitive_to_conserved] stores in every zone of the mesh the
    conserved state of the primitive state of that zone, and
    [euler2d_wavespeed] stores in it the largest signal speed of that state,
    with the sound speed of the equation of state; zones outside of the mesh
    are not written, and the point masses play no part in the speed. *)
Theorem euler2d_patch_sweeps :
  forall (have_openmp : bool) (mesh : Euler2d.Mesh)
         (primitive conserved wavespeed : Euler2d.Patch)
         (eos : Euler2d.EquationOfState) (masses : list Euler2d.PointMass)
         (mode : Euler2d.ExecutionMode) (i j : Z),
    mode = Euler2d.CPU \/ (mode = Euler2d.OMP /\ have_openmp = true) ->
    let inside := (0 <= i < Z.of_nat (Euler2d.ni mesh))%Z
                  /\ (0 <= j < Z.of_nat (Euler2d.nj mesh))%Z in
    let u := Euler2d.euler2d_primitive_to_conserved have_openmp mesh primitive conserved mode in
    let a := Euler2d.euler2d_wavespeed have_openmp mesh primitive wavespeed eos masses mode in
    let pc := Euler2d.GET primitive i j in
    (inside ->
     Euler2d.GET u i j = Euler2d.primitive_to_conserved pc
     /\ Euler2d.GET a i j
        = [Euler2d.primitive_max_wavespeed pc (Euler2d.sound_speed_squared eos pc)])
    /\ (~ inside ->
        Euler2d.GET u i j = Euler2d.GET conserved i j
        /\ Euler2d.GET a i j = Euler2d.GET wavespeed i j).
Proof.
  intros ho mesh primitive conserved wavespeed eos masses mode i j Hmode. cbv zeta.
  assert (Eu : Euler2d.euler2d_primitive_to_conserved ho mesh primitive conserved mode
               = Euler2d.FOR_EACH (Euler2d.ni mesh) (Euler2d.nj mesh)
                   (fun i j wr => Euler2d.SET wr i j
                      (Euler2d.primitive_to_conserved (Euler2d.GET primitive i j)))
                   conserved).
  { unfold Euler2d.euler2d_primitive_to_conserved. cbv zeta.
    destruct Hmode as [-> | [-> ->]]; reflexivity. }
  assert (Ea : Euler2d.euler2d_wavespeed ho mesh primitive wavespeed eos masses mode
               = Euler2d.FOR_EACH (Euler2d.ni mesh) (Euler2d.nj mesh)
                   (fun i j wr => Euler2d.SET wr i j
                      [Euler2d.primitive_max_wavespeed (Euler2d.GET primitive i j)
                         (Euler2d.sound_speed_squared eos (Euler2d.GET primitive i j))])
                   wavespeed).
  { unfold Euler2d.euler2d_wavespeed. cbv zeta.
    destruct Hmode as [-> | [-> ->]]; reflexivity. }
  rewrite Eu, Ea, !euler2d_FOR_EACH_SET.
  split; intros Hin.
  - apply inside_iff in Hin. rewrite Hin. split; reflexivity.
  - destruct (((0 <=? i)%Z && (i <? Z.of_nat (Euler2d.ni mesh))%Z)
              && ((0 <=? j)%Z && (j <? Z.of_nat (Euler2d.nj mesh))%Z))%bool eqn:E.
    + apply inside_iff in E. contradiction.
    + split; reflexivity.
Qed.

(** A mesh of 2 x 2 zones holding one state, swept on the CPU. *)
Lemma euler2d_patch_sweeps_witness :
  let mesh := Euler2d.mkMesh 2 2 0 0 1 1 in
  let primitive : Euler2d.Patch := fun _ _ => [1; 2; 0; 1] in
  Euler2d.GET
    (Euler2d.euler2d_primitive_to_conserved false mesh primitive (fun _ _ => [])
       Euler2d.CPU) 1 1
  = Euler2d.primitive_to_conserved (Euler2d.GET primitive 1 1).
Proof.
  cbv zeta.
  pose proof (euler2d_patch_sweeps false (Euler2d.mkMesh 2 2 0 0 1 1)
                (fun _ _ => [1; 2; 0; 1]) (fun _ _ => []) (fun _ _ => [])
                Euler2d.GammaLaw [] Euler2d.CPU 1 1 (or_introl eq_refl)) as H.
  cbv zeta in H. apply (proj1 H). cbn [Euler2d.ni Euler2d.nj]. lia.
Defined.



(** ** The other entry points of cbdisodg_2d *)

Lemma existsb_eqb_In (n : nat) (l : list nat) : existsb (Nat.eqb n) l = true <-> In n l.
Proof.
  rewrite existsb_exists. split.
  - intros [x [Hin Hx]]. apply Nat.eqb_eq in Hx. subst x. exact Hin.
  - intros H. exists n. split; [exact H | apply Nat.eqb_refl].
Qed.

(** A loop over the zones of a patch whose body stores [val i j n] at the
    indices [n] of [index i j], the indices of different zones being
    different. *)
Lemma patch_writes (ni nj : nat) (body : nat -> nat -> list R -> list R)
    (index : nat -> nat -> list nat) (val : nat -> nat -> nat -> R) (a : list R) :
  (forall i j b, (i < ni)%nat -> (j < nj)%nat -> length b = length a ->
      length (body i j b) = length a
      /\ forall n, (body i j b).[n]
                   = if existsb (Nat.eqb n) (index i j) then val i j n else b.[n]) ->
  (forall i j i' j' n, (i < ni)%nat -> (j < nj)%nat -> (i' < ni)%nat -> (j' < nj)%nat ->
      In n (index i j) -> In n (index i' j') -> i = i' /\ j = j') ->
  let out :=
    fold_left (fun s i => fold_left (fun s j => body i j s) (seq 0 nj) s) (seq 0 ni) a in
  length out = length a
  /\ (forall i j n, (i < ni)%nat -> (j < nj)%nat -> In n (index i j) -> out.[n] = val i j n)
  /\ (forall n, (forall i j, (i < ni)%nat -> (j < nj)%nat -> ~ In n (index i j)) ->
        out.[n] = a.[n]).
Proof.
  intros Hbody Hinj. cbv zeta.
  change (fold_left (fun s i => fold_left (fun s j => body i j s) (seq 0 nj) s) (seq 0 ni) a)
    with (Cbdisodg2d.FOR_EACH_2D ni nj body a).
  rewrite FOR_EACH_2D_flat.
  destruct (fold_writes_nth (fun x b => body (fst x) (snd x) b)
              (fun x => index (fst x) (snd x)) (fun x n => val (fst x) (snd x) n)
              (list_prod (seq 0 ni) (seq 0 nj)) a) as [Hl Hn].
  { intros [i j] b Hin Hb. apply in_prod_iff in Hin. destruct Hin as [Hi Hj].
    apply in_seq in Hi, Hj. cbn [fst snd]. apply Hbody; [lia | lia | exact Hb]. }
  split; [exact Hl |]. split.
  - intros i j n Hi Hj Hin. rewrite Hn.
    destruct (find _ _) as [[i' j'] |] eqn:Ef.
    + apply find_some in Ef. destruct Ef as [Hin' Hex].
      apply in_rev, in_prod_iff in Hin'. destruct Hin' as [Hi' Hj'].
      apply in_seq in Hi', Hj'. cbn [fst snd] in *.
      apply existsb_eqb_In in Hex.
      destruct (Hinj i j i' j' n Hi Hj ltac:(lia) ltac:(lia) Hin Hex) as [<- <-].
      reflexivity.
    + exfalso.
      assert (Hin' : In (i, j) (rev (list_prod (seq 0 ni) (seq 0 nj)))).
      { apply -> in_rev. apply in_prod_iff. split; apply in_seq; lia. }
      pose proof (find_none _ _ Ef (i, j) Hin') as Hf. cbv beta in Hf. cbn [fst snd] in Hf.
      apply existsb_eqb_In in Hin. rewrite Hin in Hf. discriminate.
  - intros n Hnot. rewrite Hn.
    destruct (find _ _) as [[i' j'] |] eqn:Ef; [| reflexivity].
    exfalso. apply find_some in Ef. destruct Ef as [Hin' Hex].
    apply in_rev, in_prod_iff in Hin'. destruct Hin' as [Hi' Hj'].
    apply in_seq in Hi', Hj'. cbn [fst snd] in *.
    apply existsb_eqb_In in Hex. apply (Hnot i' j'); [lia | lia | exact Hex].
Qed.

Lemma wavespeed_index_eq (nj i j : nat) :
  Z.to_nat (Cbdisodg2d.wavespeed_index nj (Z.of_nat i) (Z.of_nat j))
  = ((i + 1) * (nj + 2) + (j + 1))%nat.
Proof. unfold Cbdisodg2d.wavespeed_index. cbv zeta. lia. Qed.

(** The velocity that [conserved_to_primitive] returns is within the
    ceiling. *)
Lemma cbdisodg2d_velocity_ceiling (cons : list R) (vc : R) :
  0 <= vc ->
  let prim := Cbdisodg2d.conserved_to_primitive cons vc in
  Rabs prim.[1] <= vc /\ Rabs prim.[2] <= vc.
Proof.
  intros Hvc. cbv zeta. unfold Cbdisodg2d.conserved_to_primitive. cbv zeta. cbn [nth].
  split.
  - rewrite sign_mult_abs. apply min2_abs_le. exact Hvc.
  - rewrite sign_mult_abs. apply min2_abs_le. exact Hvc.
Qed.

Lemma max_wavespeed_formula_cbdisodg (prim : list R) (cs2 : R) :
  0 <= cs2 ->
  Cbdisodg2d.primitive_max_wavespeed prim cs2
  = Rmax (Rabs prim.[1]) (Rabs prim.[2]) + sqrt cs2
  /\ 0 <= Rmax (Rabs prim.[1]) (Rabs prim.[2]).
Proof.
  intros H. split.
  - unfold Cbdisodg2d.primitive_max_wavespeed. cbv zeta. apply max_wavespeed_formula. exact H.
  - pose proof (Rabs_pos prim.[1]). pose proof (Rmax_l (Rabs prim.[1]) (Rabs prim.[2])). lra.
Qed.

(** X19.  [cbdisodg_2d_wavespeed] stores for every zone [(i, j)] of the
    patch, at index [(i + 1) (nj + 2) + (j + 1)] of [wavespeed], the largest
    signal speed of the cell average of the zone; with a velocity ceiling and
    a sound speed squared that are not negative this speed is at most the
    ceiling plus the sound speed at the centre of the zone.  The entries of
    the guard zones are not written. *)
Theorem cbdisodg2d_wavespeed_zones :
  forall (ni nj : nat) (patch_xl patch_xr patch_yl patch_yr soundspeed2 mach_squared : R)
         (eos_type : Z) (m1 m2 : Cbdisodg2d.PointMass) (velocity_ceiling : R)
         (weights wavespeed : list R),
    ((ni + 2) * (nj + 2) <= length wavespeed)%nat -> 0 <= velocity_ceiling ->
    let out :=
      Cbdisodg2d.cbdisodg_2d_wavespeed ni nj patch_xl patch_xr patch_yl patch_yr
        soundspeed2 mach_squared eos_type m1 m2 velocity_ceiling weights wavespeed in
    length out = length wavespeed
    /\ (forall i j : nat, (i < ni)%nat -> (j < nj)%nat ->
          let n := ((i + 1) * (nj + 2) + (j + 1))%nat in
          let x := patch_xl + (INR i + 0.5) * ((patch_xr - patch_xl) / INR ni) in
          let y := patch_yl + (INR j + 0.5) * ((patch_yr - patch_yl) / INR nj) in
          let cs2 :=
            Cbdisodg2d.sound_speed_squared soundspeed2 mach_squared eos_type x y (m1, m2) in
          let ucc := Cbdisodg2d.ptr weights (Cbdisodg2d.zone_offset nj (Z.of_nat i) (Z.of_nat j)) in
          let pij :=
            Cbdisodg2d.conserved_to_primitive [ucc.[0]; ucc.[6]; ucc.[12]] velocity_ceiling in
          out.[n] = Cbdisodg2d.primitive_max_wavespeed pij cs2
          /\ (0 <= cs2 -> 0 <= out.[n] <= velocity_ceiling + sqrt cs2))
    /\ (forall n : nat,
          (forall i j : nat, (i < ni)%nat -> (j < nj)%nat ->
             n <> ((i + 1) * (nj + 2) + (j + 1))%nat) ->
          out.[n] = wavespeed.[n]).
Proof.
  intros ni nj pxl pxr pyl pyr ss2 m2sq eos m1 m2 vc weights wavespeed Hlen Hvc. cbv zeta.
  unfold Cbdisodg2d.cbdisodg_2d_wavespeed. cbv zeta.
  destruct (patch_writes ni nj
              (fun i j b =>
                 upd b (Z.to_nat (Cbdisodg2d.wavespeed_index nj (Z.of_nat i) (Z.of_nat j)))
                   (Cbdisodg2d.wavespeed_zone ni nj pxl pxr pyl pyr ss2 m2sq eos (m1, m2) vc
                      weights i j))
              (fun i j => [((i + 1) * (nj + 2) + (j + 1))%nat])
              (fun i j _ =>
                 Cbdisodg2d.wavespeed_zone ni nj pxl pxr pyl pyr ss2 m2sq eos (m1, m2) vc
                   weights i j)
              wavespeed) as [Hl [Hz Hg]].
  { intros i j b Hi Hj Hb. rewrite wavespeed_index_eq.
    split; [rewrite length_upd; exact Hb |]. intros n. cbn [existsb]. rewrite orb_false_r.
    destruct (Nat.eqb_spec n ((i + 1) * (nj + 2) + (j + 1))) as [-> | Hne].
    - apply nth_upd_same. rewrite Hb. nia.
    - apply nth_upd_other. exact Hne. }
  { intros i j i' j' n Hi Hj Hi' Hj' [<- | []] [E | []].
    assert (i = i') by nia. subst i'. split; [reflexivity | lia]. }
  split; [exact Hl |]. split.
  - intros i j Hi Hj.
    pose proof (Hz i j _ Hi Hj (or_introl eq_refl)) as Hv.
    unfold Cbdisodg2d.FOR_EACH_2D. rewrite Hv. clear Hv.
    unfold Cbdisodg2d.wavespeed_zone. cbv zeta.
    unfold tabulate, Cbdisodg2d.NCONS, Cbdisodg2d.NPOLY. cbn [map seq Nat.mul Nat.add].
    split; [reflexivity |].
    intros Hcs.
    match goal with
    | |- 0 <= Cbdisodg2d.primitive_max_wavespeed ?p ?c <= _ =>
        destruct (max_wavespeed_formula_cbdisodg p c Hcs) as [E Hb];
        pose proof (cbdisodg2d_velocity_ceiling
                      [(Cbdisodg2d.ptr weights
                          (Cbdisodg2d.zone_offset nj (Z.of_nat i) (Z.of_nat j))).[0];
                       (Cbdisodg2d.ptr weights
                          (Cbdisodg2d.zone_offset nj (Z.of_nat i) (Z.of_nat j))).[6];
                       (Cbdisodg2d.ptr weights
                          (Cbdisodg2d.zone_offset nj (Z.of_nat i) (Z.of_nat j))).[12]]
                      vc Hvc) as [H1 H2]
    end.
    cbv zeta in H1, H2. cbn [nth] in E, Hb. rewrite E.
    pose proof (sqrt_pos (Cbdisodg2d.sound_speed_squared ss2 m2sq eos
                            (pxl + (INR i + 0.5) * ((pxr - pxl) / INR ni))
                            (pyl + (INR j + 0.5) * ((pyr - pyl) / INR nj)) (m1, m2))).
    split.
    + lra.
    + apply Rplus_le_compat_r. apply Rmax_lub; assumption.
  - intros n Hnot. apply Hg. intros i j Hi Hj [E | []]. apply (Hnot i j Hi Hj). auto.
Qed.

(** A patch of one zone with its guard zones: 9 zones of weights, 9 speeds. *)
Lemma cbdisodg2d_wavespeed_zones_witness :
  length (Cbdisodg2d.cbdisodg_2d_wavespeed 1 1 0 1 0 1 1 1 1 Scenario.no_mass
            Scenario.no_mass 1 Scenario.jump (repeat 0 9))
  = length (repeat 0 9).
Proof.
  apply (cbdisodg2d_wavespeed_zones 1 1 0 1 0 1 1 1 1 Scenario.no_mass Scenario.no_mass 1
           Scenario.jump (repeat 0 9)); [rewrite repeat_length; lia | lra].
Defined.

Lemma rate_index_eq (nj i j q : nat) :
  Cbdisodg2d.rate_index nj i j q = (18 * (nj + 2) * (i + 1) + 18 * (j + 1) + q)%nat.
Proof.
  unfold Cbdisodg2d.rate_index, Cbdisodg2d.zone_offset, Cbdisodg2d.NCONS, Cbdisodg2d.NPOLY.
  cbv zeta. lia.
Qed.

(** X20.  [cbdisodg_2d_point_mass_source_term] stores the three rates of
    zone [(i, j)] at the indices [ncc], [ncc + 1] and [ncc + 2] of
    [cons_rate], where [ncc = 18 ((i + 1) (nj + 2) + (j + 1))] is the offset
    of the zone in the array of weights, and nothing else; each rate is the
    sum over the 3 x 3 quadrature points of the weighted source term of the
    chosen mass.  It needs [which_mass] to be 1 or 2.  Here [cons_rate] is as
    long as the array of weights. *)
Theorem cbdisodg2d_point_mass_rates :
  forall (ni nj : nat) (patch_xl patch_xr patch_yl patch_yr : R)
         (m1 m2 : Cbdisodg2d.PointMass) (velocity_ceiling : R) (which_mass : Z)
         (weights cons_rate : list R),
    (18 * (ni + 2) * (nj + 2) <= length cons_rate)%nat ->
    let r :=
      Cbdisodg2d.cbdisodg_2d_point_mass_source_term ni nj patch_xl patch_xr patch_yl patch_yr
        m1 m2 velocity_ceiling which_mass weights cons_rate in
    (which_mass <> 1%Z -> which_mass <> 2%Z -> r = None)
    /\ forall mass : Cbdisodg2d.PointMass,
         (which_mass = 1%Z /\ mass = m1) \/ (which_mass = 2%Z /\ mass = m2) ->
         exists out : list R,
           r = Some out
           /\ length out = length cons_rate
           /\ (forall i j q : nat, (i < ni)%nat -> (j < nj)%nat -> (q < 3)%nat ->
                 let dx := (patch_xr - patch_xl) / INR ni in
                 let dy := (patch_yr - patch_yl) / INR nj in
                 let xc := patch_xl + (INR i + 0.5) * dx in
                 let yc := patch_yl + (INR j + 0.5) * dy in
                 let ucc :=
                   Cbdisodg2d.ptr weights
                     (Cbdisodg2d.zone_offset nj (Z.of_nat i) (Z.of_nat j)) in
                 Cbdisodg2d.rate_index nj i j q
                 = (18 * ((i + 1) * (nj + 2) + (j + 1)) + q)%nat
                 /\ out.[Cbdisodg2d.rate_index nj i j q]
                    = (Cbdisodg2d.u_dot_sum mass xc yc dx dy velocity_ceiling ucc).[q])
           /\ (forall n : nat,
                 (forall i j q : nat, (i < ni)%nat -> (j < nj)%nat -> (q < 3)%nat ->
                    n <> Cbdisodg2d.rate_index nj i j q) ->
                 out.[n] = cons_rate.[n]).
Proof.
  intros ni nj pxl pxr pyl pyr m1 m2 vc which weights cons_rate Hlen. cbv zeta.
  split.
  { intros H1 H2. unfold Cbdisodg2d.cbdisodg_2d_point_mass_source_term. cbv zeta.
    unfold Cbdisodg2d.selected_mass.
    destruct which as [| k | k]; [reflexivity | | reflexivity].
    destruct k as [k | k |]; [destruct k | destruct k |]; try reflexivity; contradiction. }
  intros mass Hm.
  assert (Es : Cbdisodg2d.selected_mass (m1, m2) which = Some mass).
  { destruct Hm as [[-> ->] | [-> ->]]; reflexivity. }
  unfold Cbdisodg2d.cbdisodg_2d_point_mass_source_term. cbv zeta. rewrite Es.
  eexists. split; [reflexivity |].
  set (zone := fun i j =>
         Cbdisodg2d.u_dot_sum mass
           (pxl + (INR i + 0.5) * ((pxr - pxl) / INR ni))
           (pyl + (INR j + 0.5) * ((pyr - pyl) / INR nj))
           ((pxr - pxl) / INR ni) ((pyr - pyl) / INR nj) vc
           (Cbdisodg2d.ptr weights (Cbdisodg2d.zone_offset nj (Z.of_nat i) (Z.of_nat j)))).
  destruct (patch_writes ni nj
              (fun i j b =>
                 fold_left
                   (fun cons_rate q => upd cons_rate (Cbdisodg2d.rate_index nj i j q) (zone i j).[q])
                   (seq 0 Cbdisodg2d.NCONS) b)
              (fun i j => [Cbdisodg2d.rate_index nj i j 0; Cbdisodg2d.rate_index nj i j 1;
                           Cbdisodg2d.rate_index nj i j 2])
              (fun i j n => (zone i j).[n - Cbdisodg2d.rate_index nj i j 0])
              cons_rate) as [Hl [Hz Hg]].
  { intros i j b Hi Hj Hb. unfold Cbdisodg2d.NCONS. cbn [seq fold_left].
    split; [rewrite !length_upd; exact Hb |]. intros n.
    rewrite upd3_nth by (rewrite ?rate_index_eq; nia).
    cbn [existsb]. rewrite orb_false_r.
    destruct (Nat.eqb_spec n (Cbdisodg2d.rate_index nj i j 0)) as [-> | H0].
    { cbn [orb]. f_equal. lia. }
    destruct (Nat.eqb_spec n (Cbdisodg2d.rate_index nj i j 1)) as [-> | H1].
    { cbn [orb]. f_equal. rewrite !rate_index_eq. lia. }
    destruct (Nat.eqb_spec n (Cbdisodg2d.rate_index nj i j 2)) as [-> | H2].
    { cbn [orb]. f_equal. rewrite !rate_index_eq. lia. }
    reflexivity. }
  { intros i j i' j' n Hi Hj Hi' Hj' Hin Hin'. cbn [In] in Hin, Hin'.
    rewrite !rate_index_eq in Hin, Hin'.
    assert (i = i') by nia. subst i'. split; [reflexivity | lia]. }
  split; [exact Hl |]. split.
  - intros i j q Hi Hj Hq. split; [rewrite rate_index_eq; lia |].
    assert (Hin : In (Cbdisodg2d.rate_index nj i j q)
                    [Cbdisodg2d.rate_index nj i j 0; Cbdisodg2d.rate_index nj i j 1;
                     Cbdisodg2d.rate_index nj i j 2]).
    { cbn [In]. destruct q as [| [| [| q]]]; auto. lia. }
    etransitivity; [exact (Hz i j (Cbdisodg2d.rate_index nj i j q) Hi Hj Hin) |].
    unfold zone. f_equal. rewrite !rate_index_eq. lia.
  - intros n Hnot. refine (Hg n _). intros i j Hi Hj Hin. cbn [In] in Hin.
    destruct Hin as [E | [E | [E | []]]];
      [apply (Hnot i j 0%nat) | apply (Hnot i j 1%nat) | apply (Hnot i j 2%nat)];
      auto; lia.
Qed.

(** A patch of one zone and the first of two switched-off masses. *)
Lemma cbdisodg2d_point_mass_rates_witness :
  exists out : list R,
    Cbdisodg2d.cbdisodg_2d_point_mass_source_term 1 1 0 1 0 1 Scenario.no_mass
      Scenario.no_mass 1 1 Scenario.jump (repeat 7 162)
    = Some out
    /\ length out = length (repeat 7 162).
Proof.
  pose proof (cbdisodg2d_point_mass_rates 1 1 0 1 0 1 Scenario.no_mass Scenario.no_mass 1 1
                Scenario.jump (repeat 7 162) ltac:(rewrite repeat_length; lia)) as H.
  cbv zeta in H.
  destruct (proj2 H Scenario.no_mass (or_introl (conj eq_refl eq_refl)))
    as [out [E [Hl _]]].
  exists out. split; [exact E | exact Hl].
Defined.

(** X21.  [cbdisodg_2d_point_mass_source_term] addresses [cons_rate] with
    the stride of the array of weights, 18 doubles per zone, and not with the
    3 doubles per zone of the shape [(ni + 2, nj + 2, 3)] that its interface
    gives for [cons_rate]: for every patch the indices at which the rates of
    the last zone are stored lie past the end of an array of that shape. *)
Theorem cbdisodg2d_point_mass_rates_overrun :
  forall (ni nj q : nat),
    (0 < ni)%nat -> (0 < nj)%nat ->
    (3 * (ni + 2) * (nj + 2) <= Cbdisodg2d.rate_index nj (ni - 1) (nj - 1) q)%nat
    /\ forall i j : nat,
         Cbdisodg2d.rate_index nj i j q
         = (Z.to_nat (Cbdisodg2d.zone_offset nj (Z.of_nat i) (Z.of_nat j)) + q)%nat
         /\ Cbdisodg2d.rate_index nj i j 0 = Cbdisodg2d.weight_index nj i j 0 0.
Proof.
  intros ni nj q Hi Hj. split.
  - rewrite rate_index_eq. nia.
  - intros i j. split; [reflexivity |].
    rewrite rate_index_eq, weight_index_eq. lia.
Qed.

(** A patch of 4 x 4 zones: the array has 108 entries, the last zone is
    stored from index 522 on. *)
Lemma cbdisodg2d_point_mass_rates_overrun_witness :
  (3 * (4 + 2) * (4 + 2) <= Cbdisodg2d.rate_index 4 (4 - 1) (4 - 1) 0)%nat.
Proof.
  apply (proj1 (cbdisodg2d_point_mass_rates_overrun 4 4 0 ltac:(lia) ltac:(lia))).
Defined.

(** ** The layout of a patch in iso2d and euler2d *)

Lemma layout_offset (nf c1 g i j : Z) :
  (nf * c1 * (i - - g) + nf * (j - - g) = nf * (c1 * (i + g) + (j + g)))%Z.
Proof. ring. Qed.





(** ** The entry point of iso2d *)

Lemma fold_left_map {A B S : Type} (f : S -> B -> S) (g : A -> B) (l : list A) (s : S) :
  fold_left f (map g l) s = fold_left (fun s x => f s (g x)) l s.
Proof. revert s. induction l as [| x l IH]; intros s; cbn [map fold_left]; auto. Qed.

(** The loop over a patch without guard zones. *)
Lemma iso2d_FOR_EACH_interior {S : Type} (ni nj : nat) (d : list R)
    (body : Z -> Z -> S -> S) (s : S) :
  Iso2d.FOR_EACH (Iso2d.patch (Iso2d.mkMesh ni nj) 0 d) body s
  = fold_left
      (fun s i => fold_left (fun s j => body (Z.of_nat i) (Z.of_nat j) s) (seq 0 nj) s)
      (seq 0 ni) s.
Proof.
  unfold Iso2d.FOR_EACH, Iso2d.patch, Iso2d.range. cbv zeta.
  cbn [Iso2d.start Iso2d.count fst snd Iso2d.ni Iso2d.nj].
  replace (Z.to_nat (Z.of_nat ni + 2 * 0)) with ni by lia.
  replace (Z.to_nat (Z.of_nat nj + 2 * 0)) with nj by lia.
  rewrite fold_left_map. cbn [Z.opp Z.add].
  generalize (seq 0 ni) as ks. intros ks. revert s.
  induction ks as [| k ks IH]; intros s; cbn [fold_left]; [reflexivity |].
  rewrite fold_left_map. cbn [Z.opp Z.add]. apply IH.
Qed.

Lemma nth_ptr_iso2d (a : list R) (off : Z) (n : nat) :
  (Iso2d.ptr a off).[n] = a.[Z.to_nat off + n].
Proof. unfold Iso2d.ptr. apply nth_skipn. Qed.

(** X23.  [iso2d_primitive_to_conserved] fills the whole of [conserved_ptr],
    an array of [ni x nj] zones without guard zones: zone [(i, j)], at offset
    [3 (nj i + j)], receives the conserved state of the primitive state read
    at offset [3 ((nj + 4) (i + 2) + (j + 2))] of [primitive_ptr], the same
    zone in an array with two guard zones on every side.  The execution mode
    is not read: the loop is the serial one for every mode. *)
Theorem iso2d_primitive_to_conserved_zones :
  forall (ni nj : nat) (primitive_ptr conserved_ptr : list R) (mode : Iso2d.ExecutionMode),
    (3 * (ni * nj) <= length conserved_ptr)%nat ->
    let mesh := Iso2d.mkMesh ni nj in
    let out := Iso2d.iso2d_primitive_to_conserved mesh primitive_ptr conserved_ptr mode in
    length out = length conserved_ptr
    /\ (forall i j q : nat, (i < ni)%nat -> (j < nj)%nat -> (q < 3)%nat ->
          let p := Iso2d.ptr primitive_ptr
                     (Z.of_nat (3 * ((nj + 4) * (i + 2) + (j + 2)))) in
          out.[3 * (nj * i + j) + q] = (Iso2d.primitive_to_conserved p).[q])
    /\ (forall n : nat, (3 * (ni * nj) <= n)%nat -> out.[n] = conserved_ptr.[n])
    /\ (forall mode' : Iso2d.ExecutionMode,
          Iso2d.iso2d_primitive_to_conserved mesh primitive_ptr conserved_ptr mode' = out).
Proof.
  intros ni nj prim cons mode Hlen. cbv zeta.
  unfold Iso2d.iso2d_primitive_to_conserved. cbv zeta.
  rewrite iso2d_FOR_EACH_interior.
  set (zone := fun i j : nat =>
         Iso2d.primitive_to_conserved
           (Iso2d.ptr prim (Z.of_nat (3 * ((nj + 4) * (i + 2) + (j + 2)))))).
  set (off := fun i j : nat => (3 * (nj * i + j))%nat).
  destruct (patch_writes ni nj
              (fun i j b =>
                 fold_left (fun a q => upd a (off i j + q) (zone i j).[q]) (seq 0 Iso2d.NCONS) b)
              (fun i j => [off i j + 0; off i j + 1; off i j + 2]%nat)
              (fun i j n => (zone i j).[n - off i j])
              cons) as [Hl [Hz Hg]].
  { intros i j b Hi Hj Hb. unfold Iso2d.NCONS. cbn [seq fold_left].
    split; [rewrite !length_upd; exact Hb |]. intros n.
    assert (Hin : (off i j + 2 < length b)%nat) by (unfold off; nia).
    rewrite upd3_nth by lia.
    cbn [existsb]. rewrite orb_false_r.
    destruct (Nat.eqb_spec n (off i j + 0)) as [-> | H0]; [cbn [orb]; f_equal; lia |].
    destruct (Nat.eqb_spec n (off i j + 1)) as [-> | H1]; [cbn [orb]; f_equal; lia |].
    destruct (Nat.eqb_spec n (off i j + 2)) as [-> | H2]; [cbn [orb]; f_equal; lia |].
    reflexivity. }
  { intros i j i' j' n Hi Hj Hi' Hj' Hin Hin'. cbn [In] in Hin, Hin'. unfold off in *.
    assert (i = i') by nia. subst i'. split; [reflexivity | lia]. }
  assert (Ebody : forall (ks ls : list nat) (b : list R),
             fold_left
               (fun s i =>
                  fold_left
                    (fun s0 j =>
                       fold_left
                         (fun a q =>
                            upd a
                              (Z.to_nat (Iso2d.GET (Iso2d.patch (Iso2d.mkMesh ni nj) 0 cons)
                                           (Z.of_nat i) (Z.of_nat j)) + q)
                              (Iso2d.primitive_to_conserved
                                 (Iso2d.ptr prim
                                    (Iso2d.GET (Iso2d.patch (Iso2d.mkMesh ni nj) 2 prim)
                                       (Z.of_nat i) (Z.of_nat j)))).[q])
                         (seq 0 Iso2d.NCONS) s0) ls s) ks b
             = fold_left
                 (fun s i =>
                    fold_left
                      (fun s j =>
                         fold_left (fun a q => upd a (off i j + q) (zone i j).[q])
                           (seq 0 Iso2d.NCONS) s) ls s) ks b).
  { assert (E1 : forall i j : nat,
               Z.to_nat (Iso2d.GET (Iso2d.patch (Iso2d.mkMesh ni nj) 0 cons)
                           (Z.of_nat i) (Z.of_nat j)) = off i j).
    { intros i j. unfold Iso2d.GET, Iso2d.patch, Iso2d.NCONS, off. cbv zeta.
      cbn [Iso2d.jumps Iso2d.start Iso2d.count fst snd Iso2d.ni Iso2d.nj]. nia. }
    assert (E2 : forall i j : nat,
               Iso2d.GET (Iso2d.patch (Iso2d.mkMesh ni nj) 2 prim) (Z.of_nat i) (Z.of_nat j)
               = Z.of_nat (3 * ((nj + 4) * (i + 2) + (j + 2)))).
    { intros i j. unfold Iso2d.GET, Iso2d.patch, Iso2d.NCONS. cbv zeta.
      cbn [Iso2d.jumps Iso2d.start Iso2d.count fst snd Iso2d.ni Iso2d.nj]. nia. }
    induction ks as [| k ks IH]; intros ls b; cbn [fold_left]; [reflexivity |].
    rewrite IH. f_equal.
    revert b. induction ls as [| l ls IHl]; intros b; cbn [fold_left]; [reflexivity |].
    rewrite IHl. f_equal. rewrite E1, E2. reflexivity. }
  rewrite Ebody.
  split; [exact Hl |]. split; [| split].
  - intros i j q Hi Hj Hq.
    assert (Hin : In (off i j + q)%nat [off i j + 0; off i j + 1; off i j + 2]%nat).
    { cbn [In]. destruct q as [| [| [| q]]]; auto. lia. }
    etransitivity; [exact (Hz i j _ Hi Hj Hin) |]. unfold zone, off. f_equal. lia.
  - intros n Hn. apply Hg. intros i j Hi Hj Hin. cbn [In] in Hin. unfold off in Hin. nia.
  - intros mode'. reflexivity.
Qed.

(** A mesh of 2 x 2 zones: 12 conserved entries, 108 primitive ones. *)
Lemma iso2d_primitive_to_conserved_zones_witness :
  length (Iso2d.iso2d_primitive_to_conserved (Iso2d.mkMesh 2 2) (repeat 1 108)
            (repeat 0 12) Iso2d.GPU)
  = length (repeat 0 12).
Proof.
  apply (iso2d_primitive_to_conserved_zones 2 2 (repeat 1 108) (repeat 0 12) Iso2d.GPU).
  rewrite repeat_length. lia.
Defined.

(** ** The two kernels of euler2d *)

Lemma upd_same (a : list R) (i : nat) : upd a i a.[i] = a.
Proof.
  revert i. induction a as [| h t IH]; intros [| i]; cbn [upd nth]; try reflexivity.
  f_equal. apply IH.
Qed.

Lemma sub_at_zero (a : list R) (i : nat) (v : R) : v = 0 -> Euler2d.sub_at a i v = a.
Proof.
  intros ->. unfold Euler2d.sub_at. rewrite Rminus_0_r. apply upd_same.
Qed.

(** X24.  The inviscid kernel of euler2d is the viscous kernel at zero
    viscosity: [advance_rk_zone] called with [alpha = 0] returns what
    [advance_rk_zone_inviscid] returns, so the dispatch on [nu == 0.0] in
    [euler2d_advance_rk] does not change the scheme.  The mesh spacings are
    not zero, the zone has a positive density and a pressure that is not
    negative, and there is at least one point mass and every mass is
    positive, so that the disk height is a finite number. *)
Theorem euler2d_inviscid_is_zero_viscosity :
  forall (mesh : Euler2d.Mesh) (conserved_rk primitive_rd : Euler2d.Patch)
         (eos : Euler2d.EquationOfState) (buffer : Euler2d.BufferZone)
         (masses : list Euler2d.PointMass)
         (a dt velocity_ceiling cooling_coefficient density_floor pressure_floor : R)
         (i j : Z),
    Euler2d.dx mesh <> 0 -> Euler2d.dy mesh <> 0 ->
    0 < (Euler2d.GET primitive_rd i j).[0] -> 0 <= (Euler2d.GET primitive_rd i j).[3] ->
    masses <> [] -> Forall (fun m => 0 < Euler2d.pm_mass m) masses ->
    Euler2d.advance_rk_zone mesh conserved_rk primitive_rd eos buffer masses
      0 a dt velocity_ceiling cooling_coefficient density_floor pressure_floor i j
    = Euler2d.advance_rk_zone_inviscid mesh conserved_rk primitive_rd eos buffer masses
        a dt velocity_ceiling cooling_coefficient density_floor pressure_floor i j.
Proof.
  intros mesh crk prd eos buffer masses a dt vc cc df pf i j _ _ _ _ _ _.
  unfold Euler2d.advance_rk_zone, Euler2d.advance_rk_zone_inviscid. cbv zeta.
  rewrite !sub_at_zero by ring. reflexivity.
Qed.

(** One zone of a uniform gas near a unit point mass. *)
Lemma euler2d_inviscid_is_zero_viscosity_witness :
  let mesh := Euler2d.mkMesh 1 1 0 0 1 1 in
  let masses := [Euler2d.mkPointMass 3 4 0 0 1 0 Euler2d.Inactive] in
  let prd : Euler2d.Patch := fun _ _ => [1; 0; 0; 1] in
  Euler2d.advance_rk_zone mesh prd prd Euler2d.GammaLaw Euler2d.None_ masses
    0 0 0.1 10 0 0.01 0.01 0 0
  = Euler2d.advance_rk_zone_inviscid mesh prd prd Euler2d.GammaLaw Euler2d.None_ masses
      0 0.1 10 0 0.01 0.01 0 0.
Proof.
  cbv zeta.
  apply (euler2d_inviscid_is_zero_viscosity (Euler2d.mkMesh 1 1 0 0 1 1)
           (fun _ _ => [1; 0; 0; 1]) (fun _ _ => [1; 0; 0; 1]) Euler2d.GammaLaw
           Euler2d.None_ [Euler2d.mkPointMass 3 4 0 0 1 0 Euler2d.Inactive]
           0 0.1 10 0 0.01 0.01 0 0);
    cbn [Euler2d.dx Euler2d.dy Euler2d.GET nth]; try lra.
  - discriminate.
  - constructor; [cbn [Euler2d.pm_mass]; lra | constructor].
Defined.

Lemma euler2d_plm_gradient_flat (p : list R) :
  Euler2d.plm_gradient p p p = [0; 0; 0; 0].
Proof.
  unfold Euler2d.plm_gradient, tabulate, Euler2d.NCONS. cbn [map seq].
  rewrite !euler2d_plm_formula, !plm_formula_flat. reflexivity.
Qed.

Lemma euler2d_face_state_flat (rho vx vy pres : R) :
  tabulate Euler2d.NCONS (fun q => [rho; vx; vy; pres].[q] + 0.5 * [0; 0; 0; 0].[q])
  = [rho; vx; vy; pres]
  /\ tabulate Euler2d.NCONS (fun q => [rho; vx; vy; pres].[q] - 0.5 * [0; 0; 0; 0].[q])
     = [rho; vx; vy; pres].
Proof.
  unfold tabulate, Euler2d.NCONS. cbn [map seq nth].
  split; repeat (f_equal; try lra).
Qed.

Lemma cooling_term_off (dt : R) (prim cons : list R) :
  Euler2d.cooling_term 0 dt prim cons = cons.
Proof.
  unfold Euler2d.cooling_term. cbv zeta. unfold Math.powr.
  replace (1.0 + 3.0 * 0 / Math.powi prim.[0] 2
                 * Math.powi (prim.[3] / (Euler2d.GAMMA_LAW_INDEX - 1.0)) 3 * dt)
    with 1 by (unfold Rdiv; rewrite Rmult_0_r, !Rmult_0_l; lra).
  rewrite Rpower_one_l.
  replace (cons.[3] + prim.[0] * (prim.[3] / (Euler2d.GAMMA_LAW_INDEX - 1.0) * 1
                                  - prim.[3] / (Euler2d.GAMMA_LAW_INDEX - 1.0)))
    with cons.[3] by ring.
  apply upd_same.
Qed.

(** The inviscid update of a zone in a uniform gas without sources. *)
Lemma euler2d_inviscid_zone_uniform
    (mesh : Euler2d.Mesh) (eos : Euler2d.EquationOfState)
    (a dt vc df pf rho vx vy pres : R) (i j : Z) :
  0 < df -> df <= rho -> pf <= pres -> Rabs vx <= vc -> Rabs vy <= vc ->
  Euler2d.advance_rk_zone_inviscid mesh
    (fun _ _ => Euler2d.primitive_to_conserved [rho; vx; vy; pres])
    (fun _ _ => [rho; vx; vy; pres]) eos Euler2d.None_ [] a dt vc 0 df pf i j
  = [rho; vx; vy; pres].
Proof.
  intros Hdf Hrho Hpf Hvx Hvy.
  unfold Euler2d.advance_rk_zone_inviscid. cbv zeta. unfold Euler2d.GET.
  rewrite euler2d_plm_gradient_flat.
  destruct (euler2d_face_state_flat rho vx vy pres) as [-> ->].
  cbn [Euler2d.buffer_source_term Euler2d.point_masses_source_term fold_left].
  rewrite cooling_term_off.
  set (F := Euler2d.riemann_hlle _ _ _ 0).
  set (G := Euler2d.riemann_hlle _ _ _ 1).
  etransitivity; [| exact (euler2d_round_trip rho vx vy pres vc df pf Hdf Hrho Hpf Hvx Hvy)].
  f_equal.
  unfold Euler2d.primitive_to_conserved. cbv zeta.
  unfold tabulate, Euler2d.NCONS. cbn [map seq nth].
  unfold Rdiv. replace 1.0 with 1 by lra.
  f_equal; [ring |]. f_equal; [ring |]. f_equal; [ring |]. f_equal. ring.
Qed.

(** X25.  A uniform gas is a steady state of the inviscid scheme of euler2d
    when no source is active: with a mesh of spacings that are not zero, no
    buffer, no point mass, no cooling and zero viscosity,
    [euler2d_advance_rk] on the CPU path writes in every zone of the mesh the
    state [(rho, vx, vy, p)] that [primitive_rd] holds everywhere, the
    checkpoint [conserved_rk] holding the same state, whatever the
    Runge-Kutta parameter and the time step are.  The state has a positive
    pressure and lies within the floors and the velocity ceiling. *)
Theorem euler2d_uniform_state_is_steady :
  forall (have_openmp : bool) (mesh : Euler2d.Mesh) (primitive_wr : Euler2d.Patch)
         (eos : Euler2d.EquationOfState)
         (a dt velocity_ceiling density_floor pressure_floor rho vx vy pres : R)
         (mode : Euler2d.ExecutionMode) (i j : Z),
    Euler2d.dx mesh <> 0 -> Euler2d.dy mesh <> 0 ->
    0 < density_floor -> density_floor <= rho -> 0 < pres -> pressure_floor <= pres ->
    Rabs vx <= velocity_ceiling -> Rabs vy <= velocity_ceiling ->
    mode = Euler2d.CPU \/ (mode = Euler2d.OMP /\ have_openmp = true) ->
    (0 <= i < Z.of_nat (Euler2d.ni mesh))%Z -> (0 <= j < Z.of_nat (Euler2d.nj mesh))%Z ->
    let p := [rho; vx; vy; pres] in
    Euler2d.GET
      (Euler2d.euler2d_advance_rk have_openmp mesh
         (fun _ _ => Euler2d.primitive_to_conserved p) (fun _ _ => p) primitive_wr
         eos Euler2d.None_ [] 0 a dt velocity_ceiling 0 density_floor pressure_floor mode)
      i j
    = p.
Proof.
  intros ho mesh pwr eos a dt vc df pf rho vx vy pres mode i j
         _ _ Hdf Hrho _ Hpf Hvx Hvy Hmode Hi Hj. cbv zeta.
  unfold Euler2d.euler2d_advance_rk. cbv zeta.
  destruct (Req_dec_T 0 0.0) as [_ | Hne]; [| exfalso; apply Hne; lra].
  assert (E : forall wr,
             Euler2d.GET
               (Euler2d.FOR_EACH (Euler2d.ni mesh) (Euler2d.nj mesh)
                  (fun i j wr =>
                     Euler2d.SET wr i j
                       (Euler2d.advance_rk_zone_inviscid mesh
                          (fun _ _ => Euler2d.primitive_to_conserved [rho; vx; vy; pres])
                          (fun _ _ => [rho; vx; vy; pres]) eos Euler2d.None_ [] a dt vc 0
                          df pf i j)) wr) i j
             = [rho; vx; vy; pres]).
  { intros wr. rewrite euler2d_FOR_EACH_SET.
    replace (((0 <=? i)%Z && (i <? Z.of_nat (Euler2d.ni mesh))%Z)
             && ((0 <=? j)%Z && (j <? Z.of_nat (Euler2d.nj mesh))%Z))%bool with true
      by (symmetry; apply inside_iff; split; assumption).
    apply euler2d_inviscid_zone_uniform; assumption. }
  destruct Hmode as [-> | [-> ->]]; apply E.
Qed.

(** A 2 x 2 mesh of a gas moving along [x]. *)
Lemma euler2d_uniform_state_is_steady_witness :
  Euler2d.GET
    (Euler2d.euler2d_advance_rk false (Euler2d.mkMesh 2 2 0 0 1 1)
       (fun _ _ => Euler2d.primitive_to_conserved [1; 2; 0; 1]) (fun _ _ => [1; 2; 0; 1])
       (fun _ _ => []) Euler2d.GammaLaw Euler2d.None_ [] 0 0.5 0.1 10 0 0.01 0.01
       Euler2d.CPU) 1 1
  = [1; 2; 0; 1].
Proof.
  apply (euler2d_uniform_state_is_steady false (Euler2d.mkMesh 2 2 0 0 1 1) (fun _ _ => [])
           Euler2d.GammaLaw 0.5 0.1 10 0.01 0.01 1 2 0 1 Euler2d.CPU 1 1);
    cbn [Euler2d.dx Euler2d.dy Euler2d.ni Euler2d.nj]; try lra; try lia.
  - rewrite Rabs_pos_eq; lra.
  - rewrite Rabs_R0. lra.
  - left. reflexivity.
Defined.

(** ** The reconstruction at the faces *)

Lemma minmod3_rising (a b c : R) :
  0 < a -> 0 < b -> 0 < c ->
  Spec.minmod3 a b c = Rmin a (Rmin b c) /\ 0 < Spec.minmod3 a b c
  /\ Spec.minmod3 a b c <= a /\ Spec.minmod3 a b c <= c.
Proof.
  intros Ha Hb Hc. unfold Spec.minmod3.
  destruct (Rlt_dec 0 a); [| lra]. destruct (Rlt_dec 0 b); [| lra].
  destruct (Rlt_dec 0 c); [| lra].
  split; [reflexivity |]. unfold Rmin.
  destruct (Rle_dec b c), (Rle_dec a b), (Rle_dec a c); lra.
Qed.

Lemma minmod3_falling (a b c : R) :
  a < 0 -> b < 0 -> c < 0 ->
  Spec.minmod3 a b c = Rmax a (Rmax b c) /\ Spec.minmod3 a b c < 0
  /\ a <= Spec.minmod3 a b c /\ c <= Spec.minmod3 a b c.
Proof.
  intros Ha Hb Hc. unfold Spec.minmod3.
  destruct (Rlt_dec 0 a); [lra |]. destruct (Rlt_dec a 0); [| lra].
  destruct (Rlt_dec b 0); [| lra]. destruct (Rlt_dec c 0); [| lra].
  split; [reflexivity |]. unfold Rmax.
  destruct (Rle_dec b c), (Rle_dec a b), (Rle_dec a c); lra.
Qed.

Lemma plm_face_values (theta yl y0 yr : R) :
  0 < theta <= 2 ->
  let g := Spec.plm_formula theta yl y0 yr in
  Rmin yl y0 <= y0 - 0.5 * g <= Rmax yl y0
  /\ Rmin y0 yr <= y0 + 0.5 * g <= Rmax y0 yr.
Proof.
  intros [Ht0 Ht2]. cbv zeta.
  pose proof (Rmin_l yl y0) as M1. pose proof (Rmin_r yl y0) as M2.
  pose proof (Rmax_l yl y0) as M3. pose proof (Rmax_r yl y0) as M4.
  pose proof (Rmin_l y0 yr) as M5. pose proof (Rmin_r y0 yr) as M6.
  pose proof (Rmax_l y0 yr) as M7. pose proof (Rmax_r y0 yr) as M8.
  destruct (Rle_dec ((y0 - yl) * (yr - y0)) 0) as [Hext | Hmono].
  - rewrite plm_formula_extremum by assumption. repeat split; lra.
  - assert (Hm : 0 < (y0 - yl) * (yr - y0)) by lra.
    rewrite plm_formula_monotone by assumption.
    set (g := Spec.minmod3 _ _ _).
    destruct (Rlt_dec 0 (y0 - yl)) as [H1 | H1].
    + assert (H2 : 0 < yr - y0) by nra.
      destruct (minmod3_rising (theta * (y0 - yl)) ((yr - yl) / 2) (theta * (yr - y0)))
        as [_ [P [A C]]]; [apply Rmult_lt_0_compat; lra | lra | apply Rmult_lt_0_compat; lra |].
      fold g in P, A, C.
      assert (theta * (y0 - yl) <= 2 * (y0 - yl)) by (apply Rmult_le_compat_r; lra).
      assert (theta * (yr - y0) <= 2 * (yr - y0)) by (apply Rmult_le_compat_r; lra).
      repeat split; lra.
    + assert (H1' : y0 - yl < 0) by nra.
      assert (H2 : yr - y0 < 0) by nra.
      destruct (minmod3_falling (theta * (y0 - yl)) ((yr - yl) / 2) (theta * (yr - y0)))
        as [_ [P [A C]]]; [nra | lra | nra |].
      fold g in P, A, C.
      assert (2 * (y0 - yl) <= theta * (y0 - yl)).
      { assert (theta * - (y0 - yl) <= 2 * - (y0 - yl)) by (apply Rmult_le_compat_r; lra). lra. }
      assert (2 * (yr - y0) <= theta * (yr - y0)).
      { assert (theta * - (yr - y0) <= 2 * - (yr - y0)) by (apply Rmult_le_compat_r; lra). lra. }
      repeat split; lra.
Qed.

(** X26.  The piecewise-linear reconstruction never overshoots: with the
    limited gradient [g] of three neighbouring values, the values
    [y0 - g / 2] and [y0 + g / 2] that the schemes use at the two faces of
    the middle zone lie between the value of the middle zone and the value
    of the neighbour on that side (iso2d, euler2d and srhd_1d). *)
Theorem plm_face_values_are_bounded :
  forall yl y0 yr : R,
    (let g := Iso2d.plm_gradient_scalar yl y0 yr in
     Rmin yl y0 <= y0 - 0.5 * g <= Rmax yl y0 /\ Rmin y0 yr <= y0 + 0.5 * g <= Rmax y0 yr)
    /\ (let g := Euler2d.plm_gradient_scalar yl y0 yr in
        Rmin yl y0 <= y0 - 0.5 * g <= Rmax yl y0
        /\ Rmin y0 yr <= y0 + 0.5 * g <= Rmax y0 yr)
    /\ (let g := Srhd1d.plm_gradient_scalar yl y0 yr in
        Rmin yl y0 <= y0 - 0.5 * g <= Rmax yl y0
        /\ Rmin y0 yr <= y0 + 0.5 * g <= Rmax y0 yr).
Proof.
  intros yl y0 yr. cbv zeta.
  rewrite iso2d_plm_formula, euler2d_plm_formula, srhd1d_plm_formula.
  split; [| split]; apply plm_face_values; lra.
Qed.

Lemma minmod3_opp (a b c : R) :
  0 < a * c -> Spec.minmod3 (- c) (- b) (- a) = - Spec.minmod3 a b c.
Proof.
  intros H. unfold Spec.minmod3.
  destruct (Rlt_dec 0 a) as [Ha | Ha].
  - assert (Hc : 0 < c).
    { destruct (Rlt_dec 0 c) as [E | E]; [exact E | exfalso].
      assert (a * c <= 0) by (replace (a * c) with (- (a * (- c))) by ring;
                              assert (0 <= a * (- c)) by (apply Rmult_le_pos; lra); lra).
      lra. }
    destruct (Rlt_dec 0 (- c)); [lra |]. destruct (Rlt_dec (- c) 0); [| lra].
    destruct (Rlt_dec 0 c); [| lra].
    destruct (Rlt_dec 0 b) as [Hb | Hb].
    + destruct (Rlt_dec (- b) 0); [| lra]. destruct (Rlt_dec (- a) 0); [| lra].
      unfold Rmin, Rmax.
      destruct (Rle_dec (- b) (- a)), (Rle_dec b c), (Rle_dec a b), (Rle_dec a c),
        (Rle_dec (- c) (- a)), (Rle_dec (- c) (- b)); lra.
    + destruct (Rlt_dec (- b) 0); [lra |]. lra.
  - assert (Ha' : a < 0).
    { destruct (Req_dec a 0) as [E | E]; [rewrite E, Rmult_0_l in H; lra | lra]. }
    assert (Hc : c < 0).
    { destruct (Rlt_dec c 0) as [E | E]; [exact E | exfalso].
      assert (a * c <= 0) by (replace (a * c) with (- ((- a) * c)) by ring;
                              assert (0 <= (- a) * c) by (apply Rmult_le_pos; lra); lra).
      lra. }
    destruct (Rlt_dec a 0); [| lra].
    destruct (Rlt_dec 0 (- c)); [| lra]. destruct (Rlt_dec c 0); [| lra].
    destruct (Rlt_dec b 0) as [Hb | Hb].
    + destruct (Rlt_dec 0 (- b)); [| lra]. destruct (Rlt_dec 0 (- a)); [| lra].
      unfold Rmin, Rmax.
      destruct (Rle_dec (- b) (- a)), (Rle_dec b c), (Rle_dec a b), (Rle_dec a c),
        (Rle_dec (- c) (- a)), (Rle_dec (- c) (- b)); lra.
    + destruct (Rlt_dec 0 (- b)); [lra |]. lra.
Qed.

Lemma plm_formula_mirror (theta yl y0 yr : R) :
  0 < theta -> Spec.plm_formula theta yr y0 yl = - Spec.plm_formula theta yl y0 yr.
Proof.
  intros Ht.
  destruct (Rle_dec ((y0 - yl) * (yr - y0)) 0) as [Hext | Hmono].
  - rewrite (plm_formula_extremum theta yl y0 yr) by assumption.
    rewrite (plm_formula_extremum theta yr y0 yl) by (try assumption; lra). lra.
  - rewrite (plm_formula_monotone theta yl y0 yr) by (try assumption; lra).
    rewrite (plm_formula_monotone theta yr y0 yl) by (try assumption; lra).
    rewrite <- minmod3_opp.
    + f_equal; lra.
    + assert (0 < theta * theta) by nra. nra.
Qed.

(** X27.  The limiter has no preferred direction: the limited gradient of
    three values read from right to left is the opposite of the one read
    from left to right (iso2d, euler2d and srhd_1d). *)
Theorem plm_gradient_mirror :
  forall yl y0 yr : R,
    Iso2d.plm_gradient_scalar yr y0 yl = - Iso2d.plm_gradient_scalar yl y0 yr
    /\ Euler2d.plm_gradient_scalar yr y0 yl = - Euler2d.plm_gradient_scalar yl y0 yr
    /\ Srhd1d.plm_gradient_scalar yr y0 yl = - Srhd1d.plm_gradient_scalar yl y0 yr.
Proof.
  intros yl y0 yr.
  rewrite ?iso2d_plm_formula, ?euler2d_plm_formula, ?srhd1d_plm_formula.
  split; [| split]; apply plm_formula_mirror; lra.
Qed.

(** ** States that [primitive_to_conserved] of srhd_1d produces *)

Lemma srhd_lorentz_facts (u : R) :
  let w := sqrt (1 + u * u) in
  1 <= w /\ w * w = 1 + u * u /\ Rabs u < w.
Proof.
  cbv zeta.
  assert (H0 : 0 <= 1 + u * u) by nra.
  pose proof (sqrt_sqrt _ H0) as Hs.
  pose proof (sqrt_pos (1 + u * u)) as Hp.
  assert (H1 : 1 <= sqrt (1 + u * u)).
  { destruct (Rle_dec 1 (sqrt (1 + u * u))) as [H | H]; [exact H | exfalso].
    assert (sqrt (1 + u * u) * sqrt (1 + u * u) < 1 * 1) by nra. nra. }
  split; [exact H1 |]. split; [exact Hs |].
  unfold Rabs. destruct (Rcase_abs u); nra.
Qed.

(** X28.  A state that [primitive_to_conserved] of srhd_1d builds from a
    positive density and pressure in a cell of positive volume is
    admissible: the mass [cons[0]] and the energy [cons[2]] are positive
    and the momentum is smaller in magnitude than the total energy,
    [|cons[1]| < cons[2] + cons[0]], whatever the four-velocity. *)
Theorem srhd1d_conserved_state_is_admissible :
  forall (prim : list R) (dv : R),
    0 < prim.[0] -> 0 < prim.[2] -> 0 < dv ->
    let cons := Srhd1d.primitive_to_conserved prim dv in
    0 < cons.[0] /\ 0 < cons.[2] /\ Rabs cons.[1] < cons.[2] + cons.[0].
Proof.
  intros prim dv Hr Hp Hv. cbv zeta.
  unfold Srhd1d.primitive_to_conserved, Srhd1d.primitive_to_enthalpy_density,
    Srhd1d.primitive_to_lorentz_factor, Srhd1d.primitive_to_gamma_beta_squared,
    Srhd1d.ADIABATIC_GAMMA.
  cbv zeta. cbn [nth].
  set (rho := prim.[0]) in *. set (u := prim.[1]). set (p := prim.[2]) in *.
  replace 1.0 with 1 by lra.
  replace (1 + 1 / (4.0 / 3.0 - 1)) with 4 by (replace (4.0 / 3.0 - 1) with (/ 3) by lra; field).
  destruct (srhd_lorentz_facts u) as [W1 [W2 Wu]].
  set (w := sqrt (1 + u * u)) in *.
  assert (Hw : 0 < w) by lra.
  replace ((rho + p * 4) / rho) with (1 + 4 * p / rho) by (field; lra).
  assert (Hm : 0 < rho * w) by (apply Rmult_lt_0_compat; lra).
  split; [apply Rmult_lt_0_compat; lra |].
  assert (E2 : dv * (rho * w) * ((1 + 4 * p / rho) * w - 1) - dv * p
               = dv * (rho * w * (w - 1) + p * (4 * (w * w) - 1))) by (field; lra).
  assert (E1 : dv * (rho * w) * (1 + 4 * p / rho) * u = dv * ((rho + 4 * p) * (w * u)))
    by (field; lra).
  assert (Hww : 1 <= w * w) by nra.
  assert (Ha : 0 <= rho * w * (w - 1)) by (apply Rmult_le_pos; lra).
  assert (Hb : 0 < p * (4 * (w * w) - 1)) by (apply Rmult_lt_0_compat; lra).
  split.
  - rewrite E2. apply Rmult_lt_0_compat; lra.
  - rewrite E1, E2.
    replace (dv * (rho * w * (w - 1) + p * (4 * (w * w) - 1)) + dv * (rho * w))
      with (dv * ((rho + 4 * p) * (w * w) - p)) by ring.
    rewrite Rabs_mult, (Rabs_right dv) by lra.
    apply Rmult_lt_compat_l; [exact Hv |].
    rewrite Rabs_mult, (Rabs_right (rho + 4 * p)) by lra.
    rewrite Rabs_mult, (Rabs_right w) by lra.
    set (a := Rabs u) in *.
    assert (Ha0 : 0 <= a) by apply Rabs_pos.
    assert (Haa : a * a = u * u).
    { unfold a, Rabs. destruct (Rcase_abs u); ring. }
    (* w * (w - a) >= 1/2 *)
    assert (Hk : 1 <= 2 * (w * (w - a))).
    { assert ((w - a) * (w + a) = 1) by nra.
      assert (0 < w - a) by lra.
      assert (w + a <= 2 * w) by lra.
      nra. }
    assert (Hq : (rho + 4 * p) * (w * a) = (rho + 4 * p) * (w * w) - (rho + 4 * p) * (w * (w - a)))
      by ring.
    rewrite Hq.
    assert (rho + 4 * p <= 2 * ((rho + 4 * p) * (w * (w - a)))) by nra.
    lra.
Qed.

(** A fluid of unit density and pressure moving with four-velocity 2. *)
Lemma srhd1d_conserved_state_is_admissible_witness :
  let cons := Srhd1d.primitive_to_conserved [1; 2; 1; 0] 1 in
  0 < cons.[0] /\ 0 < cons.[2] /\ Rabs cons.[1] < cons.[2] + cons.[0].
Proof.
  apply (srhd1d_conserved_state_is_admissible [1; 2; 1; 0] 1); cbn [nth]; lra.
Defined.

(** ** The potential and the locally isothermal sound speed *)

Lemma fold_left_nonpos {A : Type} (f : R -> A -> R) (l : list A) (P : A -> Prop) :
  (forall phi m, P m -> phi <= 0 -> f phi m <= 0) ->
  Forall P l -> forall phi, phi <= 0 -> fold_left f l phi <= 0.
Proof.
  intros Hf HP. induction HP as [| m l Hm _ IH]; intros phi Hphi; cbn [fold_left].
  - exact Hphi.
  - apply IH. apply Hf; assumption.
Qed.

Lemma mass_over_distance (mp r2 : R) : 0 <= mp -> 0 < r2 -> 0 <= mp / sqrt r2.
Proof.
  intros Hm Hr. pose proof (sqrt_lt_R0 r2 Hr) as Hs.
  unfold Rdiv. apply Rmult_le_pos; [exact Hm |].
  apply Rlt_le, Rinv_0_lt_compat. exact Hs.
Qed.

(** X29.  The potential is never positive and the locally isothermal sound
    speed squared never negative.  In iso2d this holds when no mass is
    negative; in cbdisodg_2d it holds for masses of any sign, because a
    mass that is not positive is left out of the sum.  The softened
    distance to each mass is taken to be non-zero and the Mach number
    squared positive. *)
Theorem locally_isothermal_sound_speed_is_nonnegative :
  forall (x y m2 cs2 : R) (masses : list Iso2d.PointMass)
         (mass_list : Cbdisodg2d.PointMassList),
    0 < m2 ->
    Forall (fun m =>
              0 <= Iso2d.pm_mass m
              /\ 0 < (x - Iso2d.pm_x m) * (x - Iso2d.pm_x m)
                     + (y - Iso2d.pm_y m) * (y - Iso2d.pm_y m)
                     + Iso2d.pm_radius m * Iso2d.pm_radius m) masses ->
    Forall (fun m =>
              0 < (x - Cbdisodg2d.pm_x m) * (x - Cbdisodg2d.pm_x m)
                  + (y - Cbdisodg2d.pm_y m) * (y - Cbdisodg2d.pm_y m)
                  + Cbdisodg2d.softening_length m * Cbdisodg2d.softening_length m)
           (Cbdisodg2d.masses mass_list) ->
    (Iso2d.gravitational_potential masses x y <= 0
     /\ 0 <= Iso2d.sound_speed_squared (Iso2d.LocallyIsothermal m2) x y masses)
    /\ (Cbdisodg2d.gravitational_potential mass_list x y <= 0
        /\ 0 <= Cbdisodg2d.sound_speed_squared cs2 m2 2 x y mass_list).
Proof.
  intros x y m2 cs2 masses mass_list Hm2 HF HG.
  assert (Hdiv : forall phi, phi <= 0 -> 0 <= - phi / m2).
  { intros phi Hphi. unfold Rdiv. apply Rmult_le_pos; [lra |].
    apply Rlt_le, Rinv_0_lt_compat. exact Hm2. }
  split.
  - assert (Hphi : Iso2d.gravitational_potential masses x y <= 0).
    { unfold Iso2d.gravitational_potential.
      eapply fold_left_nonpos; [| exact HF | lra].
      intros phi m [Hm Hr] Hp. cbv zeta.
      pose proof (mass_over_distance _ _ Hm Hr). lra. }
    split; [exact Hphi |].
    cbn [Iso2d.sound_speed_squared]. apply Hdiv. exact Hphi.
  - assert (Hphi : Cbdisodg2d.gravitational_potential mass_list x y <= 0).
    { unfold Cbdisodg2d.gravitational_potential.
      eapply fold_left_nonpos; [| exact HG | lra].
      intros phi m Hr Hp. cbv zeta beta.
      destruct (Rgt_dec (Cbdisodg2d.pm_mass m) 0.0) as [Hm | Hm]; [| exact Hp].
      assert (Hm' : 0 <= Cbdisodg2d.pm_mass m) by lra.
      pose proof (mass_over_distance _ _ Hm' Hr). lra. }
    split; [exact Hphi |].
    cbn [Cbdisodg2d.sound_speed_squared]. apply Hdiv. exact Hphi.
Qed.

(** A unit mass at the origin in iso2d; in cbdisodg_2d a unit mass at the
    origin and a mass of [-5] beside it, which the sum leaves out. *)
Lemma locally_isothermal_sound_speed_is_nonnegative_witness :
  let masses := [Iso2d.mkPointMass 0 0 1 0 0] in
  let mass_list :=
    (Cbdisodg2d.mkPointMass 0 0 0 0 1 0 0 0 1,
     Cbdisodg2d.mkPointMass 2 0 0 0 (-5) 0 0 0 1) in
  (Iso2d.gravitational_potential masses 1 0 <= 0
   /\ 0 <= Iso2d.sound_speed_squared (Iso2d.LocallyIsothermal 100) 1 0 masses)
  /\ (Cbdisodg2d.gravitational_potential mass_list 1 0 <= 0
      /\ 0 <= Cbdisodg2d.sound_speed_squared 1 100 2 1 0 mass_list).
Proof.
  cbv zeta.
  apply (locally_isothermal_sound_speed_is_nonnegative 1 0 100 1).
  - lra.
  - repeat constructor; cbn; lra.
  - repeat constructor; cbn; lra.
Defined.
